(** * std_stream_extensions: the indenting stream-buffer filters

    A shallow embedding of

    - [include/code_fmt_stream.h]: [fmt::basic_fmtstreambuf], the indent
      filter that writes byte-at-a-time to the next buffer (module [Fmt]);
    - the chaining buffer [exp::basic_filter_streambuf] of [streams.h]
      (module [Exp]);
    - the second [fmt::basic_fmtstreambuf], the one that includes
      [streams.h] and is layered on the chaining buffer (module [FmtChain]).

    Characters are [ascii] (the [char] instantiation), runs of characters
    are [list ascii], [size_t] is [N] with its wrap-around at [2^64] written
    out, positions inside a run are [nat]. *)

From Stdlib Require Import Ascii String List NArith ZArith Bool Arith Lia.
Import ListNotations.

Local Open Scope N_scope.

(** ** Characters and control codes *)

Definition char_type := ascii.

(** [Traits::to_char_type] on [char]: keep the low eight bits. *)
Definition to_char_type (n : N) : char_type := ascii_of_N n.

(** [Traits::eq]. *)
Definition traits_eq (a b : char_type) : bool := Ascii.eqb a b.

(** [enum ControlCodes]. *)
Definition EndOfLine : N := 10.   (* 0xa *)
Definition Indent : N := 15.      (* 0xf *)
Definition Undent : N := 14.      (* 0xe *)

Definition end_of_line : char_type := to_char_type EndOfLine.
Definition indent_code : char_type := to_char_type Indent.
Definition undent_code : char_type := to_char_type Undent.

Definition space : char_type := " "%char.
Definition nul : char_type := ascii_of_N 0.

(** [std::isspace(c, std::locale{})] with the global locale left at its
    default, the classic "C" locale: blank, and the range HT..CR. *)
Definition isspace_classic (c : char_type) : bool :=
  let n := N_of_ascii c in (n =? 32) || ((9 <=? n) && (n <=? 13)).

Definition size_max : N := 2 ^ 64.

(** A run of characters written as a string literal. *)
Definition chars (s : string) : list char_type := list_ascii_of_string s.

(** ** The next buffer in the chain

    [std::basic_streambuf] is external.  What the filters use of it is
    [sputn], [sputc] and [sgetn].  A buffer takes, at its [i]-th write call,
    at most [accept i n] of the [n] characters offered; what it took is
    appended to [delivered].  [readable] is what [sgetn] can still fetch. *)

Record streambuf := {
  accept : nat -> nat -> nat;
  calls : nat;
  delivered : list char_type;
  readable : list char_type
}.

Definition streambuf_sputn (b : streambuf) (s : list char_type)
  : streambuf * nat :=
  let n := Nat.min (length s) (accept b (calls b) (length s)) in
  ({| accept := accept b; calls := S (calls b);
      delivered := delivered b ++ firstn n s; readable := readable b |}, n).

Definition streambuf_sgetn (b : streambuf) (count : nat)
  : streambuf * list char_type :=
  ({| accept := accept b; calls := calls b; delivered := delivered b;
      readable := skipn count (readable b) |}, firstn count (readable b)).

(** A buffer that takes everything, and one that takes [k] characters per
    write call. *)
Definition accept_all : nat -> nat -> nat := fun _ n => n.
Definition accept_upto (k : nat) : nat -> nat -> nat := fun _ n => Nat.min k n.

Definition sink (a : nat -> nat -> nat) : streambuf :=
  {| accept := a; calls := 0; delivered := []; readable := [] |}.

(** ** Pointers and faults

    [next] is a raw, non-owning pointer.  A null pointer is [None]; using it
    is undefined behaviour, modelled as the outcome [Fault]. *)

Definition pointer := option streambuf.

Inductive result (A : Type) : Type :=
| Ok (a : A)
| Fault.
Arguments Ok {A} a.
Arguments Fault {A}.

Definition bind {A B} (r : result A) (k : A -> result B) : result B :=
  match r with
  | Ok a => k a
  | Fault => Fault
  end.

Notation "' p <- c ;; k" := (bind c (fun p => k))
  (at level 61, p pattern, c at next level, right associativity).

Definition sputn (p : pointer) (s : list char_type) : result (pointer * nat) :=
  match p with
  | None => Fault
  | Some b => let (b', n) := streambuf_sputn b s in Ok (Some b', n)
  end.

(** [sputc] reports [true] for the character, [false] for [Traits::eof()]. *)
Definition sputc (p : pointer) (c : char_type) : result (pointer * bool) :=
  ' (p', n) <- sputn p [c] ;; Ok (p', Nat.eqb n 1).

Definition sgetn (p : pointer) (count : nat)
  : result (pointer * list char_type) :=
  match p with
  | None => Fault
  | Some b => let (b', got) := streambuf_sgetn b count in Ok (Some b', got)
  end.

(** What has reached the buffer a pointer refers to. *)
Definition output (p : pointer) : list char_type :=
  match p with
  | Some b => delivered b
  | None => []
  end.

(** ** include/code_fmt_stream.h *)

Module Fmt.

Record basic_fmtstreambuf := {
  indent_increment : N;
  next : pointer;
  at_start_of_line : bool;
  indent_level : N;
  locale : char_type -> bool;
  pending_indent : N
}.

Definition set_next (f : basic_fmtstreambuf) (p : pointer) :=
  {| indent_increment := indent_increment f; next := p;
     at_start_of_line := at_start_of_line f; indent_level := indent_level f;
     locale := locale f; pending_indent := pending_indent f |}.

Definition set_at_start_of_line (f : basic_fmtstreambuf) (b : bool) :=
  {| indent_increment := indent_increment f; next := next f;
     at_start_of_line := b; indent_level := indent_level f;
     locale := locale f; pending_indent := pending_indent f |}.

Definition set_indent_level (f : basic_fmtstreambuf) (l : N) :=
  {| indent_increment := indent_increment f; next := next f;
     at_start_of_line := at_start_of_line f; indent_level := l;
     locale := locale f; pending_indent := pending_indent f |}.

Definition set_pending_indent (f : basic_fmtstreambuf) (n : N) :=
  {| indent_increment := indent_increment f; next := next f;
     at_start_of_line := at_start_of_line f; indent_level := indent_level f;
     locale := locale f; pending_indent := n |}.

Definition set_indent_increment (f : basic_fmtstreambuf) (n : N) :=
  {| indent_increment := n; next := next f;
     at_start_of_line := at_start_of_line f; indent_level := indent_level f;
     locale := locale f; pending_indent := pending_indent f |}.

(** The constructor stores the pointer; the other members take their
    default member initialisers. *)
Definition construct (nxt : pointer) : result basic_fmtstreambuf :=
  Ok {| indent_increment := 4; next := nxt; at_start_of_line := true;
        indent_level := 0; locale := isspace_classic; pending_indent := 0 |}.

Definition fresh (nxt : pointer) : basic_fmtstreambuf :=
  {| indent_increment := 4; next := nxt; at_start_of_line := true;
     indent_level := 0; locale := isspace_classic; pending_indent := 0 |}.

(** [++indent_level] on a [size_t]. *)
Definition indent (f : basic_fmtstreambuf) : basic_fmtstreambuf :=
  set_indent_level f ((indent_level f + 1) mod size_max).

(** [if (indent_level) --indent_level;] *)
Definition undent (f : basic_fmtstreambuf) : basic_fmtstreambuf :=
  if indent_level f =? 0 then f
  else set_indent_level f (indent_level f - 1).

(** [static char_type spaces[] = "                ";] sixteen blanks and the
    terminating NUL, and [spaces_count = sizeof(spaces)]. *)
Definition spaces : list char_type := repeat space 16 ++ [nul].
Definition spaces_count : N := N.of_nat (length spaces).

(** The [for] loop of [do_indentation]; [pending_indent] is the loop
    variable.  Each round lowers it by at least one, so [fuel] rounds with
    [fuel >= pending_indent] always reach the exit. *)
Fixpoint indentation_loop (fuel : nat) (f : basic_fmtstreambuf)
  : result (basic_fmtstreambuf * N) :=
  if pending_indent f =? 0 then Ok (f, 0)
  else
    match fuel with
    | O => Ok (f, pending_indent f)
    | S fuel' =>
        let m := N.min (pending_indent f) spaces_count in
        ' (p, n) <- sputn (next f) (firstn (N.to_nat m) spaces) ;;
        let f1 := set_next f p in
        if N.of_nat n =? m
        then indentation_loop fuel' (set_pending_indent f1 (pending_indent f1 - m))
        else Ok (f1, pending_indent f1)
    end.

Definition do_indentation (f : basic_fmtstreambuf) (indentation_count : N)
  : result (basic_fmtstreambuf * N) :=
  indentation_loop (N.to_nat indentation_count)
                   (set_pending_indent f indentation_count).

(** The [for] loop of [xsputn] from position [idx], [l] being
    [obuf[idx..count)]. *)
Fixpoint xsputn_loop (f : basic_fmtstreambuf) (idx : nat) (l : list char_type)
  : result (basic_fmtstreambuf * nat) :=
  match l with
  | [] => Ok (f, idx)
  | c :: rest =>
      if traits_eq c indent_code then xsputn_loop (indent f) (S idx) rest
      else if traits_eq c undent_code then xsputn_loop (undent f) (S idx) rest
      else if at_start_of_line f && locale f c then xsputn_loop f (S idx) rest
      else
        ' (f1, owed) <-
            (if at_start_of_line f
             then do_indentation f
                    ((indent_level f * indent_increment f) mod size_max)
             else Ok (f, 0)) ;;
        if negb (owed =? 0) then Ok (f1, idx)
        else
          let f2 := set_at_start_of_line f1 (traits_eq c end_of_line) in
          ' (p, n) <- sputn (next f2) [c] ;;
          let f3 := set_next f2 p in
          if negb (Nat.eqb n 1) then Ok (f3, idx)
          else xsputn_loop f3 (S idx) rest
  end.

Definition xsputn (f : basic_fmtstreambuf) (obuf : list char_type)
  : result (basic_fmtstreambuf * nat) :=
  ' (f1, owed) <-
      (if 0 <? pending_indent f
       then do_indentation f (pending_indent f)
       else Ok (f, 0)) ;;
  if negb (owed =? 0) then Ok (f1, 0%nat)
  else xsputn_loop f1 0 obuf.

(** [xsgetn] ignores the buffer it is given and the next buffer. *)
Definition xsgetn (f : basic_fmtstreambuf) (ibuf : list char_type)
    (count : nat) : result (basic_fmtstreambuf * list char_type * nat) :=
  Ok (f, ibuf, count).

(** [basic_begin], [basic_end], [basic_sft_end]. *)
Definition basic_begin (open_brace : char_type) : list char_type :=
  [open_brace; indent_code; end_of_line].

Definition basic_end (close_brace : char_type) : list char_type :=
  [undent_code; end_of_line; close_brace; end_of_line].

Definition basic_sft_end (close_brace : char_type) : list char_type :=
  [undent_code; end_of_line; close_brace].

(** Successive insertions into a stream on the filter: one [xsputn] per
    run, the counts collected. *)
Fixpoint write_runs (f : basic_fmtstreambuf) (runs : list (list char_type))
  : result (basic_fmtstreambuf * list nat) :=
  match runs with
  | [] => Ok (f, [])
  | r :: rs =>
      ' (f1, n) <- xsputn f r ;;
      ' (f2, ns) <- write_runs f1 rs ;;
      Ok (f2, n :: ns)
  end.

(** The caller of the partial-acceptance contract: submit, and resubmit
    what was reported unprocessed, at most [tries] times.  Returns the
    filter and what is still unprocessed. *)
Fixpoint resubmit (tries : nat) (f : basic_fmtstreambuf) (obuf : list char_type)
  : result (basic_fmtstreambuf * list char_type) :=
  match tries with
  | O => Ok (f, obuf)
  | S t =>
      ' (f1, n) <- xsputn f obuf ;;
      match skipn n obuf with
      | [] => Ok (f1, [])
      | remaining => resubmit t f1 remaining
      end
  end.

End Fmt.

(** ** The chaining buffer, [exp::basic_filter_streambuf] *)

Module Exp.

(** The object: the template's two sizes, the members [next], [obuf] and
    [ibuf], and the put and get positions inherited from
    [std::basic_streambuf], as offsets into [obuf] and [ibuf]. *)
Record basic_filter_streambuf := {
  write_buffer_size : nat;
  read_buffer_size : nat;
  next : pointer;
  obuf : list char_type;
  pptr : nat;
  ibuf : list char_type;
  gptr : nat;
  egptr : nat
}.

Definition sizeof_obuf (b : basic_filter_streambuf) : nat := write_buffer_size b.
Definition sizeof_ibuf (b : basic_filter_streambuf) : nat :=
  (read_buffer_size b + 8)%nat.

Definition set_next (b : basic_filter_streambuf) (p : pointer) :=
  {| write_buffer_size := write_buffer_size b;
     read_buffer_size := read_buffer_size b; next := p; obuf := obuf b;
     pptr := pptr b; ibuf := ibuf b; gptr := gptr b; egptr := egptr b |}.

Definition set_obuf (b : basic_filter_streambuf) (o : list char_type) :=
  {| write_buffer_size := write_buffer_size b;
     read_buffer_size := read_buffer_size b; next := next b; obuf := o;
     pptr := pptr b; ibuf := ibuf b; gptr := gptr b; egptr := egptr b |}.

Definition set_ibuf (b : basic_filter_streambuf) (i : list char_type) :=
  {| write_buffer_size := write_buffer_size b;
     read_buffer_size := read_buffer_size b; next := next b; obuf := obuf b;
     pptr := pptr b; ibuf := i; gptr := gptr b; egptr := egptr b |}.

(** [setp(obuf, obuf + sizeof(obuf))] puts the put position back at the
    start; [pbump(n)] advances it. *)
Definition setp (b : basic_filter_streambuf) :=
  {| write_buffer_size := write_buffer_size b;
     read_buffer_size := read_buffer_size b; next := next b; obuf := obuf b;
     pptr := 0; ibuf := ibuf b; gptr := gptr b; egptr := egptr b |}.

Definition pbump (b : basic_filter_streambuf) (n : nat) :=
  {| write_buffer_size := write_buffer_size b;
     read_buffer_size := read_buffer_size b; next := next b; obuf := obuf b;
     pptr := (pptr b + n)%nat; ibuf := ibuf b; gptr := gptr b;
     egptr := egptr b |}.

Definition setg (b : basic_filter_streambuf) (g e : nat) :=
  {| write_buffer_size := write_buffer_size b;
     read_buffer_size := read_buffer_size b; next := next b; obuf := obuf b;
     pptr := pptr b; ibuf := ibuf b; gptr := g; egptr := e |}.

(** The constructor.  The arrays are not initialised by the source; their
    indeterminate content is taken to be NUL characters. *)
Definition construct (wsize rsize : nat) (nxt : pointer)
  : result basic_filter_streambuf :=
  Ok {| write_buffer_size := wsize; read_buffer_size := rsize; next := nxt;
        obuf := repeat nul wsize; pptr := 0;
        ibuf := repeat nul (rsize + 8); gptr := 8; egptr := 8 |}.

(** What is waiting in the output buffer: [obuf[0..pptr)]. *)
Definition waiting (b : basic_filter_streambuf) : list char_type :=
  firstn (pptr b) (obuf b).

(** [a[i] = v] inside the array. *)
Fixpoint store (a : list char_type) (i : nat) (v : char_type) : list char_type :=
  match a, i with
  | [], _ => []
  | _ :: t, O => v :: t
  | h :: t, S j => h :: store t j v
  end.

(** The classes built on the chaining buffer: the object contains the
    base object, and [filter_write] is virtual. *)
Class filter_streambuf (T : Type) := {
  base : T -> basic_filter_streambuf;
  set_base : T -> basic_filter_streambuf -> T;
  filter_write : T -> list char_type -> result (T * Z)
}.

(** The base class's own [filter_write]. *)
Definition base_filter_write (b : basic_filter_streambuf) (o : list char_type)
  : result (basic_filter_streambuf * Z) :=
  ' (p, n) <- sputn (next b) o ;; Ok (set_next b p, Z.of_nat n).

#[global] Instance base_class : filter_streambuf basic_filter_streambuf := {
  base := fun b => b;
  set_base := fun _ b => b;
  filter_write := base_filter_write
}.

(** [for (ssize_t cp = n; cp < (sizeof(obuf) - n); ++cp)
       obuf[cp - n] = obuf[cp];] with [rounds] iterations left. *)
Fixpoint shift_loop (rounds : nat) (n cp : nat) (a : list char_type)
  : list char_type :=
  match rounds with
  | O => a
  | S r => shift_loop r n (S cp) (store a (cp - n) (nth cp a nul))
  end.

(** [sync].  [n] beyond [sizeof(obuf)] would make the copy loop read past
    the array: a fault. *)
Definition sync {T} `{filter_streambuf T} (t : T) : result (T * Z) :=
  let len := pptr (base t) in
  ' (t1, n) <- filter_write t (firstn len (obuf (base t))) ;;
  if (n <? 0)%Z then Ok (t1, (-1)%Z)
  else if (n =? Z.of_nat len)%Z then Ok (set_base t1 (setp (base t1)), 0%Z)
  else
    let b := base t1 in
    let w := sizeof_obuf b in
    let k := Z.to_nat n in
    if (w <? k)%nat then Fault
    else
      let b1 := set_obuf b (shift_loop (w - k - k) k k (obuf b)) in
      Ok (set_base t1 (pbump (setp b1) (w - k)), 0%Z).

(** [sizeof] of a [char_type *]: 8, [size_t] being 64 bits wide. *)
Definition sizeof_pointer : nat := 8.

(** The base class's [filter_read].  Its parameter [ibuf] hides the member
    of that name, so [sizeof(ibuf)] is the size of a pointer: [sgetn] is
    asked for [sizeof_pointer - 8] characters, to be put 8 places beyond the
    pointer given.  [dest] is that pointer as an offset into the member
    array [ibuf] ([underflow], the caller, passes [ibuf + 8]); [count] is
    not used. *)
Definition filter_read (b : basic_filter_streambuf) (dest count : nat)
  : result (basic_filter_streambuf * Z) :=
  ' (p, got) <- sgetn (next b) (sizeof_pointer - 8) ;;
  let i := firstn (dest + 8) (ibuf b) ++ got
           ++ skipn (dest + 8 + length got) (ibuf b) in
  Ok (set_ibuf (set_next b p) i, Z.of_nat (length got)).

(** [Traits::eof()], [Traits::to_int_type], and the conversion of an
    [int_type] to [char_type] ([char_traits<char>]: through
    [unsigned char]). *)
Definition eof : Z := (-1)%Z.
Definition to_int_type (c : char_type) : Z := Z.of_N (N_of_ascii c).
Definition int_to_char (c : Z) : char_type := ascii_of_N (Z.to_N (c mod 256)).

(** [Traits::not_eof]: the argument, or 0 for [eof]. *)
Definition not_eof (c : Z) : Z := if (c =? eof)%Z then 0%Z else c.

(** [*pptr++ = c]: the inherited [sputc] when the put area has room. *)
Definition put_here (b : basic_filter_streambuf) (c : char_type) :=
  pbump (set_obuf b (store (obuf b) (pptr b) c)) 1.

(** [overflow].  The test [if (traits_type::not_eof(c))] is a test of an
    integer: it fails for [eof] and for 0, the NUL character.  Its
    [this->xsputn(&cc, 1)] is the inherited [std::basic_streambuf::xsputn]
    for one character: the character goes into the put area when there is
    room, and to [overflow] again when there is none.  [fuel] bounds the
    depth of that recursion; [None] means the recursion is deeper. *)
Fixpoint overflow {T} `{filter_streambuf T} (fuel : nat) (t : T) (c : Z)
  : option (result (T * Z)) :=
  match fuel with
  | O => None
  | S fuel' =>
      match sync t with
      | Fault => Some Fault
      | Ok (t1, r) =>
          if (r <? 0)%Z then Some (Ok (t1, eof))
          else if (not_eof c =? 0)%Z
          then Some (Ok (t1, to_int_type (int_to_char c)))
          else
            let cc := int_to_char c in
            let b := base t1 in
            if (pptr b <? sizeof_obuf b)%nat
            then Some (Ok (set_base t1 (put_here b cc), to_int_type cc))
            else
              match overflow fuel' t1 (to_int_type cc) with
              | None => None
              | Some Fault => Some Fault
              | Some (Ok (t2, _)) => Some (Ok (t2, to_int_type cc))
              end
      end
  end.

(** The inherited [sputc] on the chaining buffer. *)
Definition put_char {T} `{filter_streambuf T} (fuel : nat) (t : T)
    (c : char_type) : option (result (T * Z)) :=
  let b := base t in
  if (pptr b <? sizeof_obuf b)%nat
  then Some (Ok (set_base t (put_here b c), to_int_type c))
  else overflow fuel t (to_int_type c).

(** The inherited [xsputn] on the chaining buffer: [sputc] character by
    character, stopping at the first [eof]. *)
Fixpoint put_chars {T} `{filter_streambuf T} (fuel : nat) (t : T)
    (l : list char_type) : option (result (T * nat)) :=
  match l with
  | [] => Some (Ok (t, 0%nat))
  | c :: rest =>
      match put_char fuel t c with
      | None => None
      | Some Fault => Some Fault
      | Some (Ok (t1, r)) =>
          if (r =? eof)%Z then Some (Ok (t1, 0%nat))
          else
            match put_chars fuel t1 rest with
            | None => None
            | Some Fault => Some Fault
            | Some (Ok (t2, n)) => Some (Ok (t2, S n))
            end
      end
  end.

(** [underflow].  [filter_read] is virtual: [read] is the override in
    force, called on the member [ibuf] from position 8. *)
Definition underflow {T} `{filter_streambuf T} (read : T -> result (T * Z))
    (t : T) : result (T * Z) :=
  ' (t1, n) <- read t ;;
  if (n <? 0)%Z then Ok (t1, eof)
  else
    let b := setg (base t1) 8 (8 + Z.to_nat n) in
    if (n =? 0)%Z then Ok (set_base t1 b, eof)
    else Ok (set_base t1 b, to_int_type (nth 8 (ibuf b) nul)).

(** [underflow] of the chaining buffer itself: the base class's
    [filter_read] is the one in force. *)
Definition base_underflow (b : basic_filter_streambuf)
  : result (basic_filter_streambuf * Z) :=
  underflow (fun t => filter_read t 8 (sizeof_ibuf t - 8)) b.

(** The destructor: [sync()], its result dropped. *)
Definition destroy (b : basic_filter_streambuf) : result basic_filter_streambuf :=
  ' (b1, _) <- sync b ;; Ok b1.

End Exp.

(** ** The indent filter on the chaining buffer *)

Module FmtChain.

Record basic_fmtstreambuf := {
  filter_streambuf_base : Exp.basic_filter_streambuf;
  indent_increment : N;
  at_start_of_line : bool;
  indent_level : N;
  locale : char_type -> bool
}.

Definition next (f : basic_fmtstreambuf) : pointer :=
  Exp.next (filter_streambuf_base f).

Definition set_base (f : basic_fmtstreambuf) (b : Exp.basic_filter_streambuf) :=
  {| filter_streambuf_base := b; indent_increment := indent_increment f;
     at_start_of_line := at_start_of_line f; indent_level := indent_level f;
     locale := locale f |}.

Definition set_next (f : basic_fmtstreambuf) (p : pointer) :=
  set_base f (Exp.set_next (filter_streambuf_base f) p).

Definition set_at_start_of_line (f : basic_fmtstreambuf) (b : bool) :=
  {| filter_streambuf_base := filter_streambuf_base f;
     indent_increment := indent_increment f;
     at_start_of_line := b; indent_level := indent_level f;
     locale := locale f |}.

Definition set_indent_level (f : basic_fmtstreambuf) (l : N) :=
  {| filter_streambuf_base := filter_streambuf_base f;
     indent_increment := indent_increment f;
     at_start_of_line := at_start_of_line f; indent_level := l;
     locale := locale f |}.

(** The constructor, with the template's default sizes 64 and 8. *)
Definition construct (nxt : pointer) : result basic_fmtstreambuf :=
  ' b <- Exp.construct 64 8 nxt ;;
  Ok {| filter_streambuf_base := b; indent_increment := 4;
        at_start_of_line := true; indent_level := 0;
        locale := isspace_classic |}.

Definition indent (f : basic_fmtstreambuf) : basic_fmtstreambuf :=
  set_indent_level f ((indent_level f + 1) mod size_max).

Definition undent (f : basic_fmtstreambuf) : basic_fmtstreambuf :=
  if indent_level f =? 0 then f
  else set_indent_level f (indent_level f - 1).

(** [for (off_type ind = 0; ind < indent_level * indent_increment; ++ind)
       if (next->sputc(' ') == eof) return idx;]
    with [rounds] iterations left; [false] is the early return. *)
Fixpoint put_spaces (rounds : nat) (p : pointer) : result (pointer * bool) :=
  match rounds with
  | O => Ok (p, true)
  | S r =>
      ' (p1, ok) <- sputc p space ;;
      if ok then put_spaces r p1 else Ok (p1, false)
  end.

Fixpoint filter_write_loop (f : basic_fmtstreambuf) (idx : nat)
    (l : list char_type) : result (basic_fmtstreambuf * Z) :=
  match l with
  | [] => Ok (f, Z.of_nat idx)
  | c :: rest =>
      if traits_eq c indent_code then filter_write_loop (indent f) (S idx) rest
      else if traits_eq c undent_code
      then filter_write_loop (undent f) (S idx) rest
      else if at_start_of_line f && locale f c
      then filter_write_loop f (S idx) rest
      else
        ' (p1, ok) <-
            (if at_start_of_line f
             then put_spaces
                    (N.to_nat ((indent_level f * indent_increment f) mod size_max))
                    (next f)
             else Ok (next f, true)) ;;
        let f1 := set_next f p1 in
        if negb ok then Ok (f1, Z.of_nat idx)
        else
          let f2 := set_at_start_of_line f1 (traits_eq c end_of_line) in
          ' (p2, sent) <- sputc (next f2) c ;;
          let f3 := set_next f2 p2 in
          if negb sent then Ok (f3, Z.of_nat idx)
          else filter_write_loop f3 (S idx) rest
  end.

Definition filter_write (f : basic_fmtstreambuf) (obuf : list char_type)
  : result (basic_fmtstreambuf * Z) :=
  filter_write_loop f 0 obuf.

#[global] Instance fmt_class : Exp.filter_streambuf basic_fmtstreambuf := {
  Exp.base := filter_streambuf_base;
  Exp.set_base := set_base;
  Exp.filter_write := filter_write
}.

(** The override of [filter_read]. *)
Definition filter_read (f : basic_fmtstreambuf) (ibuf : list char_type)
    (count : nat) : result (basic_fmtstreambuf * list char_type * nat) :=
  Ok (f, ibuf, count).

(** [underflow] of the filter: the inherited one, with the override of
    [filter_read] on [ibuf + 8] and [sizeof(ibuf) - 8]. *)
Definition underflow (f : basic_fmtstreambuf)
  : result (basic_fmtstreambuf * Z) :=
  Exp.underflow
    (fun t =>
       let b := filter_streambuf_base t in
       ' (t1, got, n) <- filter_read t (skipn 8 (Exp.ibuf b))
                                     (Exp.sizeof_ibuf b - 8) ;;
       Ok (set_base t1 (Exp.set_ibuf (filter_streambuf_base t1)
                                     (firstn 8 (Exp.ibuf b) ++ got)),
           Z.of_nat n))
    f.

(** The destructor: [this->sync()], then the destructor of the base class,
    whose [sync()] runs with the base class's [filter_write]. *)
Definition destroy (f : basic_fmtstreambuf) : result basic_fmtstreambuf :=
  ' (f1, _) <- Exp.sync f ;;
  ' (b2, _) <- Exp.sync (filter_streambuf_base f1) ;;
  Ok (set_base f1 b2).

End FmtChain.

(** * Specification vocabulary *)

(** [grows p p' new]: between [p] and [p'] the buffer pointed to received
    exactly [new], and kept its acceptance policy and its readable data; a
    null pointer stays null. *)
Definition grows (p p' : pointer) (new : list char_type) : Prop :=
  match p, p' with
  | Some b, Some b' =>
      delivered b' = delivered b ++ new /\ accept b' = accept b /\
      readable b' = readable b
  | None, None => new = []
  | _, _ => False
  end.

(** Characters that are not control marks. *)
Definition not_mark (c : char_type) : Prop :=
  c <> indent_code /\ c <> undent_code.

(** The runs and the expected output of the block scenario. *)
Definition scenario_runs : list (list char_type) :=
  [chars "A"; Fmt.basic_begin "{"%char; chars "B"; Fmt.basic_end "}"%char].

Definition scenario_output : list char_type :=
  chars "A{" ++ [end_of_line] ++ chars "    B" ++ [end_of_line]
        ++ chars "}" ++ [end_of_line].

(** The [i]-th character [do_indentation] sends for one indentation: the
    array [spaces] is sent whole, sixteen blanks and its NUL, as long as
    seventeen or more characters are owed. *)
Definition indentation_char (i : nat) : char_type :=
  if (i mod 17 =? 16)%nat then nul else space.

Definition pad (n : nat) : list char_type := map indentation_char (seq 0 n).

(** What a fully accepting buffer receives from the per-character loop, as
    a function of the run alone: [fill n] is the indentation of width [n],
    [isspace] the locale, [inc] the increment, [start] and [level] the line
    state and the level on entry.  The result carries the line state and the
    level on exit. *)
Fixpoint transduce (fill : nat -> list char_type) (isspace : char_type -> bool)
    (inc : N) (start : bool) (level : N) (l : list char_type)
  : list char_type * (bool * N) :=
  match l with
  | [] => ([], (start, level))
  | c :: rest =>
      if traits_eq c indent_code
      then transduce fill isspace inc start ((level + 1) mod size_max) rest
      else if traits_eq c undent_code
      then transduce fill isspace inc start
                     (if level =? 0 then 0 else level - 1) rest
      else if start && isspace c
      then transduce fill isspace inc start level rest
      else
        let (out, st) :=
          transduce fill isspace inc (traits_eq c end_of_line) level rest in
        ((if start then fill (N.to_nat ((level * inc) mod size_max)) else [])
           ++ c :: out, st)
  end.

(** A run of characters in which no two [EndOfLine] characters are
    adjacent. *)
Definition eol_run_free (l : list char_type) : Prop :=
  forall pre post, l <> pre ++ end_of_line :: end_of_line :: post.

(** The same, by recursion on the run. *)
Fixpoint single_eols (l : list char_type) : Prop :=
  match l with
  | a :: (b :: _) as t => (a <> end_of_line \/ b <> end_of_line) /\ single_eols t
  | _ => True
  end.

(** A buffer policy that never refuses a single character. *)
Definition accepts_one (a : nat -> nat -> nat) : Prop :=
  forall i, (1 <= a i 1)%nat.

(** The filter after a short write of the indentation of one level: at
    start of line, level 1, four blanks owed. *)
Definition stalled (b : streambuf) : Fmt.basic_fmtstreambuf :=
  {| Fmt.indent_increment := 4; Fmt.next := Some b;
     Fmt.at_start_of_line := true; Fmt.indent_level := 1;
     Fmt.locale := isspace_classic; Fmt.pending_indent := 4 |}.

(** Two chaining buffers in front of a buffer that takes a few characters
    per call: a full one of size 8, and one of the default size 4096 holding
    four characters. *)
Definition full_buffer : Exp.basic_filter_streambuf :=
  {| Exp.write_buffer_size := 8; Exp.read_buffer_size := 8;
     Exp.next := Some (sink (accept_upto 3));
     Exp.obuf := chars "abcdefgh"; Exp.pptr := 8;
     Exp.ibuf := repeat nul 16; Exp.gptr := 8; Exp.egptr := 8 |}.

Definition partial_buffer : Exp.basic_filter_streambuf :=
  {| Exp.write_buffer_size := 4096; Exp.read_buffer_size := 4096;
     Exp.next := Some (sink (accept_upto 1));
     Exp.obuf := chars "abcd" ++ repeat nul 4092; Exp.pptr := 4;
     Exp.ibuf := repeat nul 4104; Exp.gptr := 8; Exp.egptr := 8 |}.

(** *** Lines

    The lines of a run are what lies between its [EndOfLine]s; joining them
    with [EndOfLine]s gives the run back. *)
Fixpoint split_lines (l : list char_type) : list (list char_type) :=
  match l with
  | [] => [[]]
  | c :: rest =>
      if traits_eq c end_of_line then [] :: split_lines rest
      else
        match split_lines rest with
        | ln :: lns => (c :: ln) :: lns
        | [] => [[c]]
        end
  end.

Fixpoint join_lines (ls : list (list char_type)) : list char_type :=
  match ls with
  | [] => []
  | ln :: rest =>
      match rest with
      | [] => ln
      | _ => ln ++ end_of_line :: join_lines rest
      end
  end.

(** A line without its leading whitespace. *)
Fixpoint strip (isspace : char_type -> bool) (ln : list char_type)
  : list char_type :=
  match ln with
  | [] => []
  | c :: rest => if isspace c then strip isspace rest else ln
  end.

(** The output the specification describes for a run of content
    characters: every line with its leading whitespace replaced by [width]
    blanks. *)
Definition claimed_output (isspace : char_type -> bool) (width : nat)
    (input : list char_type) : list char_type :=
  join_lines (map (fun ln => repeat space width ++ strip isspace ln)
                  (split_lines input)).

(** What the filter does with a line.  At start of line: a line of
    whitespace only disappears, its [EndOfLine] too; any other line loses its
    leading whitespace and gets the indentation [ind] instead.  Not at start
    of line (the line continues one begun earlier): it is copied. *)
Definition render_line (ind : list char_type) (isspace : char_type -> bool)
    (start terminated : bool) (ln : list char_type) : list char_type :=
  let eol := if terminated then [end_of_line] else [] in
  if start
  then match strip isspace ln with
       | [] => []
       | body => ind ++ body ++ eol
       end
  else ln ++ eol.

Fixpoint render_lines (ind : list char_type) (isspace : char_type -> bool)
    (start : bool) (ls : list (list char_type)) : list char_type :=
  match ls with
  | [] => []
  | ln :: rest =>
      match rest with
      | [] => render_line ind isspace start false ln
      | _ => render_line ind isspace start true ln
               ++ render_lines ind isspace true rest
      end
  end.

Definition reindented (isspace : char_type -> bool) (width : nat)
    (input : list char_type) : list char_type :=
  render_lines (repeat space width) isspace true (split_lines input).

(** A run with a blank line. *)
Definition blank_line_run : list char_type :=
  chars "a" ++ [end_of_line; end_of_line] ++ chars "b".

(** A buffer policy that never refuses a run of up to seventeen
    characters, the longest run [xsputn] ever offers. *)
Definition takes_chunks (a : nat -> nat -> nat) : Prop :=
  forall i n, (n <= 17)%nat -> (n <= a i n)%nat.

(** The number of [IndentMark]s in a run. *)
Fixpoint indents_in (l : list char_type) : N :=
  match l with
  | [] => 0
  | c :: rest =>
      if traits_eq c indent_code then 1 + indents_in rest else indents_in rest
  end.

(** The level after the marks of a run took effect. *)
Fixpoint level_after (level : N) (l : list char_type) : N :=
  match l with
  | [] => level
  | c :: rest =>
      if traits_eq c indent_code
      then level_after ((level + 1) mod size_max) rest
      else if traits_eq c undent_code
      then level_after (if level =? 0 then 0 else level - 1) rest
      else level_after level rest
  end.

(** To compare two next buffers: the same history, another policy. *)
Definition with_accept (b : streambuf) (a : nat -> nat -> nat) : streambuf :=
  {| accept := a; calls := calls b; delivered := delivered b;
     readable := readable b |}.

(** The put area of a chaining buffer as the constructor leaves it and
    every operation keeps it: the array has its declared size, at least one
    character, and the put position lies inside it. *)
Definition put_area_ok (b : Exp.basic_filter_streambuf) : Prop :=
  length (Exp.obuf b) = Exp.write_buffer_size b /\
  (Exp.pptr b <= Exp.write_buffer_size b)%nat /\
  (1 <= Exp.write_buffer_size b)%nat.

(** The filter [f] on the chaining buffer, in front of the next buffer
    [sb], after the characters [fed] were put into a filter that was [f0] in
    front of [sb0]: some of the characters, [over], went through
    [filter_write] already, the others are waiting in the array. *)
Definition fed_so_far (f0 f : FmtChain.basic_fmtstreambuf) (sb0 sb : streambuf)
    (fed : list char_type) : Prop :=
  exists over,
    over ++ Exp.waiting (FmtChain.filter_streambuf_base f)
    = Exp.waiting (FmtChain.filter_streambuf_base f0) ++ fed /\
    delivered sb
    = delivered sb0
      ++ fst (transduce (repeat space) (FmtChain.locale f0)
                (FmtChain.indent_increment f0) (FmtChain.at_start_of_line f0)
                (FmtChain.indent_level f0) over) /\
    (FmtChain.at_start_of_line f, FmtChain.indent_level f)
    = snd (transduce (repeat space) (FmtChain.locale f0)
             (FmtChain.indent_increment f0) (FmtChain.at_start_of_line f0)
             (FmtChain.indent_level f0) over) /\
    FmtChain.locale f = FmtChain.locale f0 /\
    FmtChain.indent_increment f = FmtChain.indent_increment f0 /\
    accept sb = accept sb0.

(** [sent_on start isspace c]: a filter whose line state is [start] sends
    the character [c] of a run on to the next buffer: [c] is no control
    mark and, at start of line, no whitespace. *)
Definition sent_on (start : bool) (isspace : char_type -> bool)
    (c : char_type) : bool :=
  negb (traits_eq c indent_code) && negb (traits_eq c undent_code)
  && negb (start && isspace c).

(** A next buffer that takes nothing the first time it is written to and
    everything afterwards, and one that refuses a single character and
    takes every longer run (a buffer without a put area of its own whose
    [overflow] is the default one: [sputc] returns [eof], [sputn] goes to
    its [xsputn]). *)
Definition refuse_first : nat -> nat -> nat :=
  fun i n => if Nat.eqb i 0 then 0%nat else n.
Definition accept_runs_only : nat -> nat -> nat :=
  fun _ n => if Nat.eqb n 1 then 0%nat else n.

(** The filter of [include/code_fmt_stream.h] five levels deep, and the
    run of a content character, a mark and another content character. *)
Definition five_deep (p : pointer) : Fmt.basic_fmtstreambuf :=
  Nat.iter 5 Fmt.indent (Fmt.fresh p).
Definition marked_run : list char_type :=
  ["B"%char; indent_code; "C"%char].

(** The filter on the chaining buffer, as constructed in front of a buffer
    of policy [a], with the characters [w] waiting in its array. *)
Definition holding (a : nat -> nat -> nat) (w : list char_type)
  : FmtChain.basic_fmtstreambuf :=
  {| FmtChain.filter_streambuf_base :=
       {| Exp.write_buffer_size := 64; Exp.read_buffer_size := 8;
          Exp.next := Some (sink a);
          Exp.obuf := w ++ repeat nul (64 - length w);
          Exp.pptr := length w;
          Exp.ibuf := repeat nul (8 + 8); Exp.gptr := 8; Exp.egptr := 8 |};
     FmtChain.indent_increment := 4;
     FmtChain.at_start_of_line := true;
     FmtChain.indent_level := 0;
     FmtChain.locale := isspace_classic |}.

(** * Facts about the model *)

(** ** The next buffer *)

Lemma grows_refl p : grows p p [].
Proof.
  destruct p as [b|]; simpl; [|reflexivity].
  rewrite app_nil_r. repeat split.
Qed.

Lemma grows_trans p q r a b :
  grows p q a -> grows q r b -> grows p r (a ++ b).
Proof.
  destruct p as [x|], q as [y|], r as [z|]; simpl; try tauto.
  - intros (D1 & A1 & R1) (D2 & A2 & R2).
    rewrite D2, D1, app_assoc. repeat split; congruence.
  - intros -> ->. reflexivity.
Qed.

Lemma grows_output p q a : grows p q a -> output q = output p ++ a.
Proof.
  destruct p as [x|], q as [y|]; simpl; try tauto.
  intros ->. reflexivity.
Qed.

Lemma grows_null p q a : grows p q a -> (q = None <-> p = None).
Proof.
  destruct p, q; simpl; intros H; split; intros E;
    try discriminate; try reflexivity; contradiction.
Qed.

Lemma sputn_fault p s : sputn p s = Fault -> p = None.
Proof. destruct p; simpl; [discriminate | reflexivity]. Qed.

Lemma sputn_ok p s p' n :
  sputn p s = Ok (p', n) ->
  grows p p' (firstn n s) /\ (n <= length s)%nat /\ p <> None.
Proof.
  destruct p as [b|]; simpl; [|discriminate].
  intros E; injection E as <- <-. simpl.
  repeat split; [apply Nat.le_min_l | discriminate].
Qed.

Lemma sputn_accept_all b s :
  accept b = accept_all ->
  exists b',
    sputn (Some b) s = Ok (Some b', length s) /\
    delivered b' = delivered b ++ s /\ accept b' = accept_all /\
    readable b' = readable b.
Proof.
  intros A. unfold sputn, streambuf_sputn. rewrite A. unfold accept_all.
  rewrite Nat.min_id, firstn_all.
  eexists; split; [reflexivity|]. simpl. auto.
Qed.

Lemma sputc_fault p c : sputc p c = Fault -> p = None.
Proof.
  unfold sputc. destruct (sputn p [c]) as [[q n]|] eqn:E; simpl;
    [discriminate | intros _; eapply sputn_fault; eassumption].
Qed.

(** A character goes through [sputc] whole or not at all. *)
Lemma sputc_ok p c p' sent :
  sputc p c = Ok (p', sent) ->
  grows p p' (if sent then [c] else []) /\ p <> None.
Proof.
  unfold sputc. destruct (sputn p [c]) as [[q n]|] eqn:E; simpl;
    [|discriminate].
  intros H; injection H as <- <-.
  apply sputn_ok in E. destruct E as (G & L & NN). simpl in L.
  split; [|assumption].
  destruct n as [|[|n]]; simpl in *; try assumption. lia.
Qed.

Lemma traits_eq_false a b : traits_eq a b = false -> a <> b.
Proof. unfold traits_eq. apply Ascii.eqb_neq. Qed.

Lemma traits_eq_true a b : traits_eq a b = true -> a = b.
Proof. unfold traits_eq. apply Ascii.eqb_eq. Qed.

(** ** The transducer *)

Lemma single_eols_free l : single_eols l -> eol_run_free l.
Proof.
  intros H pre. revert l H.
  induction pre as [|x pre IH]; intros l H post E; subst l.
  - destruct H as [[A|A] _]; apply A; reflexivity.
  - cbn [app] in H. destruct (pre ++ end_of_line :: end_of_line :: post) eqn:Q.
    + destruct pre; discriminate.
    + destruct H as [_ H]. eapply IH; [exact H | symmetry; exact Q].
Qed.

Lemma single_eols_tail a l : single_eols (a :: l) -> single_eols l.
Proof. destruct l; cbn; tauto. Qed.

Lemma single_eols_cons a l :
  single_eols l ->
  (a = end_of_line -> forall t, l <> end_of_line :: t) ->
  single_eols (a :: l).
Proof.
  intros H N. destruct l as [|b t]; [exact I|].
  split; [|exact H].
  destruct (ascii_dec a end_of_line) as [E|E]; [|left; exact E].
  right. intros ->. eapply N; eauto.
Qed.

Lemma single_eols_app a l :
  Forall (fun c => c <> end_of_line) a -> single_eols l -> single_eols (a ++ l).
Proof.
  induction 1 as [|x a Hx Ha IH]; intros H; [exact H|].
  cbn [app]. apply single_eols_cons; [auto|]. intros E. contradiction.
Qed.

Section Transducer.

Variable fill : nat -> list char_type.
Variable isspace : char_type -> bool.
Variable inc : N.

Hypothesis fill_no_eol : forall n, Forall (fun c => c <> end_of_line) (fill n).
Hypothesis eol_is_space : isspace end_of_line = true.

(** Processing two runs one after the other is processing their
    concatenation. *)
Lemma transduce_app a :
  forall start level b,
    transduce fill isspace inc start level (a ++ b)
    = (fst (transduce fill isspace inc start level a)
         ++ fst (transduce fill isspace inc (fst (snd (transduce fill isspace inc start level a)))
                     (snd (snd (transduce fill isspace inc start level a))) b),
       snd (transduce fill isspace inc (fst (snd (transduce fill isspace inc start level a)))
                (snd (snd (transduce fill isspace inc start level a))) b)).
Proof.
  induction a as [|c a IH]; intros start level b; cbn [app transduce].
  { cbn [fst snd app]. destruct (transduce _ _ _ _ _ b); reflexivity. }
  destruct (traits_eq c indent_code); [apply IH|].
  destruct (traits_eq c undent_code); [apply IH|].
  destruct (start && isspace c); [apply IH|].
  rewrite IH.
  destruct (transduce fill isspace inc (traits_eq c end_of_line) level a)
    as [out [s' l']].
  cbn [fst snd]. rewrite <- app_assoc. reflexivity.
Qed.

(** An [EndOfLine] met at start of line leaves no trace. *)
Lemma transduce_eol_at_start level rest :
  transduce fill isspace inc true level (end_of_line :: rest) = transduce fill isspace inc true level rest.
Proof.
  cbn [transduce].
  change (traits_eq end_of_line indent_code) with false.
  change (traits_eq end_of_line undent_code) with false.
  cbn [andb]. rewrite eol_is_space. reflexivity.
Qed.

(** After an [EndOfLine], emitted or dropped, the filter is at start of
    line. *)
Lemma transduce_after_eol a :
  forall start level, fst (snd (transduce fill isspace inc start level (a ++ [end_of_line]))) = true.
Proof.
  induction a as [|c a IH]; intros start level.
  - cbn [app transduce].
    change (traits_eq end_of_line indent_code) with false.
    change (traits_eq end_of_line undent_code) with false.
    rewrite eol_is_space.
    destruct start; reflexivity.
  - cbn [app transduce].
    destruct (traits_eq c indent_code); [apply IH|].
    destruct (traits_eq c undent_code); [apply IH|].
    destruct (start && isspace c); [apply IH|].
    specialize (IH (traits_eq c end_of_line) level).
    destruct (transduce fill isspace inc (traits_eq c end_of_line) level
                (a ++ [end_of_line])) as [out st].
    exact IH.
Qed.

(** A blank line in the input is removed entirely. *)
Lemma transduce_blank_line a rest start level :
  transduce fill isspace inc start level (a ++ end_of_line :: end_of_line :: rest)
  = transduce fill isspace inc start level (a ++ end_of_line :: rest).
Proof.
  replace (a ++ end_of_line :: end_of_line :: rest)
    with ((a ++ [end_of_line]) ++ end_of_line :: rest)
    by (rewrite <- app_assoc; reflexivity).
  replace (a ++ end_of_line :: rest) with ((a ++ [end_of_line]) ++ rest)
    by (rewrite <- app_assoc; reflexivity).
  rewrite (transduce_app (a ++ [end_of_line]) start level (end_of_line :: rest)).
  rewrite (transduce_app (a ++ [end_of_line]) start level rest).
  rewrite transduce_after_eol, transduce_eol_at_start. reflexivity.
Qed.

(** The output never has two adjacent [EndOfLine]s; from start of line it
    does not begin with one. *)
Lemma transduce_single_eols l :
  forall start level,
    single_eols (fst (transduce fill isspace inc start level l)) /\
    (start = true -> forall t, fst (transduce fill isspace inc start level l) <> end_of_line :: t).
Proof.
  induction l as [|c l IH]; intros start level; cbn [transduce].
  { cbn. split; [exact I | discriminate]. }
  destruct (traits_eq c indent_code); [apply IH|].
  destruct (traits_eq c undent_code); [apply IH|].
  destruct (start && isspace c) eqn:W; [apply IH|].
  specialize (IH (traits_eq c end_of_line) level).
  destruct (transduce fill isspace inc (traits_eq c end_of_line) level l)
    as [out st].
  cbn [fst] in *. destruct IH as [IH1 IH2].
  assert (C : single_eols (c :: out)).
  { apply single_eols_cons; [exact IH1|].
    intros ->. apply IH2. unfold traits_eq. apply Ascii.eqb_refl. }
  split.
  - destruct start; [|exact C].
    apply single_eols_app; [apply fill_no_eol | exact C].
  - intros -> t. cbn [andb] in W.
    assert (Hc : c <> end_of_line) by (intros ->; congruence).
    pose proof (fill_no_eol
                  (N.to_nat ((level * inc) mod size_max))) as F.
    destruct (fill _) as [|x xs]; cbn [app].
    + intros E; injection E as E _. contradiction.
    + inversion F; subst. intros E; injection E as E _. contradiction.
Qed.

(** The line state on exit: unchanged when nothing was emitted, and "at
    start of line" when the last character emitted is an [EndOfLine]. *)
Lemma transduce_exit_state l :
  forall start level,
    (fst (transduce fill isspace inc start level l) = [] -> fst (snd (transduce fill isspace inc start level l)) = start) /\
    (forall t, fst (transduce fill isspace inc start level l) = t ++ [end_of_line] ->
               fst (snd (transduce fill isspace inc start level l)) = true).
Proof.
  induction l as [|c l IH]; intros start level; cbn [transduce].
  { cbn. split; [reflexivity|]. intros [|x t]; discriminate. }
  destruct (traits_eq c indent_code); [apply IH|].
  destruct (traits_eq c undent_code); [apply IH|].
  destruct (start && isspace c) eqn:W; [apply IH|].
  specialize (IH (traits_eq c end_of_line) level).
  destruct (transduce fill isspace inc (traits_eq c end_of_line) level l)
    as [out st].
  cbn [fst snd] in *. destruct IH as [IH1 IH2].
  set (ind := if start then fill _ else []).
  split.
  - intros E. destruct ind; discriminate.
  - intros t E.
    destruct out as [|y out'] using rev_ind.
    + specialize (IH1 eq_refl). rewrite IH1.
      assert (E' : (ind ++ [c]) = t ++ [end_of_line]) by exact E.
      apply app_inj_tail in E'. destruct E' as [_ ->].
      unfold traits_eq. apply Ascii.eqb_refl.
    + apply (IH2 out').
      assert (E' : (ind ++ c :: out') ++ [y] = t ++ [end_of_line]).
      { rewrite <- E, <- app_assoc. reflexivity. }
      apply app_inj_tail in E'. destruct E' as [_ ->]. reflexivity.
Qed.

End Transducer.

(** ** Lines *)

Lemma split_lines_nonempty l : split_lines l <> [].
Proof.
  destruct l as [|c rest]; cbn [split_lines]; [discriminate|].
  destruct (traits_eq c end_of_line); [discriminate|].
  destruct (split_lines rest); discriminate.
Qed.

Lemma join_split_lines l : join_lines (split_lines l) = l.
Proof.
  induction l as [|c rest IH]; [reflexivity|].
  cbn [split_lines].
  destruct (traits_eq c end_of_line) eqn:E.
  - apply traits_eq_true in E. subst c.
    pose proof (split_lines_nonempty rest) as NE.
    cbn [join_lines]. destruct (split_lines rest) as [|ln lns];
      [contradiction|].
    rewrite IH. reflexivity.
  - pose proof (split_lines_nonempty rest) as NE.
    destruct (split_lines rest) as [|ln lns]; [contradiction|].
    cbn [join_lines] in *. destruct lns; rewrite <- IH; reflexivity.
Qed.

Lemma not_mark_eqb c :
  not_mark c ->
  traits_eq c indent_code = false /\ traits_eq c undent_code = false.
Proof.
  intros [A B]. unfold traits_eq. split; apply Ascii.eqb_neq; assumption.
Qed.

(** On a run without marks the transducer works line by line. *)
Lemma transduce_lines fill isspace inc l :
  isspace end_of_line = true ->
  Forall not_mark l ->
  forall start level,
    transduce fill isspace inc start level l
    = (render_lines (fill (N.to_nat ((level * inc) mod size_max))) isspace
                    start (split_lines l),
       (snd (transduce fill isspace inc start level l))) /\
    snd (snd (transduce fill isspace inc start level l)) = level.
Proof.
  intros Hsp. induction 1 as [|c rest Hc Hrest IH]; intros start level.
  { cbn. destruct start; split; reflexivity. }
  destruct (not_mark_eqb c Hc) as [Ei Eu].
  cbn [transduce split_lines]. rewrite Ei, Eu.
  pose proof (split_lines_nonempty rest) as NE.
  destruct (traits_eq c end_of_line) eqn:Ee.
  - assert (c = end_of_line) by (apply traits_eq_true; exact Ee). subst c.
    rewrite Hsp. destruct start; cbn [andb].
    + destruct (IH true level) as [IH1 IH2]. split; [|exact IH2].
      rewrite IH1 at 1. cbn [fst snd render_lines].
      destruct (split_lines rest) as [|ln lns]; [contradiction|].
      reflexivity.
    + destruct (IH true level) as [IH1 IH2].
      destruct (transduce fill isspace inc true level rest) as [out st].
      cbn [fst snd] in *. split; [|exact IH2].
      injection IH1 as ->. cbn [render_lines].
      destruct (split_lines rest) as [|ln lns]; [contradiction|].
      reflexivity.
  - destruct (start && isspace c) eqn:W.
    + apply andb_prop in W. destruct W as [-> W].
      destruct (IH true level) as [IH1 IH2]. split; [|exact IH2].
      rewrite IH1 at 1. cbn [fst snd].
      destruct (split_lines rest) as [|ln lns]; [contradiction|].
      cbn [render_lines]. unfold render_line. cbn [strip]. rewrite W.
      reflexivity.
    + destruct (IH false level) as [IH1 IH2].
      destruct (transduce fill isspace inc false level rest) as [out st].
      cbn [fst snd] in *. split; [|exact IH2].
      injection IH1 as ->.
      destruct (split_lines rest) as [|ln lns]; [contradiction|].
      cbn [render_lines]. unfold render_line.
      destruct start.
      * cbn [andb] in W. cbn [strip]. rewrite W.
        destruct lns; do 3 (cbn [app]; rewrite <- ?app_assoc); reflexivity.
      * destruct lns; do 3 (cbn [app]; rewrite <- ?app_assoc); reflexivity.
Qed.

(** ** The indent filter of [include/code_fmt_stream.h] *)

Module FmtFacts.
Import Fmt.

Lemma spaces_not_mark c : In c spaces -> not_mark c.
Proof.
  intros H. unfold not_mark.
  assert (D : forall d, In d spaces ->
                        traits_eq d indent_code = false /\
                        traits_eq d undent_code = false).
  { apply Forall_forall. vm_compute. repeat constructor. }
  destruct (D c H) as [A B]. split; apply traits_eq_false; assumption.
Qed.

Lemma spaces_not_eol c : In c spaces -> c <> end_of_line.
Proof.
  intros H.
  assert (D : forall d, In d spaces -> traits_eq d end_of_line = false).
  { apply Forall_forall. vm_compute. repeat constructor. }
  apply traits_eq_false, D, H.
Qed.

Lemma Forall_firstn_spaces n : Forall (fun c => In c spaces) (firstn n spaces).
Proof.
  apply Forall_forall. intros c H.
  rewrite <- (firstn_skipn n spaces). apply in_or_app. left. exact H.
Qed.

Lemma spaces_count_17 : spaces_count = 17.
Proof. reflexivity. Qed.

(** One chunk of [do_indentation] is never empty while something is owed. *)
Lemma chunk_positive n : n <> 0 -> 0 < N.min n spaces_count.
Proof. rewrite spaces_count_17. lia. Qed.

(** The loop of [do_indentation] always reaches its exit: with as many
    rounds as characters owed, more rounds change nothing. *)
Lemma indentation_loop_fuel fuel1 :
  forall fuel2 f,
    (N.to_nat (pending_indent f) <= fuel1)%nat ->
    (N.to_nat (pending_indent f) <= fuel2)%nat ->
    indentation_loop fuel1 f = indentation_loop fuel2 f.
Proof.
  induction fuel1 as [|fuel1 IH]; intros fuel2 f H1 H2.
  - assert (E : pending_indent f = 0) by lia.
    destruct fuel2; cbn [indentation_loop]; rewrite E; reflexivity.
  - destruct fuel2 as [|fuel2].
    + assert (E : pending_indent f = 0) by lia.
      cbn [indentation_loop]. rewrite E. reflexivity.
    + cbn [indentation_loop].
      destruct (N.eqb_spec (pending_indent f) 0) as [E|E]; [reflexivity|].
      pose proof (chunk_positive _ E) as Hm.
      destruct (sputn (next f) _) as [[p n]|]; cbn [bind]; [|reflexivity].
      destruct (N.of_nat n =? N.min (pending_indent f) spaces_count);
        [|reflexivity].
      apply IH; cbn [pending_indent set_pending_indent set_next]; lia.
Qed.

Lemma do_indentation_total f count fuel :
  (N.to_nat count <= fuel)%nat ->
  do_indentation f count = indentation_loop fuel (set_pending_indent f count).
Proof.
  intros H. unfold do_indentation. apply indentation_loop_fuel;
    cbn [pending_indent set_pending_indent]; lia.
Qed.

(** [do_indentation]'s loop on any buffer: it only sends characters of
    [spaces], leaves the line state and the level alone, returns the value
    of [pending_indent], and a return of 0 means that as many characters
    were sent as were owed. *)
Lemma indentation_loop_spec fuel :
  forall f,
    match indentation_loop fuel f with
    | Ok (f', owed) =>
        exists new,
          grows (next f) (next f') new /\
          Forall (fun c => In c spaces) new /\
          at_start_of_line f' = at_start_of_line f /\
          indent_level f' = indent_level f /\
          locale f' = locale f /\
          indent_increment f' = indent_increment f /\
          owed = pending_indent f' /\
          ((N.to_nat (pending_indent f) <= fuel)%nat -> owed = 0 ->
           N.of_nat (length new) = pending_indent f)
    | Fault => next f = None
    end.
Proof.
  induction fuel as [|fuel IH]; intros f; cbn [indentation_loop].
  - destruct (N.eqb_spec (pending_indent f) 0) as [E|E].
    + exists []. rewrite E. repeat split; auto using grows_refl.
    + exists []. repeat split; auto using grows_refl.
  - destruct (N.eqb_spec (pending_indent f) 0) as [E|E].
    { exists []. rewrite E. repeat split; auto using grows_refl. }
    set (m := N.min (pending_indent f) spaces_count).
    assert (Hm : 0 < m <= pending_indent f).
    { unfold m. pose proof (chunk_positive _ E). lia. }
    destruct (sputn (next f) (firstn (N.to_nat m) spaces)) as [[p n]|] eqn:S;
      cbn [bind]; [|eapply sputn_fault; eassumption].
    apply sputn_ok in S. destruct S as (G & L & NN).
    destruct (N.eqb_spec (N.of_nat n) m) as [En|En].
    + specialize (IH (set_pending_indent (set_next f p) (pending_indent (set_next f p) - m))).
      destruct (indentation_loop fuel _) as [[f' owed]|].
      * destruct IH as (new & G' & F' & A & B & C & D & O & Len).
        cbn in G', A, B, C, D, Len.
        exists (firstn n (firstn (N.to_nat m) spaces) ++ new).
        repeat split; auto.
        -- eapply grows_trans; eassumption.
        -- apply Forall_app. split; [|assumption].
           apply Forall_forall. intros c Hc.
           apply (proj1 (Forall_forall _ _) (Forall_firstn_spaces (N.to_nat m))).
           rewrite <- (firstn_skipn n (firstn (N.to_nat m) spaces)).
           apply in_or_app. left. exact Hc.
        -- intros Hf Ho. rewrite length_app, length_firstn.
           rewrite Nat.min_l by exact L.
           specialize (Len ltac:(lia) Ho). lia.
      * cbn in IH. subst p. apply (grows_null _ _ _ G). reflexivity.
    + exists (firstn n (firstn (N.to_nat m) spaces)).
      repeat split; auto.
      * apply Forall_forall. intros c Hc.
        apply (proj1 (Forall_forall _ _) (Forall_firstn_spaces (N.to_nat m))).
        rewrite <- (firstn_skipn n (firstn (N.to_nat m) spaces)).
        apply in_or_app. left. exact Hc.
      * cbn. intros _ Ho. congruence.
Qed.

Lemma do_indentation_spec f count :
  match do_indentation f count with
  | Ok (f', owed) =>
      exists new,
        grows (next f) (next f') new /\
        Forall (fun c => In c spaces) new /\
        at_start_of_line f' = at_start_of_line f /\
        indent_level f' = indent_level f /\
        locale f' = locale f /\
        indent_increment f' = indent_increment f /\
        owed = pending_indent f' /\
        (owed = 0 -> N.of_nat (length new) = count)
  | Fault => next f = None
  end.
Proof.
  unfold do_indentation.
  pose proof (indentation_loop_spec (N.to_nat count)
                (set_pending_indent f count)) as H.
  destruct (indentation_loop _ _) as [[f' owed]|]; [|exact H].
  destruct H as (new & G & F & A & B & C & D & O & Len).
  exists new. cbn in *. repeat split; auto.
Qed.

Lemma Forall_spaces_not_mark new :
  Forall (fun c => In c spaces) new -> Forall not_mark new.
Proof. apply Forall_impl. exact spaces_not_mark. Qed.

(** The per-character loop on any buffer and from any state: what reaches
    the buffer contains no control mark, and the count returned lies
    between the start position and the end of the run. *)
Lemma xsputn_loop_spec l :
  forall f idx,
    match xsputn_loop f idx l with
    | Ok (f', n) =>
        exists new,
          grows (next f) (next f') new /\
          Forall not_mark new /\
          (idx <= n <= idx + length l)%nat /\
          locale f' = locale f /\
          indent_increment f' = indent_increment f
    | Fault => next f = None
    end.
Proof.
  induction l as [|c rest IH]; intros f idx; cbn [xsputn_loop].
  { exists []. repeat split; auto using grows_refl. cbn. lia. }
  assert (Skip : forall g,
             next g = next f -> locale g = locale f ->
             indent_increment g = indent_increment f ->
             match xsputn_loop g (S idx) rest with
             | Ok (f', n) =>
                 exists new,
                   grows (next f) (next f') new /\
                   Forall not_mark new /\
                   (idx <= n <= idx + length (c :: rest))%nat /\
                   locale f' = locale f /\
                   indent_increment f' = indent_increment f
             | Fault => next f = None
             end).
  { intros g Hn Hl Hi. specialize (IH g (S idx)).
    destruct (xsputn_loop g (S idx) rest) as [[f' n]|]; [|congruence].
    destruct IH as (new & G & F & R & L & I). exists new.
    rewrite <- Hn. cbn [length]. repeat split; try congruence; try lia. }
  destruct (traits_eq c indent_code) eqn:Ei.
  { apply Skip; reflexivity. }
  destruct (traits_eq c undent_code) eqn:Eu.
  { apply Skip; unfold undent; destruct (indent_level f =? 0); reflexivity. }
  destruct (at_start_of_line f && locale f c) eqn:Ew.
  { apply Skip; reflexivity. }
  (* the indentation, when at start of line *)
  assert (Ind :
    match (if at_start_of_line f
           then do_indentation f
                  ((indent_level f * indent_increment f) mod size_max)
           else Ok (f, 0)) with
    | Ok (f1, owed) =>
        exists new,
          grows (next f) (next f1) new /\ Forall not_mark new /\
          locale f1 = locale f /\ indent_increment f1 = indent_increment f
    | Fault => next f = None
    end).
  { destruct (at_start_of_line f).
    - pose proof (do_indentation_spec f
                    ((indent_level f * indent_increment f) mod size_max)) as H.
      destruct (do_indentation _ _) as [[f1 owed]|]; [|exact H].
      destruct H as (new & G & F & _ & _ & L & I & _).
      exists new. auto using Forall_spaces_not_mark.
    - exists []. repeat split; auto using grows_refl. }
  destruct (if at_start_of_line f then _ else _) as [[f1 owed]|];
    cbn [bind]; [|exact Ind].
  destruct Ind as (new1 & G1 & F1 & L1 & I1).
  destruct (negb (owed =? 0)).
  { exists new1. cbn [length]. repeat split; auto; lia. }
  destruct (sputn (next (set_at_start_of_line f1 (traits_eq c end_of_line))) [c])
    as [[p n]|] eqn:S; cbn [bind].
  2:{ apply sputn_fault in S. cbn in S.
      apply (grows_null _ _ _ G1). exact S. }
  apply sputn_ok in S. destruct S as (G2 & Ln & _). cbn in G2, Ln.
  assert (F2 : Forall not_mark (firstn n [c])).
  { apply Forall_forall. intros d Hd.
    assert (Hin : In d [c]).
    { rewrite <- (firstn_skipn n [c]). apply in_or_app. left. exact Hd. }
    destruct Hin as [<-|[]].
    split; apply traits_eq_false; assumption. }
  destruct (negb (Nat.eqb n 1)).
  { exists (new1 ++ firstn n [c]). cbn [length next set_next].
    repeat split; auto; try lia.
    - eapply grows_trans; eassumption.
    - apply Forall_app; auto. }
  specialize (IH (set_next (set_at_start_of_line f1 (traits_eq c end_of_line)) p)
                 (S idx)).
  destruct (xsputn_loop _ (S idx) rest) as [[f' k]|].
  - destruct IH as (new3 & G3 & F3 & R3 & L3 & I3). cbn in G3, L3, I3.
    exists ((new1 ++ firstn n [c]) ++ new3). cbn [length].
    repeat split; try congruence; try lia.
    + eapply grows_trans; [eapply grows_trans|]; eassumption.
    + repeat (apply Forall_app; split); assumption.
  - cbn in IH. subst p.
    apply (grows_null _ _ _ G1). apply (grows_null _ _ _ G2). reflexivity.
Qed.

(** [xsputn] on any buffer and from any state. *)
Lemma xsputn_spec f obuf :
  match xsputn f obuf with
  | Ok (f', n) =>
      exists new,
        grows (next f) (next f') new /\
        Forall not_mark new /\
        (n <= length obuf)%nat
  | Fault => next f = None
  end.
Proof.
  unfold xsputn.
  assert (Ind :
    match (if 0 <? pending_indent f
           then do_indentation f (pending_indent f)
           else Ok (f, 0)) with
    | Ok (f1, owed) =>
        exists new, grows (next f) (next f1) new /\ Forall not_mark new
    | Fault => next f = None
    end).
  { destruct (0 <? pending_indent f).
    - pose proof (do_indentation_spec f (pending_indent f)) as H.
      destruct (do_indentation _ _) as [[f1 owed]|]; [|exact H].
      destruct H as (new & G & F & _).
      exists new. auto using Forall_spaces_not_mark.
    - exists []. auto using grows_refl. }
  destruct (if 0 <? pending_indent f then _ else _) as [[f1 owed]|];
    cbn [bind]; [|exact Ind].
  destruct Ind as (new1 & G1 & F1).
  destruct (negb (owed =? 0)).
  { exists new1. repeat split; auto. lia. }
  pose proof (xsputn_loop_spec obuf f1 0%nat) as H.
  destruct (xsputn_loop f1 0 obuf) as [[f' n]|].
  - destruct H as (new2 & G2 & F2 & R2 & _).
    exists (new1 ++ new2). repeat split.
    + eapply grows_trans; eassumption.
    + apply Forall_app; auto.
    + lia.
  - apply (grows_null _ _ _ G1). exact H.
Qed.

(** *** On a buffer that takes everything *)

Lemma indentation_char_shift i :
  indentation_char (17 + i) = indentation_char i.
Proof.
  unfold indentation_char.
  replace (17 + i)%nat with (i + 1 * 17)%nat by lia.
  rewrite Nat.Div0.mod_add. reflexivity.
Qed.

Lemma pad_le_17 n : (n <= 17)%nat -> pad n = firstn n spaces.
Proof.
  intros H. do 18 (destruct n as [|n]; [reflexivity|]). lia.
Qed.

Lemma map_indentation_char_shift n :
  forall s, map indentation_char (seq (17 + s) n)
            = map indentation_char (seq s n).
Proof.
  induction n as [|n IH]; intros s; [reflexivity|].
  cbn [seq map]. rewrite indentation_char_shift. f_equal.
  replace (S (17 + s)) with (17 + S s)%nat by lia. apply IH.
Qed.

Lemma pad_shift n : pad (17 + n) = spaces ++ pad n.
Proof.
  unfold pad. rewrite seq_app, map_app. f_equal.
  apply (map_indentation_char_shift n 0%nat).
Qed.

Lemma pad_chunk n :
  pad n = firstn (Nat.min n 17) spaces ++ pad (n - Nat.min n 17).
Proof.
  destruct (Nat.le_gt_cases n 17) as [H|H].
  - rewrite Nat.min_l by exact H. rewrite Nat.sub_diag.
    rewrite pad_le_17 by exact H. symmetry. apply app_nil_r.
  - rewrite Nat.min_r by lia.
    replace n with (17 + (n - 17))%nat at 1 by lia.
    rewrite pad_shift. reflexivity.
Qed.

(** Up to sixteen characters of indentation are blanks. *)
Lemma pad_blanks n : (n <= 16)%nat -> pad n = repeat space n.
Proof.
  intros H. do 17 (destruct n as [|n]; [reflexivity|]). lia.
Qed.

Lemma pad_in_spaces n : Forall (fun c => In c spaces) (pad n).
Proof.
  apply Forall_forall. intros c H. unfold pad in H.
  apply in_map_iff in H. destruct H as (i & <- & _).
  unfold indentation_char. destruct (i mod 17 =? 16)%nat.
  - apply in_or_app. right. left. reflexivity.
  - left. reflexivity.
Qed.

Lemma length_pad n : length (pad n) = n.
Proof. unfold pad. rewrite length_map, length_seq. reflexivity. Qed.

Lemma indentation_loop_accept_all fuel :
  forall f b,
    next f = Some b -> accept b = accept_all ->
    (N.to_nat (pending_indent f) <= fuel)%nat ->
    exists f' b',
      indentation_loop fuel f = Ok (f', 0) /\
      next f' = Some b' /\
      delivered b' = delivered b ++ pad (N.to_nat (pending_indent f)) /\
      accept b' = accept_all /\ readable b' = readable b /\
      at_start_of_line f' = at_start_of_line f /\
      indent_level f' = indent_level f /\
      locale f' = locale f /\
      indent_increment f' = indent_increment f /\
      pending_indent f' = 0.
Proof.
  induction fuel as [|fuel IH]; intros f b Hn Ha Hf; cbn [indentation_loop].
  - assert (E : pending_indent f = 0) by lia.
    rewrite E. exists f, b. cbn. rewrite app_nil_r. repeat split; auto.
  - destruct (N.eqb_spec (pending_indent f) 0) as [E|E].
    { exists f, b. rewrite E. cbn. rewrite app_nil_r. repeat split; auto. }
    set (m := N.min (pending_indent f) spaces_count).
    assert (Hm : 0 < m <= pending_indent f /\ m <= 17).
    { unfold m. rewrite spaces_count_17. lia. }
    assert (Em : N.to_nat m = Nat.min (N.to_nat (pending_indent f)) 17).
    { unfold m. rewrite spaces_count_17. lia. }
    rewrite Hn.
    destruct (sputn_accept_all b (firstn (N.to_nat m) spaces) Ha)
      as (b1 & S & D1 & A1 & R1).
    rewrite S. cbn [bind].
    assert (L : length (firstn (N.to_nat m) spaces) = N.to_nat m).
    { rewrite length_firstn. apply Nat.min_l.
      change (length spaces) with 17%nat. lia. }
    rewrite L, N2Nat.id, N.eqb_refl.
    destruct (IH (set_pending_indent (set_next f (Some b1))
                    (pending_indent (set_next f (Some b1)) - m)) b1)
      as (f' & b' & R & N' & D' & A' & R' & X1 & X2 & X3 & X4 & X5);
      [reflexivity | exact A1 | cbn; lia |].
    exists f', b'. cbn in D', X1, X2, X3, X4.
    repeat split; auto; try congruence.
    rewrite D', D1, <- app_assoc. f_equal.
    rewrite (pad_chunk (N.to_nat (pending_indent f))), <- Em. f_equal.
    f_equal. lia.
Qed.

Lemma do_indentation_accept_all f b count :
  next f = Some b -> accept b = accept_all ->
  exists f' b',
    do_indentation f count = Ok (f', 0) /\
    next f' = Some b' /\
    delivered b' = delivered b ++ pad (N.to_nat count) /\
    accept b' = accept_all /\ readable b' = readable b /\
    at_start_of_line f' = at_start_of_line f /\
    indent_level f' = indent_level f /\
    locale f' = locale f /\
    indent_increment f' = indent_increment f /\
    pending_indent f' = 0.
Proof.
  intros Hn Ha. unfold do_indentation.
  apply (indentation_loop_accept_all (N.to_nat count)
           (set_pending_indent f count) b); auto.
Qed.

(** The per-character loop on a buffer that takes everything: it runs to
    the end of the run, and what it delivers is [transduce] of the run. *)
Lemma xsputn_loop_accept_all l :
  forall f b idx,
    next f = Some b -> accept b = accept_all ->
    exists f' b',
      xsputn_loop f idx l = Ok (f', (idx + length l)%nat) /\
      next f' = Some b' /\
      delivered b'
      = delivered b
        ++ fst (transduce pad (locale f) (indent_increment f)
                          (at_start_of_line f) (indent_level f) l) /\
      accept b' = accept_all /\ readable b' = readable b /\
      (at_start_of_line f', indent_level f')
      = snd (transduce pad (locale f) (indent_increment f)
                       (at_start_of_line f) (indent_level f) l) /\
      locale f' = locale f /\
      indent_increment f' = indent_increment f /\
      (pending_indent f = 0 -> pending_indent f' = 0).
Proof.
  induction l as [|c rest IH]; intros f b idx Hn Ha;
    cbn [xsputn_loop transduce length].
  { exists f, b. rewrite Nat.add_0_r. cbn. rewrite app_nil_r.
    repeat split; auto. }
  rewrite <- Nat.add_succ_comm.
  destruct (traits_eq c indent_code) eqn:Ei.
  { destruct (IH (indent f) b (S idx) Hn Ha) as (f' & b' & H). exists f', b'.
    exact H. }
  destruct (traits_eq c undent_code) eqn:Eu.
  { assert (U : next (undent f) = Some b /\
                locale (undent f) = locale f /\
                indent_increment (undent f) = indent_increment f /\
                at_start_of_line (undent f) = at_start_of_line f /\
                indent_level (undent f)
                = (if indent_level f =? 0 then 0 else indent_level f - 1) /\
                (pending_indent f = 0 -> pending_indent (undent f) = 0)).
    { unfold undent. destruct (N.eqb_spec (indent_level f) 0) as [E|E];
        repeat split; auto. }
    destruct U as (U1 & U2 & U3 & U4 & U5 & U6).
    destruct (IH (undent f) b (S idx) U1 Ha) as (f' & b' & H).
    rewrite U2, U3, U4, U5 in H. exists f', b'.
    repeat split; try apply H. intros P. apply H. auto. }
  destruct (at_start_of_line f && locale f c) eqn:Ew.
  { destruct (IH f b (S idx) Hn Ha) as (f' & b' & H). exists f', b'. exact H. }
  destruct (transduce pad (locale f) (indent_increment f)
              (traits_eq c end_of_line) (indent_level f) rest)
    as [out st] eqn:T.
  cbn [fst snd].
  assert (Ind : exists f1 b1,
             (if at_start_of_line f
              then do_indentation f
                     ((indent_level f * indent_increment f) mod size_max)
              else Ok (f, 0)) = Ok (f1, 0) /\
             next f1 = Some b1 /\
             delivered b1
             = delivered b
               ++ (if at_start_of_line f
                   then pad (N.to_nat
                          ((indent_level f * indent_increment f) mod size_max))
                   else []) /\
             accept b1 = accept_all /\ readable b1 = readable b /\
             indent_level f1 = indent_level f /\
             locale f1 = locale f /\
             indent_increment f1 = indent_increment f /\
             (pending_indent f = 0 -> pending_indent f1 = 0)).
  { destruct (at_start_of_line f).
    - destruct (do_indentation_accept_all f b
                  ((indent_level f * indent_increment f) mod size_max) Hn Ha)
        as (f1 & b1 & R & N1 & D1 & A1 & R1 & _ & X2 & X3 & X4 & X5).
      exists f1, b1. repeat split; auto.
    - exists f, b. rewrite app_nil_r. repeat split; auto. }
  destruct Ind as (f1 & b1 & R & N1 & D1 & A1 & R1 & X2 & X3 & X4 & X5).
  rewrite R. cbn [bind N.eqb negb next set_at_start_of_line]. rewrite N1.
  destruct (sputn_accept_all b1 [c] A1) as (b2 & Sp & D2 & A2 & R2).
  rewrite Sp. cbn [bind length Nat.eqb negb].
  destruct (IH (set_next (set_at_start_of_line f1 (traits_eq c end_of_line))
                         (Some b2)) b2 (S idx) eq_refl A2)
    as (f' & b' & L & N' & D' & A' & R' & St & Y3 & Y4 & Y5).
  cbn [set_next set_at_start_of_line at_start_of_line indent_level locale
         indent_increment pending_indent] in D', St, Y3, Y4, Y5.
  rewrite X2, X3, X4, T in D', St.
  cbn [fst snd] in D', St.
  exists f', b'. repeat split; auto; try congruence.
  rewrite D', D2, D1, <- !app_assoc. reflexivity.
Qed.

(** [xsputn] on a buffer that takes everything: whatever indentation is
    still owed goes first, then the run is processed to its end. *)
Lemma xsputn_accept_all f b obuf :
  next f = Some b -> accept b = accept_all ->
  exists f' b',
    xsputn f obuf = Ok (f', length obuf) /\
    next f' = Some b' /\
    delivered b'
    = delivered b
      ++ pad (N.to_nat (pending_indent f))
      ++ fst (transduce pad (locale f) (indent_increment f)
                        (at_start_of_line f) (indent_level f) obuf) /\
    accept b' = accept_all /\ readable b' = readable b /\
    (at_start_of_line f', indent_level f')
    = snd (transduce pad (locale f) (indent_increment f)
                     (at_start_of_line f) (indent_level f) obuf) /\
    locale f' = locale f /\
    indent_increment f' = indent_increment f /\
    pending_indent f' = 0.
Proof.
  intros Hn Ha. unfold xsputn.
  assert (Ind : exists f1 b1,
             (if 0 <? pending_indent f
              then do_indentation f (pending_indent f)
              else Ok (f, 0)) = Ok (f1, 0) /\
             next f1 = Some b1 /\
             delivered b1 = delivered b ++ pad (N.to_nat (pending_indent f)) /\
             accept b1 = accept_all /\ readable b1 = readable b /\
             at_start_of_line f1 = at_start_of_line f /\
             indent_level f1 = indent_level f /\
             locale f1 = locale f /\
             indent_increment f1 = indent_increment f /\
             pending_indent f1 = 0).
  { destruct (N.ltb_spec 0 (pending_indent f)) as [P|P].
    - apply do_indentation_accept_all; assumption.
    - assert (E : pending_indent f = 0) by lia.
      exists f, b. rewrite E. cbn. rewrite app_nil_r. repeat split; auto. }
  destruct Ind as (f1 & b1 & R & N1 & D1 & A1 & R1 & X1 & X2 & X3 & X4 & X5).
  rewrite R. cbn [bind N.eqb negb].
  destruct (xsputn_loop_accept_all obuf f1 b1 0%nat N1 A1)
    as (f' & b' & L & N' & D' & A' & R' & St & Y3 & Y4 & Y5).
  rewrite X1, X2, X3, X4 in D', St.
  exists f', b'. cbn in L. repeat split; auto; try congruence.
  rewrite D', D1, <- app_assoc. reflexivity.
Qed.

Lemma pad_no_eol n : Forall (fun c => c <> end_of_line) (pad n).
Proof.
  eapply Forall_impl; [|apply pad_in_spaces]. exact spaces_not_eol.
Qed.

(** Successive writes on a buffer that takes everything amount to one
    write of the concatenated runs. *)
Lemma write_runs_accept_all runs :
  forall f b,
    next f = Some b -> accept b = accept_all -> pending_indent f = 0 ->
    exists f' b',
      write_runs f runs = Ok (f', map (@length char_type) runs) /\
      next f' = Some b' /\
      delivered b'
      = delivered b
        ++ fst (transduce pad (locale f) (indent_increment f)
                          (at_start_of_line f) (indent_level f) (concat runs)) /\
      accept b' = accept_all /\ readable b' = readable b /\
      (at_start_of_line f', indent_level f')
      = snd (transduce pad (locale f) (indent_increment f)
                       (at_start_of_line f) (indent_level f) (concat runs)) /\
      locale f' = locale f /\
      indent_increment f' = indent_increment f /\
      pending_indent f' = 0.
Proof.
  induction runs as [|r runs IH]; intros f b Hn Ha Hp;
    cbn [write_runs concat map].
  { exists f, b. cbn. rewrite app_nil_r. repeat split; auto. }
  destruct (xsputn_accept_all f b r Hn Ha)
    as (f1 & b1 & R & N1 & D1 & A1 & R1 & St1 & X3 & X4 & X5).
  rewrite Hp in D1. cbn [N.to_nat pad seq map app] in D1.
  rewrite R. cbn [bind].
  destruct (IH f1 b1 N1 A1 X5)
    as (f' & b' & R' & N' & D' & A' & R2 & St' & Y3 & Y4 & Y5).
  rewrite R'. cbn [bind].
  assert (E1 : at_start_of_line f1
               = fst (snd (transduce pad (locale f) (indent_increment f)
                             (at_start_of_line f) (indent_level f) r)))
    by (rewrite <- St1; reflexivity).
  assert (E2 : indent_level f1
               = snd (snd (transduce pad (locale f) (indent_increment f)
                             (at_start_of_line f) (indent_level f) r)))
    by (rewrite <- St1; reflexivity).
  rewrite X3, X4, E1, E2 in D', St'.
  exists f', b'. rewrite transduce_app. cbn [fst snd].
  repeat split; auto; try congruence.
  rewrite D', D1, <- app_assoc. reflexivity.
Qed.

(** The caller of the retry protocol is done after one write. *)
Lemma resubmit_accept_all f b obuf tries :
  next f = Some b -> accept b = accept_all ->
  exists f',
    resubmit (S tries) f obuf = Ok (f', []) /\
    xsputn f obuf = Ok (f', length obuf).
Proof.
  intros Hn Ha.
  destruct (xsputn_accept_all f b obuf Hn Ha) as (f' & b' & R & _).
  exists f'. split; [|exact R].
  cbn [resubmit]. rewrite R. cbn [bind]. rewrite skipn_all. reflexivity.
Qed.

(** An [EndOfLine] met at start of line is skipped like any whitespace:
    nothing is sent and nothing in the filter changes. *)
Lemma eol_at_start_skipped f idx rest :
  at_start_of_line f = true -> locale f end_of_line = true ->
  xsputn_loop f idx (end_of_line :: rest) = xsputn_loop f (S idx) rest.
Proof.
  intros A L. cbn [xsputn_loop].
  change (traits_eq end_of_line indent_code) with false.
  change (traits_eq end_of_line undent_code) with false.
  cbn iota. rewrite A, L. reflexivity.
Qed.

Lemma xsputn_eol_at_start f :
  at_start_of_line f = true -> locale f end_of_line = true ->
  pending_indent f = 0 ->
  xsputn f [end_of_line] = Ok (f, 1%nat).
Proof.
  intros A L P. unfold xsputn. rewrite P. cbn [N.ltb N.compare bind N.eqb negb].
  rewrite eol_at_start_skipped by assumption. reflexivity.
Qed.

(** A mark only moves the level. *)
Lemma indent_keeps_line_state f :
  at_start_of_line (indent f) = at_start_of_line f /\ next (indent f) = next f.
Proof. split; reflexivity. Qed.

Lemma undent_keeps_line_state f :
  at_start_of_line (undent f) = at_start_of_line f /\ next (undent f) = next f.
Proof. unfold undent. destruct (indent_level f =? 0); split; reflexivity. Qed.

(** What successive writes deliver to a buffer that takes everything has
    no two adjacent [EndOfLine]s. *)
Lemma write_runs_single_eols f b runs :
  next f = Some b -> accept b = accept_all ->
  locale f end_of_line = true -> pending_indent f = 0 ->
  exists f' new,
    write_runs f runs = Ok (f', map (@length char_type) runs) /\
    output (next f') = delivered b ++ new /\
    eol_run_free new /\
    (at_start_of_line f = true -> forall t, new <> end_of_line :: t) /\
    (forall t, new = t ++ [end_of_line] -> at_start_of_line f' = true).
Proof.
  intros Hn Ha Hl Hp.
  destruct (write_runs_accept_all runs f b Hn Ha Hp)
    as (f' & b' & R & N' & D' & A' & R' & St & _).
  set (T := transduce pad (locale f) (indent_increment f)
                      (at_start_of_line f) (indent_level f) (concat runs)) in *.
  exists f', (fst T). rewrite N'. cbn [output].
  pose proof (transduce_single_eols pad (locale f) (indent_increment f)
                pad_no_eol Hl (concat runs) (at_start_of_line f)
                (indent_level f)) as [S1 S2].
  pose proof (transduce_exit_state pad (locale f) (indent_increment f)
                (concat runs) (at_start_of_line f) (indent_level f))
    as [_ S3].
  fold T in S1, S2, S3.
  repeat split; auto.
  - apply single_eols_free. exact S1.
  - intros t E. replace (at_start_of_line f') with (fst (snd T))
      by (rewrite <- St; reflexivity).
    eapply S3. exact E.
Qed.

(** A blank line in the run leaves no trace in what is delivered nor in the
    state of the filter. *)
Lemma blank_line_removed f b a rest :
  next f = Some b -> accept b = accept_all ->
  locale f end_of_line = true ->
  exists f1 f2,
    xsputn f (a ++ end_of_line :: end_of_line :: rest)
    = Ok (f1, length (a ++ end_of_line :: end_of_line :: rest)) /\
    xsputn f (a ++ end_of_line :: rest)
    = Ok (f2, length (a ++ end_of_line :: rest)) /\
    output (next f1) = output (next f2) /\
    at_start_of_line f1 = at_start_of_line f2 /\
    indent_level f1 = indent_level f2.
Proof.
  intros Hn Ha Hl.
  destruct (xsputn_accept_all f b
              (a ++ end_of_line :: end_of_line :: rest) Hn Ha)
    as (f1 & b1 & R1 & N1 & D1 & _ & _ & St1 & _).
  destruct (xsputn_accept_all f b (a ++ end_of_line :: rest) Hn Ha)
    as (f2 & b2 & R2 & N2 & D2 & _ & _ & St2 & _).
  rewrite (transduce_blank_line pad (locale f) (indent_increment f) Hl)
    in D1, St1.
  exists f1, f2. rewrite N1, N2. cbn [output].
  repeat split; auto; congruence.
Qed.

(** [do_indentation] with something to send uses the next buffer. *)
Lemma do_indentation_uses_next f count f1 owed :
  count <> 0 -> do_indentation f count = Ok (f1, owed) -> next f <> None.
Proof.
  intros C. unfold do_indentation.
  destruct (N.to_nat count) as [|fuel] eqn:E; [lia|].
  cbn [indentation_loop pending_indent set_pending_indent next].
  destruct (N.eqb_spec count 0) as [Z|_]; [contradiction|].
  destruct (next f); [discriminate|]. cbn. discriminate.
Qed.

(** *** A buffer that takes one character per call *)

Lemma stalled_retry b :
  accept b = accept_upto 1 ->
  xsputn (stalled b) (chars "B")
  = Ok (stalled {| accept := accept b; calls := S (calls b);
                   delivered := delivered b ++ [space];
                   readable := readable b |}, 0%nat).
Proof.
  destruct b as [a c d r]. cbn [accept]. intros ->. reflexivity.
Qed.

Lemma stalled_forever tries :
  forall b,
    accept b = accept_upto 1 ->
    exists b',
      resubmit tries (stalled b) (chars "B") = Ok (stalled b', chars "B") /\
      delivered b' = delivered b ++ repeat space tries /\
      accept b' = accept_upto 1.
Proof.
  induction tries as [|tries IH]; intros b A; cbn [resubmit repeat].
  { exists b. rewrite app_nil_r. auto. }
  rewrite (stalled_retry b A). cbn [bind skipn chars list_ascii_of_string].
  destruct (IH {| accept := accept b; calls := S (calls b);
                  delivered := delivered b ++ [space];
                  readable := readable b |} A) as (b' & R & D & A').
  exists b'. cbn [delivered] in D. rewrite D, <- app_assoc.
  repeat split; auto.
Qed.

(** *** Runs of content characters *)

(** A run without marks, written at start of line to a buffer that takes
    everything, comes out line by line, each indentation being [pad] of the
    width. *)
Lemma content_run_accept_all f b obuf :
  next f = Some b -> accept b = accept_all ->
  at_start_of_line f = true -> pending_indent f = 0 ->
  locale f end_of_line = true ->
  Forall not_mark obuf ->
  exists f',
    xsputn f obuf = Ok (f', length obuf) /\
    output (next f')
    = delivered b
      ++ render_lines
           (pad (N.to_nat ((indent_level f * indent_increment f) mod size_max)))
           (locale f) true (split_lines obuf) /\
    indent_level f' = indent_level f.
Proof.
  intros Hn Ha Hs Hp Hl Hm.
  destruct (xsputn_accept_all f b obuf Hn Ha)
    as (f' & b' & R & N' & D' & _ & _ & St & _).
  destruct (transduce_lines pad (locale f) (indent_increment f) obuf Hl Hm
              (at_start_of_line f) (indent_level f)) as [T1 T2].
  exists f'. rewrite N'. cbn [output].
  split; [exact R|]. split.
  - rewrite D', Hp, T1, Hs. reflexivity.
  - rewrite <- T2, <- St. reflexivity.
Qed.

(** The indentation of a width of seventeen characters or more is not all
    blanks: at level 5 with the default increment, the seventeenth of the
    twenty characters is the NUL that ends [spaces]. *)
Lemma indentation_of_twenty :
  exists f,
    xsputn (set_indent_level (fresh (Some (sink accept_all))) 5) (chars "x")
    = Ok (f, 1%nat) /\
    output (next f) = repeat space 16 ++ [nul] ++ repeat space 3 ++ chars "x".
Proof. eexists. split; [vm_compute; reflexivity | reflexivity]. Qed.

End FmtFacts.


(** ** The indent filter on the chaining buffer *)

Module FmtChainFacts.
Import FmtChain.

Lemma next_set_next f p : next (set_next f p) = p.
Proof. reflexivity. Qed.

Lemma space_not_mark : not_mark space.
Proof. split; apply traits_eq_false; reflexivity. Qed.

(** The indentation loop on any buffer: blanks only, and as many as asked
    for unless the buffer refused one. *)
Lemma put_spaces_spec n :
  forall p,
    match put_spaces n p with
    | Ok (p', ok) =>
        exists new,
          grows p p' new /\ Forall (fun c => c = space) new /\
          (ok = true -> length new = n)
    | Fault => p = None
    end.
Proof.
  induction n as [|n IH]; intros p; cbn [put_spaces].
  { exists []. auto using grows_refl. }
  destruct (sputc p space) as [[p1 ok]|] eqn:E; cbn [bind];
    [|eapply sputc_fault; eassumption].
  apply sputc_ok in E. destruct E as [G NN].
  destruct ok.
  - specialize (IH p1). destruct (put_spaces n p1) as [[p' ok']|].
    + destruct IH as (new & G' & F & L).
      exists ([space] ++ new). repeat split.
      * eapply grows_trans; eassumption.
      * constructor; auto.
      * intros H. cbn. rewrite (L H). reflexivity.
    + subst p1. apply (grows_null _ _ _ G). reflexivity.
  - exists []. repeat split; auto. discriminate.
Qed.

(** [filter_write] on any buffer and from any state: no control mark
    reaches the buffer. *)
Lemma filter_write_loop_spec l :
  forall f idx,
    match filter_write_loop f idx l with
    | Ok (f', n) =>
        exists new,
          grows (next f) (next f') new /\
          Forall not_mark new /\
          (Z.of_nat idx <= n <= Z.of_nat (idx + length l))%Z
    | Fault => next f = None
    end.
Proof.
  induction l as [|c rest IH]; intros f idx; cbn [filter_write_loop].
  { exists []. repeat split; auto using grows_refl; lia. }
  assert (Skip : forall g,
             next g = next f ->
             match filter_write_loop g (S idx) rest with
             | Ok (f', n) =>
                 exists new,
                   grows (next f) (next f') new /\
                   Forall not_mark new /\
                   (Z.of_nat idx <= n <= Z.of_nat (idx + length (c :: rest)))%Z
             | Fault => next f = None
             end).
  { intros g Hn. specialize (IH g (S idx)).
    destruct (filter_write_loop g (S idx) rest) as [[f' n]|]; [|congruence].
    destruct IH as (new & G & F & R). exists new.
    rewrite <- Hn. cbn [length]. repeat split; try assumption; lia. }
  destruct (traits_eq c indent_code) eqn:Ei.
  { apply Skip; reflexivity. }
  destruct (traits_eq c undent_code) eqn:Eu.
  { apply Skip; unfold undent; destruct (indent_level f =? 0); reflexivity. }
  destruct (at_start_of_line f && locale f c) eqn:Ew.
  { apply Skip; reflexivity. }
  assert (Ind :
    match (if at_start_of_line f
           then put_spaces
                  (N.to_nat ((indent_level f * indent_increment f) mod size_max))
                  (next f)
           else Ok (next f, true)) with
    | Ok (p1, ok) =>
        exists new, grows (next f) p1 new /\ Forall not_mark new
    | Fault => next f = None
    end).
  { destruct (at_start_of_line f).
    - pose proof (put_spaces_spec
                    (N.to_nat ((indent_level f * indent_increment f) mod size_max))
                    (next f)) as H.
      destruct (put_spaces _ _) as [[p1 ok]|]; [|exact H].
      destruct H as (new & G & F & _). exists new. split; [exact G|].
      eapply Forall_impl; [|exact F]. intros a ->. exact space_not_mark.
    - exists []. auto using grows_refl. }
  destruct (if at_start_of_line f then _ else _) as [[p1 ok]|];
    cbn [bind]; [|exact Ind].
  destruct Ind as (new1 & G1 & F1).
  destruct (negb ok).
  { exists new1. cbn [length]. rewrite next_set_next.
    repeat split; auto; lia. }
  destruct (sputc (next (set_at_start_of_line (set_next f p1)
                           (traits_eq c end_of_line))) c)
    as [[p2 sent]|] eqn:Sp; cbn [bind].
  2:{ apply sputc_fault in Sp. cbn in Sp. subst p1.
      apply (grows_null _ _ _ G1). reflexivity. }
  apply sputc_ok in Sp. destruct Sp as (G2 & _). cbn in G2.
  assert (F2 : Forall not_mark (if sent then [c] else [])).
  { destruct sent; constructor; [|constructor].
    split; apply traits_eq_false; assumption. }
  destruct (negb sent).
  { exists (new1 ++ (if sent then [c] else [])). cbn [length].
    rewrite next_set_next. repeat split; try lia.
    - eapply grows_trans; eassumption.
    - apply Forall_app; auto. }
  specialize (IH (set_next (set_at_start_of_line (set_next f p1)
                              (traits_eq c end_of_line)) p2) (S idx)).
  destruct (filter_write_loop _ (S idx) rest) as [[f' k]|].
  - destruct IH as (new3 & G3 & F3 & R3). rewrite next_set_next in G3.
    exists ((new1 ++ (if sent then [c] else [])) ++ new3). cbn [length].
    repeat split; try lia.
    + eapply grows_trans; [eapply grows_trans|]; eassumption.
    + repeat (apply Forall_app; split); assumption.
  - rewrite next_set_next in IH. subst p2.
    apply (grows_null _ _ _ G1). apply (grows_null _ _ _ G2). reflexivity.
Qed.

(** *** On a buffer that never refuses a single character *)

Lemma sputc_accepts_one b c :
  accepts_one (accept b) ->
  exists b',
    sputc (Some b) c = Ok (Some b', true) /\
    delivered b' = delivered b ++ [c] /\ accept b' = accept b /\
    readable b' = readable b.
Proof.
  intros A. unfold sputc, sputn, streambuf_sputn. cbn [length bind].
  specialize (A (calls b)).
  rewrite Nat.min_l by exact A.
  eexists; split; [reflexivity|]. cbn. auto.
Qed.

Lemma put_spaces_accepts_one n :
  forall b,
    accepts_one (accept b) ->
    exists b',
      put_spaces n (Some b) = Ok (Some b', true) /\
      delivered b' = delivered b ++ repeat space n /\ accept b' = accept b /\
      readable b' = readable b.
Proof.
  induction n as [|n IH]; intros b A; cbn [put_spaces repeat].
  { exists b. rewrite app_nil_r. auto. }
  destruct (sputc_accepts_one b space A) as (b1 & Sp & D1 & A1 & R1).
  rewrite Sp. cbn [bind].
  destruct (IH b1) as (b' & P & D' & A' & R'); [rewrite A1; exact A|].
  exists b'. repeat split; try congruence.
  rewrite D', D1, <- app_assoc. reflexivity.
Qed.

(** [filter_write] then runs to the end of the run, and what it delivers is
    [transduce] of the run with blanks as indentation. *)
Lemma filter_write_loop_accepts_one l :
  forall f b idx,
    next f = Some b -> accepts_one (accept b) ->
    exists f' b',
      filter_write_loop f idx l = Ok (f', Z.of_nat (idx + length l)) /\
      next f' = Some b' /\
      delivered b'
      = delivered b
        ++ fst (transduce (repeat space) (locale f) (indent_increment f)
                          (at_start_of_line f) (indent_level f) l) /\
      accept b' = accept b /\ readable b' = readable b /\
      (at_start_of_line f', indent_level f')
      = snd (transduce (repeat space) (locale f) (indent_increment f)
                       (at_start_of_line f) (indent_level f) l) /\
      locale f' = locale f /\
      indent_increment f' = indent_increment f.
Proof.
  induction l as [|c rest IH]; intros f b idx Hn Ha;
    cbn [filter_write_loop transduce length].
  { exists f, b. rewrite Nat.add_0_r. cbn. rewrite app_nil_r.
    repeat split; auto. }
  rewrite <- Nat.add_succ_comm.
  destruct (traits_eq c indent_code) eqn:Ei.
  { destruct (IH (indent f) b (S idx) Hn Ha) as (f' & b' & H). exists f', b'.
    exact H. }
  destruct (traits_eq c undent_code) eqn:Eu.
  { assert (U : next (undent f) = Some b /\
                locale (undent f) = locale f /\
                indent_increment (undent f) = indent_increment f /\
                at_start_of_line (undent f) = at_start_of_line f /\
                indent_level (undent f)
                = (if indent_level f =? 0 then 0 else indent_level f - 1)).
    { unfold undent. destruct (N.eqb_spec (indent_level f) 0) as [E|E];
        repeat split; auto. }
    destruct U as (U1 & U2 & U3 & U4 & U5).
    destruct (IH (undent f) b (S idx) U1 Ha) as (f' & b' & H).
    rewrite U2, U3, U4, U5 in H. exists f', b'. exact H. }
  destruct (at_start_of_line f && locale f c) eqn:Ew.
  { destruct (IH f b (S idx) Hn Ha) as (f' & b' & H). exists f', b'. exact H. }
  destruct (transduce (repeat space) (locale f) (indent_increment f)
              (traits_eq c end_of_line) (indent_level f) rest)
    as [out st] eqn:T.
  cbn [fst snd].
  assert (Ind : exists b1,
             (if at_start_of_line f
              then put_spaces
                     (N.to_nat
                        ((indent_level f * indent_increment f) mod size_max))
                     (next f)
              else Ok (next f, true)) = Ok (Some b1, true) /\
             delivered b1
             = delivered b
               ++ (if at_start_of_line f
                   then repeat space
                          (N.to_nat
                             ((indent_level f * indent_increment f)
                                mod size_max))
                   else []) /\
             accept b1 = accept b /\ readable b1 = readable b).
  { rewrite Hn. destruct (at_start_of_line f).
    - apply put_spaces_accepts_one. exact Ha.
    - exists b. rewrite app_nil_r. repeat split; auto. }
  destruct Ind as (b1 & R & D1 & A1 & R1).
  rewrite R. cbn [bind negb].
  change (next (set_at_start_of_line (set_next f (Some b1))
                  (traits_eq c end_of_line))) with (Some b1).
  destruct (sputc_accepts_one b1 c) as (b2 & Sp & D2 & A2 & R2);
    [rewrite A1; exact Ha|].
  rewrite Sp. cbn [bind negb].
  destruct (IH (set_next (set_at_start_of_line (set_next f (Some b1))
                            (traits_eq c end_of_line)) (Some b2))
               b2 (S idx) eq_refl)
    as (f' & b' & L & N' & D' & A' & R' & St & Y3 & Y4);
    [rewrite A2, A1; exact Ha|].
  cbn [set_next set_base set_at_start_of_line at_start_of_line indent_level
         locale indent_increment] in D', St, Y3, Y4.
  rewrite T in D', St. cbn [fst snd] in D', St.
  exists f', b'. repeat split; auto; try congruence.
  rewrite D', D2, D1, <- !app_assoc. reflexivity.
Qed.

Lemma repeat_space_no_eol n :
  Forall (fun c => c <> end_of_line) (repeat space n).
Proof.
  apply Forall_forall. intros c H. apply repeat_spec in H. subst c.
  apply traits_eq_false. reflexivity.
Qed.

Lemma filter_write_accepts_one f b obuf :
  next f = Some b -> accepts_one (accept b) ->
  exists f' b',
    filter_write f obuf = Ok (f', Z.of_nat (length obuf)) /\
    next f' = Some b' /\
    delivered b'
    = delivered b
      ++ fst (transduce (repeat space) (locale f) (indent_increment f)
                        (at_start_of_line f) (indent_level f) obuf) /\
    (at_start_of_line f', indent_level f')
    = snd (transduce (repeat space) (locale f) (indent_increment f)
                     (at_start_of_line f) (indent_level f) obuf).
Proof.
  intros Hn Ha.
  destruct (filter_write_loop_accepts_one obuf f b 0%nat Hn Ha)
    as (f' & b' & R & N' & D' & _ & _ & St & _).
  exists f', b'. unfold filter_write. auto.
Qed.

Lemma filter_write_eol_at_start_skipped f idx rest :
  at_start_of_line f = true -> locale f end_of_line = true ->
  filter_write_loop f idx (end_of_line :: rest)
  = filter_write_loop f (S idx) rest.
Proof.
  intros A L. cbn [filter_write_loop].
  change (traits_eq end_of_line indent_code) with false.
  change (traits_eq end_of_line undent_code) with false.
  cbn iota. rewrite A, L. reflexivity.
Qed.

Lemma filter_write_single_eols f b obuf :
  next f = Some b -> accepts_one (accept b) ->
  locale f end_of_line = true ->
  exists f' new,
    filter_write f obuf = Ok (f', Z.of_nat (length obuf)) /\
    output (next f') = delivered b ++ new /\
    eol_run_free new /\
    (at_start_of_line f = true -> forall t, new <> end_of_line :: t) /\
    (forall t, new = t ++ [end_of_line] -> at_start_of_line f' = true).
Proof.
  intros Hn Ha Hl.
  destruct (filter_write_accepts_one f b obuf Hn Ha)
    as (f' & b' & R & N' & D' & St).
  set (T := transduce (repeat space) (locale f) (indent_increment f)
                      (at_start_of_line f) (indent_level f) obuf) in *.
  exists f', (fst T). rewrite N'. cbn [output].
  pose proof (transduce_single_eols (repeat space) (locale f)
                (indent_increment f) repeat_space_no_eol Hl obuf
                (at_start_of_line f) (indent_level f)) as [S1 S2].
  pose proof (transduce_exit_state (repeat space) (locale f)
                (indent_increment f) obuf (at_start_of_line f)
                (indent_level f)) as [_ S3].
  fold T in S1, S2, S3.
  repeat split; auto.
  - apply single_eols_free. exact S1.
  - intros t E. replace (at_start_of_line f') with (fst (snd T))
      by (rewrite <- St; reflexivity).
    eapply S3. exact E.
Qed.

Lemma filter_write_blank_line_removed f b a rest :
  next f = Some b -> accepts_one (accept b) ->
  locale f end_of_line = true ->
  exists f1 f2,
    filter_write f (a ++ end_of_line :: end_of_line :: rest)
    = Ok (f1, Z.of_nat (length (a ++ end_of_line :: end_of_line :: rest))) /\
    filter_write f (a ++ end_of_line :: rest)
    = Ok (f2, Z.of_nat (length (a ++ end_of_line :: rest))) /\
    output (next f1) = output (next f2) /\
    at_start_of_line f1 = at_start_of_line f2 /\
    indent_level f1 = indent_level f2.
Proof.
  intros Hn Ha Hl.
  destruct (filter_write_accepts_one f b
              (a ++ end_of_line :: end_of_line :: rest) Hn Ha)
    as (f1 & b1 & R1 & N1 & D1 & St1).
  destruct (filter_write_accepts_one f b (a ++ end_of_line :: rest) Hn Ha)
    as (f2 & b2 & R2 & N2 & D2 & St2).
  rewrite (transduce_blank_line (repeat space) (locale f)
             (indent_increment f) Hl) in D1, St1.
  exists f1, f2. rewrite N1, N2. cbn [output].
  repeat split; auto; congruence.
Qed.

Lemma chain_indent_keeps_line_state f :
  at_start_of_line (indent f) = at_start_of_line f /\ next (indent f) = next f.
Proof. split; reflexivity. Qed.

Lemma chain_undent_keeps_line_state f :
  at_start_of_line (undent f) = at_start_of_line f /\ next (undent f) = next f.
Proof. unfold undent. destruct (indent_level f =? 0); split; reflexivity. Qed.

End FmtChainFacts.

(** ** The chaining buffer *)

Module ExpFacts.
Import Exp.

Lemma length_store a : forall i v, length (store a i v) = length a.
Proof.
  induction a as [|h t IH]; intros [|j] v; cbn [store length]; auto.
Qed.

Lemma nth_store_other a :
  forall i j v, i <> j -> nth i (store a j v) nul = nth i a nul.
Proof.
  induction a as [|h t IH]; intros [|i] [|j] v H; cbn [store nth];
    try reflexivity; try congruence.
  apply IH. congruence.
Qed.

(** The copy loop of [sync] does not touch the positions from where it
    stops writing. *)
Lemma shift_loop_keeps rounds :
  forall n cp a i,
    (n <= cp)%nat -> (cp - n + rounds <= i)%nat ->
    nth i (shift_loop rounds n cp a) nul = nth i a nul.
Proof.
  induction rounds as [|r IH]; intros n cp a i Hn Hi; cbn [shift_loop];
    [reflexivity|].
  rewrite IH by lia. apply nth_store_other. lia.
Qed.

(** A flush of which the next buffer takes [n] characters, fewer than the
    [pptr] that were waiting: the put position ends at [sizeof(obuf) - n],
    whatever [pptr] was, and the array from position [sizeof(obuf) - 2n] on
    is as before.  So unless the buffer was full the run kept is longer than
    what was left, and if it was full its last [n] characters are not the
    last [n] characters of what was left. *)
Lemma sync_short_write (b : basic_filter_streambuf) sb :
  next b = Some sb ->
  length (obuf b) = write_buffer_size b ->
  (pptr b <= write_buffer_size b)%nat ->
  (Nat.min (pptr b) (accept sb (calls sb) (pptr b)) < pptr b)%nat ->
  exists b',
    sync b = Ok (b', 0%Z) /\
    output (next b')
    = delivered sb
      ++ firstn (Nat.min (pptr b) (accept sb (calls sb) (pptr b))) (waiting b) /\
    pptr b'
    = (write_buffer_size b
       - Nat.min (pptr b) (accept sb (calls sb) (pptr b)))%nat /\
    (forall i,
        (write_buffer_size b
         - Nat.min (pptr b) (accept sb (calls sb) (pptr b))
         - Nat.min (pptr b) (accept sb (calls sb) (pptr b)) <= i)%nat ->
        nth i (obuf b') nul = nth i (obuf b) nul).
Proof.
  intros Hn Hl Hp Hlt.
  set (n := Nat.min (pptr b) (accept sb (calls sb) (pptr b))) in *.
  assert (L : length (firstn (pptr b) (obuf b)) = pptr b).
  { rewrite length_firstn, Hl. apply Nat.min_l. exact Hp. }
  unfold sync. cbn [filter_write base set_base base_class].
  unfold base_filter_write. rewrite Hn.
  unfold sputn, streambuf_sputn. rewrite L. fold n. cbn [bind].
  destruct (Z.ltb_spec (Z.of_nat n) 0) as [Neg|_]; [lia|].
  destruct (Z.eqb_spec (Z.of_nat n) (Z.of_nat (pptr b))) as [E|_]; [lia|].
  rewrite Nat2Z.id. unfold sizeof_obuf. cbn [write_buffer_size set_next].
  destruct (Nat.ltb_spec (write_buffer_size b) n) as [Big|_]; [lia|].
  eexists. split; [reflexivity|].
  cbn [next obuf pptr set_obuf setp pbump output delivered].
  split; [reflexivity|]. split; [reflexivity|].
  intros i Hi. apply shift_loop_keeps; lia.
Qed.

End ExpFacts.

(** * Properties *)

(** ** The scenario of the block manipulators *)

(** C3.  With the default [indent_increment] of 4, a fresh filter (level 0,
    at start of line) on a buffer that takes everything turns ["A"],
    [begin('{')], ["B"], [end('}')] into exactly [A{\n    B\n}\n]; the same
    whether the four runs arrive in four writes or as one run, and every
    character is reported processed. *)
Theorem scenario_block_output :
  Fmt.indent_increment (Fmt.fresh (Some (sink accept_all))) = 4 /\
  Fmt.indent_level (Fmt.fresh (Some (sink accept_all))) = 0 /\
  (exists f,
      Fmt.write_runs (Fmt.fresh (Some (sink accept_all))) scenario_runs
      = Ok (f, [1; 3; 1; 4]%nat) /\
      output (Fmt.next f) = scenario_output) /\
  (exists f,
      Fmt.xsputn (Fmt.fresh (Some (sink accept_all))) (concat scenario_runs)
      = Ok (f, 9%nat) /\
      output (Fmt.next f) = scenario_output) /\
  scenario_output
  = ["A"; "{"; "010"; " "; " "; " "; " "; "B"; "010"; "}"; "010"]%char.
Proof.
  split; [reflexivity|]. split; [reflexivity|].
  split; [|split].
  - eexists; split; [vm_compute; reflexivity | reflexivity].
  - eexists; split; [vm_compute; reflexivity | reflexivity].
  - reflexivity.
Qed.

(** ** [undent] *)

(** C8.  [undent] is a total function on filter states.  At level 0 it
    leaves the level at 0, above 0 it lowers the level by exactly one; as an
    integer the new level is [max 0 (level - 1)], never negative; nothing
    else in the filter changes.  The same holds for the filter on the
    chaining buffer. *)
Theorem undent_clamps_at_zero :
  (forall f : Fmt.basic_fmtstreambuf,
      (Fmt.indent_level f = 0 -> Fmt.undent f = f) /\
      (0 < Fmt.indent_level f ->
       Fmt.indent_level (Fmt.undent f) + 1 = Fmt.indent_level f) /\
      Z.of_N (Fmt.indent_level (Fmt.undent f))
      = Z.max 0 (Z.of_N (Fmt.indent_level f) - 1) /\
      (0 <= Z.of_N (Fmt.indent_level (Fmt.undent f)))%Z /\
      Fmt.undent f = Fmt.set_indent_level f (Fmt.indent_level (Fmt.undent f))) /\
  (forall f : FmtChain.basic_fmtstreambuf,
      (FmtChain.indent_level f = 0 -> FmtChain.undent f = f) /\
      (0 < FmtChain.indent_level f ->
       FmtChain.indent_level (FmtChain.undent f) + 1 = FmtChain.indent_level f) /\
      Z.of_N (FmtChain.indent_level (FmtChain.undent f))
      = Z.max 0 (Z.of_N (FmtChain.indent_level f) - 1) /\
      (0 <= Z.of_N (FmtChain.indent_level (FmtChain.undent f)))%Z /\
      FmtChain.undent f
      = FmtChain.set_indent_level f (FmtChain.indent_level (FmtChain.undent f))).
Proof.
  split; intros f.
  - unfold Fmt.undent.
    destruct (N.eqb_spec (Fmt.indent_level f) 0) as [E|E].
    + repeat split; try lia. destruct f; reflexivity.
    + repeat split; simpl; try lia.
  - unfold FmtChain.undent.
    destruct (N.eqb_spec (FmtChain.indent_level f) 0) as [E|E].
    + repeat split; try lia. destruct f; reflexivity.
    + repeat split; simpl; try lia.
Qed.

Lemma undent_clamps_at_zero_witness :
  Fmt.undent (Fmt.fresh None) = Fmt.fresh None /\
  Fmt.indent_level (Fmt.undent (Fmt.indent (Fmt.fresh None))) + 1
  = Fmt.indent_level (Fmt.indent (Fmt.fresh None)).
Proof.
  split.
  - destruct (proj1 undent_clamps_at_zero (Fmt.fresh None)) as [H _].
    apply H. reflexivity.
  - destruct (proj1 undent_clamps_at_zero (Fmt.indent (Fmt.fresh None)))
      as [_ [H _]].
    apply H. reflexivity.
Defined.

(** ** The read side of the indent filter *)

(** C10.  [xsgetn], and [filter_read] of the filter on the chaining buffer,
    return [count] for every destination buffer and every count; the
    destination keeps its content and the filter, the next buffer and what
    that buffer has [readable] included, stays as it was. *)
Theorem read_reports_count_without_transfer :
  (forall (f : Fmt.basic_fmtstreambuf) ibuf count,
      exists f' ibuf',
        Fmt.xsgetn f ibuf count = Ok (f', ibuf', count) /\
        ibuf' = ibuf /\ f' = f /\
        option_map readable (Fmt.next f') = option_map readable (Fmt.next f)) /\
  (forall (f : FmtChain.basic_fmtstreambuf) ibuf count,
      exists f' ibuf',
        FmtChain.filter_read f ibuf count = Ok (f', ibuf', count) /\
        ibuf' = ibuf /\ f' = f /\
        option_map readable (FmtChain.next f')
        = option_map readable (FmtChain.next f)).
Proof.
  split; intros f ibuf count; exists f, ibuf; repeat split.
Qed.

(** ** Control marks *)

(** C7 fails for the filter on the chaining buffer, at destruction.  The
    next buffer refuses a single character and takes every longer run.  The
    run [B], [IndentMark], [C] is written and stored in the array.  The
    filter's destructor flushes through [filter_write], whose [sputc] of [B]
    is refused: [filter_write] returns 0 and [sync] leaves the put position
    at the end of the array.  The destructor of the base class then flushes
    with the base class's [filter_write]: the array as it is, all 64
    characters of it, goes to the next buffer in one [sputn], the mark
    included. *)
Theorem destructor_sends_marks_unfiltered :
  exists f0 f1 f1' g f2,
    FmtChain.construct (Some (sink accept_runs_only)) = Ok f0 /\
    Exp.put_chars 0 f0 marked_run = Some (Ok (f1, 3%nat)) /\
    FmtChain.filter_write f1 (Exp.waiting (FmtChain.filter_streambuf_base f1))
    = Ok (g, 0%Z) /\
    output (FmtChain.next g) = [] /\
    Exp.sync f1 = Ok (f1', 0%Z) /\
    Exp.pptr (FmtChain.filter_streambuf_base f1') = 64%nat /\
    FmtChain.destroy f1 = Ok f2 /\
    output (FmtChain.next f2) = marked_run ++ repeat nul 61 /\
    In indent_code (output (FmtChain.next f2)).
Proof.
  eexists. eexists. eexists. eexists. eexists.
  split; [reflexivity|].
  split; [vm_compute; reflexivity|].
  split; [vm_compute; reflexivity|].
  split; [reflexivity|].
  split; [vm_compute; reflexivity|].
  split; [reflexivity|].
  split; [vm_compute; reflexivity|].
  split; [reflexivity|].
  right. left. reflexivity.
Qed.

(** ** Blank lines *)

(** C9.  [EndOfLine] is whitespace in the filter's default locale.  Met at
    start of line it is skipped, anywhere in a run: the loop goes on to the
    next character in the same state, and the write of an [EndOfLine] alone
    returns 1 and leaves the filter, the next buffer included, exactly as it
    was.  On a
    buffer that takes everything, a run with a blank line delivers what the
    run without it delivers and leaves the same line state and level, and
    what successive writes deliver never has two adjacent [EndOfLine]s (it
    does not start with one when the filter is at start of line, and the
    filter is at start of line after delivering one).  The same for
    [filter_write] of the filter on the chaining buffer. *)
Theorem eol_at_start_of_line_is_dropped :
  isspace_classic end_of_line = true /\
  (forall f,
      Fmt.at_start_of_line f = true -> Fmt.locale f end_of_line = true ->
      Fmt.pending_indent f = 0 ->
      Fmt.xsputn f [end_of_line] = Ok (f, 1%nat)) /\
  (forall f idx rest,
      Fmt.at_start_of_line f = true -> Fmt.locale f end_of_line = true ->
      Fmt.xsputn_loop f idx (end_of_line :: rest)
      = Fmt.xsputn_loop f (S idx) rest) /\
  (forall f b a rest,
      Fmt.next f = Some b -> accept b = accept_all ->
      Fmt.locale f end_of_line = true ->
      exists f1 f2,
        Fmt.xsputn f (a ++ end_of_line :: end_of_line :: rest)
        = Ok (f1, length (a ++ end_of_line :: end_of_line :: rest)) /\
        Fmt.xsputn f (a ++ end_of_line :: rest)
        = Ok (f2, length (a ++ end_of_line :: rest)) /\
        output (Fmt.next f1) = output (Fmt.next f2) /\
        Fmt.at_start_of_line f1 = Fmt.at_start_of_line f2 /\
        Fmt.indent_level f1 = Fmt.indent_level f2) /\
  (forall f b runs,
      Fmt.next f = Some b -> accept b = accept_all ->
      Fmt.locale f end_of_line = true -> Fmt.pending_indent f = 0 ->
      exists f' new,
        Fmt.write_runs f runs = Ok (f', map (@length char_type) runs) /\
        output (Fmt.next f') = delivered b ++ new /\
        eol_run_free new /\
        (Fmt.at_start_of_line f = true -> forall t, new <> end_of_line :: t) /\
        (forall t, new = t ++ [end_of_line] ->
                   Fmt.at_start_of_line f' = true)) /\
  (forall f,
      FmtChain.at_start_of_line f = true ->
      FmtChain.locale f end_of_line = true ->
      FmtChain.filter_write f [end_of_line] = Ok (f, 1%Z)) /\
  (forall f idx rest,
      FmtChain.at_start_of_line f = true ->
      FmtChain.locale f end_of_line = true ->
      FmtChain.filter_write_loop f idx (end_of_line :: rest)
      = FmtChain.filter_write_loop f (S idx) rest) /\
  (forall f b a rest,
      FmtChain.next f = Some b -> accept b = accept_all ->
      FmtChain.locale f end_of_line = true ->
      exists f1 f2,
        FmtChain.filter_write f (a ++ end_of_line :: end_of_line :: rest)
        = Ok (f1, Z.of_nat (length (a ++ end_of_line :: end_of_line :: rest))) /\
        FmtChain.filter_write f (a ++ end_of_line :: rest)
        = Ok (f2, Z.of_nat (length (a ++ end_of_line :: rest))) /\
        output (FmtChain.next f1) = output (FmtChain.next f2) /\
        FmtChain.at_start_of_line f1 = FmtChain.at_start_of_line f2 /\
        FmtChain.indent_level f1 = FmtChain.indent_level f2) /\
  (forall f b obuf,
      FmtChain.next f = Some b -> accept b = accept_all ->
      FmtChain.locale f end_of_line = true ->
      exists f' new,
        FmtChain.filter_write f obuf = Ok (f', Z.of_nat (length obuf)) /\
        output (FmtChain.next f') = delivered b ++ new /\
        eol_run_free new /\
        (FmtChain.at_start_of_line f = true ->
         forall t, new <> end_of_line :: t) /\
        (forall t, new = t ++ [end_of_line] ->
                   FmtChain.at_start_of_line f' = true)).
Proof.
  assert (One : forall b, accept b = accept_all -> accepts_one (accept b)).
  { intros b -> i. unfold accept_all. lia. }
  split; [reflexivity|].
  split; [exact FmtFacts.xsputn_eol_at_start|].
  split; [exact FmtFacts.eol_at_start_skipped|].
  split; [intros; eapply FmtFacts.blank_line_removed; eassumption|].
  split; [intros; eapply FmtFacts.write_runs_single_eols; eassumption|].
  split; [|split; [|split]].
  - intros f A L. unfold FmtChain.filter_write.
    rewrite FmtChainFacts.filter_write_eol_at_start_skipped by assumption.
    reflexivity.
  - exact FmtChainFacts.filter_write_eol_at_start_skipped.
  - intros; eapply FmtChainFacts.filter_write_blank_line_removed; eauto.
  - intros; eapply FmtChainFacts.filter_write_single_eols; eauto.
Qed.

Lemma eol_at_start_of_line_is_dropped_witness :
  Fmt.xsputn (Fmt.fresh (Some (sink accept_all))) [end_of_line]
  = Ok (Fmt.fresh (Some (sink accept_all)), 1%nat) /\
  exists f' new,
    Fmt.write_runs (Fmt.fresh (Some (sink accept_all)))
                   [chars "a"; [end_of_line; end_of_line]; chars "b"]
    = Ok (f', [1; 2; 1]%nat) /\
    output (Fmt.next f') = delivered (sink accept_all) ++ new /\
    eol_run_free new /\
    (Fmt.at_start_of_line (Fmt.fresh (Some (sink accept_all))) = true ->
     forall t, new <> end_of_line :: t) /\
    (forall t, new = t ++ [end_of_line] -> Fmt.at_start_of_line f' = true).
Proof.
  destruct eol_at_start_of_line_is_dropped as (_ & H1 & _ & _ & H4 & _).
  split.
  - apply H1; reflexivity.
  - apply (H4 (Fmt.fresh (Some (sink accept_all))) (sink accept_all)
              [chars "a"; [end_of_line; end_of_line]; chars "b"]);
      reflexivity.
Defined.

(** ** Indentation owed from an earlier write *)

(** C6 fails on what is sent.  The filter is five levels deep, so that
    20 characters of indentation are due, behind a buffer that takes
    nothing the first time.  The write of ["x"] returns 0 and leaves
    [pending_indent = 20], nothing delivered.  The next write is entered
    with the 20 owed: it sends them before it looks at its run, as the claim
    says, but they are not 20 blanks: the first chunk is the whole array
    [spaces], 16 blanks and the NUL that ends it, and 3 blanks follow.  This
    is so for the empty run, and for ["x"], where the loop then indents the
    line once more, NUL included, before the [x]. *)
Theorem owed_indentation_sends_a_nul :
  exists f1 f2 f3,
    Fmt.xsputn (five_deep (Some (sink refuse_first))) (chars "x")
    = Ok (f1, 0%nat) /\
    Fmt.pending_indent f1 = 20 /\
    output (Fmt.next f1) = [] /\
    Fmt.xsputn f1 [] = Ok (f2, 0%nat) /\
    Fmt.pending_indent f2 = 0 /\
    output (Fmt.next f2) = repeat space 16 ++ [nul] ++ repeat space 3 /\
    output (Fmt.next f2) <> repeat space 20 /\
    Fmt.xsputn f1 (chars "x") = Ok (f3, 1%nat) /\
    output (Fmt.next f3)
    = (repeat space 16 ++ [nul] ++ repeat space 3)
      ++ (repeat space 16 ++ [nul] ++ repeat space 3) ++ chars "x".
Proof.
  eexists. eexists. eexists.
  split; [vm_compute; reflexivity|].
  split; [reflexivity|]. split; [reflexivity|].
  split; [vm_compute; reflexivity|].
  split; [reflexivity|]. split; [reflexivity|].
  split; [discriminate|].
  split; [vm_compute; reflexivity|]. reflexivity.
Qed.

(** ** Partial acceptance *)

(** C1 fails on [xsputn].  Behind a buffer that takes one character per
    call, the run [begin('{')] followed by ["B"] is never delivered: the
    first write returns 3 after one of the four blanks of the indentation
    went out, and every resubmission of the remaining ["B"] sends one more
    blank, returns 0 and leaves the filter where it was.  After [tries]
    resubmissions the buffer holds [{], [EndOfLine] and [tries + 1] blanks,
    and ["B"] is still unprocessed; a buffer that takes everything receives
    [{], [EndOfLine], four blanks and [B]. *)
Theorem partial_acceptance_stalls_on_indentation :
  (exists f,
      Fmt.resubmit 1 (Fmt.fresh (Some (sink accept_all)))
                   (Fmt.basic_begin "{"%char ++ chars "B")
      = Ok (f, []) /\
      output (Fmt.next f) = chars "{" ++ [end_of_line] ++ chars "    B") /\
  (forall tries,
      exists f,
        Fmt.resubmit (S tries) (Fmt.fresh (Some (sink (accept_upto 1))))
                     (Fmt.basic_begin "{"%char ++ chars "B")
        = Ok (f, chars "B") /\
        output (Fmt.next f)
        = chars "{" ++ [end_of_line] ++ repeat space (S tries)).
Proof.
  split.
  - eexists. split; [vm_compute; reflexivity | reflexivity].
  - intros tries.
    set (b1 := {| accept := accept_upto 1; calls := 3;
                  delivered := chars "{" ++ [end_of_line; space];
                  readable := [] |}).
    assert (First : Fmt.xsputn (Fmt.fresh (Some (sink (accept_upto 1))))
                               (Fmt.basic_begin "{"%char ++ chars "B")
                    = Ok (stalled b1, 3%nat)) by reflexivity.
    cbn [Fmt.resubmit]. rewrite First. cbn [bind].
    change (skipn 3 (Fmt.basic_begin "{"%char ++ chars "B")) with (chars "B").
    cbn [chars list_ascii_of_string].
    destruct (FmtFacts.stalled_forever tries b1 eq_refl) as (b' & R & D & _).
    exists (stalled b'). split; [exact R|].
    cbn [stalled Fmt.next output]. rewrite D. reflexivity.
Qed.

(** ** Flushing the chaining buffer *)

(** C4 fails on [sync].  A full buffer of size 8 holding [abcdefgh], of
    which the next buffer takes [abc], is left holding [decde] where the
    unconsumed remainder is [defgh]: [fgh] is lost, [de] is there twice and
    [c] is offered again.  A buffer of the default size holding [abcd], of
    which the next buffer takes [a], is left holding 4095 characters: [bcd]
    and 4092 characters that were never written to it. *)
Theorem sync_keeps_wrong_remainder :
  (exists b',
      Exp.sync full_buffer = Ok (b', 0%Z) /\
      output (Exp.next b') = chars "abc" /\
      skipn 3 (Exp.waiting full_buffer) = chars "defgh" /\
      Exp.waiting b' = chars "decde") /\
  (exists b',
      Exp.sync partial_buffer = Ok (b', 0%Z) /\
      output (Exp.next b') = chars "a" /\
      skipn 1 (Exp.waiting partial_buffer) = chars "bcd" /\
      Exp.pptr b' = 4095%nat /\
      Exp.waiting b' = chars "bcd" ++ repeat nul 4092).
Proof.
  split.
  - eexists. split; [vm_compute; reflexivity|]. repeat split.
  - eexists. split; [vm_compute; reflexivity|].
    repeat split; vm_compute; reflexivity.
Qed.

(** ** Construction *)

Module NullFacts.

(** [do_indentation] behind a null pointer: only a count of 0 gets by. *)
Lemma do_indentation_null f count :
  Fmt.next f = None ->
  Fmt.do_indentation f count
  = if count =? 0 then Ok (Fmt.set_pending_indent f count, 0) else Fault.
Proof.
  intros Hn. unfold Fmt.do_indentation.
  destruct (N.eqb_spec count 0) as [E|E].
  - subst count. reflexivity.
  - destruct (N.to_nat count) as [|fuel] eqn:F; [lia|].
    cbn [Fmt.indentation_loop Fmt.set_pending_indent Fmt.pending_indent
           Fmt.next].
    apply N.eqb_neq in E. rewrite E, Hn. reflexivity.
Qed.

(** The loop of [xsputn] behind a null pointer. *)
Lemma xsputn_loop_null l :
  forall f idx,
    Fmt.next f = None ->
    if existsb (sent_on (Fmt.at_start_of_line f) (Fmt.locale f)) l
    then Fmt.xsputn_loop f idx l = Fault
    else exists f',
        Fmt.xsputn_loop f idx l = Ok (f', (idx + length l)%nat) /\
        Fmt.next f' = None /\
        Fmt.at_start_of_line f' = Fmt.at_start_of_line f /\
        Fmt.pending_indent f' = Fmt.pending_indent f.
Proof.
  induction l as [|c rest IH]; intros f idx Hn;
    cbn [existsb Fmt.xsputn_loop length].
  { exists f. rewrite Nat.add_0_r. auto. }
  unfold sent_on at 1. rewrite <- Nat.add_succ_comm.
  destruct (traits_eq c indent_code) eqn:Ei.
  { cbn [negb andb orb]. exact (IH (Fmt.indent f) (S idx) Hn). }
  destruct (traits_eq c undent_code) eqn:Eu.
  { cbn [negb andb orb]. unfold Fmt.undent.
    destruct (Fmt.indent_level f =? 0).
    - exact (IH f (S idx) Hn).
    - exact (IH (Fmt.set_indent_level f (Fmt.indent_level f - 1)) (S idx) Hn). }
  destruct (Fmt.at_start_of_line f && Fmt.locale f c) eqn:Sk.
  { cbn [negb andb orb]. exact (IH f (S idx) Hn). }
  cbn [negb andb orb].
  destruct (Fmt.at_start_of_line f).
  - rewrite (do_indentation_null f _ Hn).
    destruct (_ =? 0); [|reflexivity].
    cbn [bind N.eqb negb Fmt.next Fmt.set_at_start_of_line
           Fmt.set_pending_indent].
    rewrite Hn. reflexivity.
  - cbn [bind N.eqb negb Fmt.next Fmt.set_at_start_of_line].
    rewrite Hn. reflexivity.
Qed.

Lemma xsputn_null f obuf :
  Fmt.next f = None ->
  if (0 <? Fmt.pending_indent f)
     || existsb (sent_on (Fmt.at_start_of_line f) (Fmt.locale f)) obuf
  then Fmt.xsputn f obuf = Fault
  else exists f',
      Fmt.xsputn f obuf = Ok (f', length obuf) /\ Fmt.next f' = None.
Proof.
  intros Hn. unfold Fmt.xsputn.
  destruct (N.ltb_spec 0 (Fmt.pending_indent f)) as [P|P]; cbn [orb].
  - rewrite (do_indentation_null f _ Hn).
    destruct (N.eqb_spec (Fmt.pending_indent f) 0) as [E|_]; [lia|].
    reflexivity.
  - cbn [bind N.eqb negb].
    pose proof (xsputn_loop_null obuf f 0%nat Hn) as H.
    destruct (existsb _ obuf); [exact H|].
    destruct H as (f' & R & N' & _). exists f'. split; [exact R | exact N'].
Qed.

(** The same for the filter on the chaining buffer. *)
Lemma put_spaces_null n :
  FmtChain.put_spaces n None
  = match n with O => Ok (None, true) | S _ => Fault end.
Proof. destruct n; reflexivity. Qed.

Lemma filter_write_loop_null l :
  forall f idx,
    FmtChain.next f = None ->
    if existsb (sent_on (FmtChain.at_start_of_line f) (FmtChain.locale f)) l
    then FmtChain.filter_write_loop f idx l = Fault
    else exists f',
        FmtChain.filter_write_loop f idx l
        = Ok (f', Z.of_nat (idx + length l)) /\
        FmtChain.filter_streambuf_base f' = FmtChain.filter_streambuf_base f /\
        FmtChain.at_start_of_line f' = FmtChain.at_start_of_line f.
Proof.
  induction l as [|c rest IH]; intros f idx Hn;
    cbn [existsb FmtChain.filter_write_loop length].
  { exists f. rewrite Nat.add_0_r. auto. }
  unfold sent_on at 1. rewrite <- Nat.add_succ_comm.
  destruct (traits_eq c indent_code) eqn:Ei.
  { cbn [negb andb orb]. exact (IH (FmtChain.indent f) (S idx) Hn). }
  destruct (traits_eq c undent_code) eqn:Eu.
  { cbn [negb andb orb]. unfold FmtChain.undent.
    destruct (FmtChain.indent_level f =? 0).
    - exact (IH f (S idx) Hn).
    - exact (IH (FmtChain.set_indent_level f (FmtChain.indent_level f - 1))
                (S idx) Hn). }
  destruct (FmtChain.at_start_of_line f && FmtChain.locale f c) eqn:Sk.
  { cbn [negb andb orb]. exact (IH f (S idx) Hn). }
  cbn [negb andb orb]. rewrite Hn.
  destruct (FmtChain.at_start_of_line f).
  - rewrite put_spaces_null.
    destruct (N.to_nat _); reflexivity.
  - reflexivity.
Qed.

(** A flush of the filter keeps a null pointer null. *)
Lemma sync_keeps_null (f : FmtChain.basic_fmtstreambuf) :
  FmtChain.next f = None ->
  match Exp.sync f with
  | Ok (f1, _) => FmtChain.next f1 = None
  | Fault => True
  end.
Proof.
  intros Hn. unfold Exp.sync.
  cbn [Exp.filter_write Exp.base Exp.set_base FmtChain.fmt_class].
  unfold FmtChain.filter_write.
  pose proof (FmtChainFacts.filter_write_loop_spec
                (firstn (Exp.pptr (FmtChain.filter_streambuf_base f))
                        (Exp.obuf (FmtChain.filter_streambuf_base f)))
                f 0%nat) as H.
  destruct (FmtChain.filter_write_loop f 0 _) as [[f1 n]|]; [|exact I].
  destruct H as (new & G & _).
  assert (N1 : FmtChain.next f1 = None)
    by (apply (grows_null _ _ _ G); exact Hn).
  cbn [bind].
  destruct (n <? 0)%Z; [exact N1|].
  destruct (n =? _)%Z; [exact N1|].
  destruct (_ <? _)%nat; [exact I | exact N1].
Qed.

Lemma char_is_not_eof c : (Exp.to_int_type c =? Exp.eof)%Z = false.
Proof. unfold Exp.to_int_type, Exp.eof. apply Z.eqb_neq. lia. Qed.

Lemma char_round_trip c : Exp.int_to_char (Exp.to_int_type c) = c.
Proof.
  unfold Exp.int_to_char, Exp.to_int_type.
  pose proof (N_ascii_bounded c) as B.
  rewrite Z.mod_small by lia.
  rewrite N2Z.id. apply ascii_N_embedding.
Qed.

Lemma firstn_store_end a :
  forall p c, (p < length a)%nat ->
              firstn (S p) (Exp.store a p c) = firstn p a ++ [c].
Proof.
  induction a as [|h t IH]; intros [|p] c H; cbn [length] in H;
    try lia; cbn [Exp.store firstn app].
  - reflexivity.
  - f_equal. apply IH. lia.
Qed.

(** Characters for which the array has room are stored, whatever the next
    buffer is. *)
Lemma put_chars_fit fuel l :
  forall f : FmtChain.basic_fmtstreambuf,
    length (Exp.obuf (FmtChain.filter_streambuf_base f))
    = Exp.write_buffer_size (FmtChain.filter_streambuf_base f) ->
    (Exp.pptr (FmtChain.filter_streambuf_base f) + length l
     <= Exp.write_buffer_size (FmtChain.filter_streambuf_base f))%nat ->
    exists f',
      Exp.put_chars fuel f l = Some (Ok (f', length l)) /\
      FmtChain.next f' = FmtChain.next f /\
      Exp.waiting (FmtChain.filter_streambuf_base f')
      = Exp.waiting (FmtChain.filter_streambuf_base f) ++ l /\
      Exp.pptr (FmtChain.filter_streambuf_base f')
      = (Exp.pptr (FmtChain.filter_streambuf_base f) + length l)%nat /\
      length (Exp.obuf (FmtChain.filter_streambuf_base f'))
      = Exp.write_buffer_size (FmtChain.filter_streambuf_base f') /\
      Exp.write_buffer_size (FmtChain.filter_streambuf_base f')
      = Exp.write_buffer_size (FmtChain.filter_streambuf_base f) /\
      FmtChain.at_start_of_line f' = FmtChain.at_start_of_line f /\
      FmtChain.indent_level f' = FmtChain.indent_level f /\
      FmtChain.indent_increment f' = FmtChain.indent_increment f /\
      FmtChain.locale f' = FmtChain.locale f.
Proof.
  induction l as [|c rest IH]; intros f Hl Hfit; cbn [Exp.put_chars length].
  { exists f. rewrite app_nil_r, Nat.add_0_r. repeat split; auto. }
  cbn [length] in Hfit.
  unfold Exp.put_char. cbn [Exp.base Exp.set_base FmtChain.fmt_class].
  unfold Exp.sizeof_obuf.
  destruct (Nat.ltb_spec (Exp.pptr (FmtChain.filter_streambuf_base f))
              (Exp.write_buffer_size (FmtChain.filter_streambuf_base f)))
    as [Room|Full]; [|lia].
  rewrite char_is_not_eof.
  destruct (IH (FmtChain.set_base f
                  (Exp.put_here (FmtChain.filter_streambuf_base f) c)))
    as (f' & R & N' & W' & P' & L' & S' & A' & B' & C' & D').
  { unfold Exp.put_here.
    cbn [FmtChain.set_base FmtChain.filter_streambuf_base Exp.obuf
           Exp.write_buffer_size Exp.pbump Exp.set_obuf].
    rewrite ExpFacts.length_store. exact Hl. }
  { unfold Exp.put_here.
    cbn [FmtChain.set_base FmtChain.filter_streambuf_base Exp.pptr
           Exp.write_buffer_size Exp.pbump Exp.set_obuf]. lia. }
  rewrite R. exists f'. split; [reflexivity|].
  unfold Exp.put_here, Exp.waiting in *.
  cbn [FmtChain.set_base FmtChain.filter_streambuf_base Exp.pptr Exp.obuf
         Exp.write_buffer_size Exp.pbump Exp.set_obuf FmtChain.next Exp.next
         FmtChain.at_start_of_line FmtChain.indent_level
         FmtChain.indent_increment FmtChain.locale] in *.
  repeat split; auto; try lia.
  rewrite W'.
  replace (Exp.pptr (FmtChain.filter_streambuf_base f) + 1)%nat
    with (S (Exp.pptr (FmtChain.filter_streambuf_base f))) by lia.
  rewrite firstn_store_end by lia.
  rewrite <- app_assoc. reflexivity.
Qed.

End NullFacts.

(** C5 as stated fails: construction with a null next buffer succeeds, for
    both filters and for the chaining buffer.  The fault comes later: in
    [include/code_fmt_stream.h] at the write of ["A"]; in the filter on the
    chaining buffer, where that write only stores the character, at the
    flush and at destruction. *)
Lemma null_sink_accepted_by_constructor :
  Fmt.construct None <> Fault /\
  (forall f, Fmt.construct None = Ok f ->
             Fmt.xsputn f (chars "A") = Fault) /\
  FmtChain.construct None <> Fault /\
  (forall f, FmtChain.construct None = Ok f ->
             FmtChain.destroy f = Fault /\
             exists f1,
               Exp.put_chars 0 f (chars "A") = Some (Ok (f1, 1%nat)) /\
               Exp.sync f1 = Fault /\ FmtChain.destroy f1 = Fault) /\
  Exp.construct 4096 4096 None <> Fault.
Proof.
  split; [discriminate|]. split.
  { intros f E. injection E as <-. reflexivity. }
  split; [discriminate|]. split; [|discriminate].
  intros f E. injection E as <-. split; [reflexivity|].
  eexists. split; [vm_compute; reflexivity|].
  split; reflexivity.
Qed.

(** C5, amended.  Construction never fails and does not look at the
    pointer: each of the three constructors builds the object holding
    whatever pointer it was given, null or not.  With a null pointer the
    fault comes later, where the pointer is first used.

    In [include/code_fmt_stream.h] that is in [xsputn]: a write faults
    exactly when indentation is owed or the run has a character that is sent
    on, one that is no mark and, at start of line, no whitespace; any other
    run is processed whole.

    In the filter on the chaining buffer a write for which the array has
    room only stores its characters and succeeds.  [sync], and the [sputc]
    that finds the array full, fault exactly when a character that is
    waiting is sent on; otherwise [sync] succeeds and empties the array, and
    that [sputc] succeeds.  Destruction always faults, nothing written included: the destructor of
    the base class flushes with [next->sputn].  For the chaining buffer on
    its own, [sync] and destruction always fault. *)
Theorem construction_stores_the_pointer_unchecked :
  (forall p, Fmt.construct p = Ok (Fmt.fresh p) /\ Fmt.next (Fmt.fresh p) = p) /\
  (forall p, exists f, FmtChain.construct p = Ok f /\ FmtChain.next f = p) /\
  (forall w r p, exists b, Exp.construct w r p = Ok b /\ Exp.next b = p) /\
  (forall f obuf,
      Fmt.next f = None ->
      if (0 <? Fmt.pending_indent f)
         || existsb (sent_on (Fmt.at_start_of_line f) (Fmt.locale f)) obuf
      then Fmt.xsputn f obuf = Fault
      else exists f',
          Fmt.xsputn f obuf = Ok (f', length obuf) /\ Fmt.next f' = None) /\
  (forall fuel (f : FmtChain.basic_fmtstreambuf) l,
      FmtChain.next f = None ->
      put_area_ok (FmtChain.filter_streambuf_base f) ->
      (Exp.pptr (FmtChain.filter_streambuf_base f) + length l
       <= Exp.write_buffer_size (FmtChain.filter_streambuf_base f))%nat ->
      exists f',
        Exp.put_chars fuel f l = Some (Ok (f', length l)) /\
        FmtChain.next f' = None /\
        Exp.waiting (FmtChain.filter_streambuf_base f')
        = Exp.waiting (FmtChain.filter_streambuf_base f) ++ l) /\
  (forall fuel (f : FmtChain.basic_fmtstreambuf) c,
      FmtChain.next f = None ->
      put_area_ok (FmtChain.filter_streambuf_base f) ->
      if existsb (sent_on (FmtChain.at_start_of_line f) (FmtChain.locale f))
                 (Exp.waiting (FmtChain.filter_streambuf_base f))
      then Exp.sync f = Fault /\
           (Exp.pptr (FmtChain.filter_streambuf_base f)
            = Exp.write_buffer_size (FmtChain.filter_streambuf_base f) ->
            Exp.put_char (S fuel) f c = Some Fault)
      else exists f',
          Exp.sync f = Ok (f', 0%Z) /\ FmtChain.next f' = None /\
          Exp.waiting (FmtChain.filter_streambuf_base f') = [] /\
          (Exp.pptr (FmtChain.filter_streambuf_base f)
           = Exp.write_buffer_size (FmtChain.filter_streambuf_base f) ->
           exists f'',
             Exp.put_char (S fuel) f c = Some (Ok (f'', Exp.to_int_type c)) /\
             FmtChain.next f'' = None)) /\
  (forall f, FmtChain.next f = None -> FmtChain.destroy f = Fault) /\
  (forall b : Exp.basic_filter_streambuf,
      Exp.next b = None -> Exp.sync b = Fault /\ Exp.destroy b = Fault).
Proof.
  split; [intros p; split; reflexivity|].
  split; [intros p; eexists; split; reflexivity|].
  split; [intros w r p; eexists; split; reflexivity|].
  split; [exact NullFacts.xsputn_null|].
  split.
  { intros fuel f l Hn (Hl & _ & _) Hfit.
    destruct (NullFacts.put_chars_fit fuel l f Hl Hfit)
      as (f' & R & N' & W' & _).
    exists f'. split; [exact R|]. split; [congruence | exact W']. }
  split.
  { intros fuel f c Hn (Hl & Hp & Hw).
    assert (Len : length (Exp.waiting (FmtChain.filter_streambuf_base f))
                  = Exp.pptr (FmtChain.filter_streambuf_base f)).
    { unfold Exp.waiting. rewrite length_firstn. apply Nat.min_l. lia. }
    pose proof (NullFacts.filter_write_loop_null
                  (Exp.waiting (FmtChain.filter_streambuf_base f)) f 0%nat Hn)
      as H.
    assert (Sy : Exp.sync f
                 = bind (FmtChain.filter_write_loop f 0
                           (Exp.waiting (FmtChain.filter_streambuf_base f)))
                        (fun '(t1, n) =>
                           if (n <? 0)%Z then Ok (t1, (-1)%Z)
                           else if (n =? Z.of_nat
                                           (Exp.pptr
                                              (FmtChain.filter_streambuf_base f)))%Z
                           then Ok (FmtChain.set_base t1
                                      (Exp.setp
                                         (FmtChain.filter_streambuf_base t1)),
                                    0%Z)
                           else
                             let b := FmtChain.filter_streambuf_base t1 in
                             let w := Exp.sizeof_obuf b in
                             let k := Z.to_nat n in
                             if (w <? k)%nat then Fault
                             else
                               let b1 := Exp.set_obuf b
                                           (Exp.shift_loop (w - k - k) k k
                                              (Exp.obuf b)) in
                               Ok (FmtChain.set_base t1
                                     (Exp.pbump (Exp.setp b1) (w - k)), 0%Z)))
      by reflexivity.
    destruct (existsb _ _).
    - rewrite H in Sy. cbn [bind] in Sy. split; [exact Sy|].
      intros Full. unfold Exp.put_char.
      cbn [Exp.base FmtChain.fmt_class]. unfold Exp.sizeof_obuf.
      rewrite Full, Nat.ltb_irrefl. cbn [Exp.overflow]. rewrite Sy.
      reflexivity.
    - destruct H as (f' & R & B & _). rewrite R in Sy. cbn [bind] in Sy.
      rewrite Len in Sy. cbn [Nat.add] in Sy.
      destruct (Z.ltb_spec
                  (Z.of_nat (Exp.pptr (FmtChain.filter_streambuf_base f))) 0)
        as [Neg|_]; [lia|].
      rewrite Z.eqb_refl in Sy.
      assert (N' : FmtChain.next
                     (FmtChain.set_base f'
                        (Exp.setp (FmtChain.filter_streambuf_base f')))
                   = None).
      { unfold FmtChain.next in *.
        cbn [FmtChain.set_base FmtChain.filter_streambuf_base Exp.setp
               Exp.next]. rewrite B. exact Hn. }
      eexists. split; [exact Sy|]. split; [exact N'|].
      split; [reflexivity|].
      intros Full. unfold Exp.put_char.
      cbn [Exp.base FmtChain.fmt_class]. unfold Exp.sizeof_obuf.
      rewrite Full, Nat.ltb_irrefl. cbn [Exp.overflow]. rewrite Sy.
      cbn [Z.ltb Z.compare]. rewrite NullFacts.char_round_trip.
      destruct (Exp.not_eof (Exp.to_int_type c) =? 0)%Z.
      + eexists. split; [reflexivity | exact N'].
      + cbn [Exp.base Exp.set_base FmtChain.fmt_class FmtChain.set_base
               FmtChain.filter_streambuf_base Exp.setp Exp.pptr
               Exp.write_buffer_size].
        unfold Exp.sizeof_obuf. rewrite B.
        cbn [Exp.setp Exp.write_buffer_size].
        destruct (Nat.ltb_spec 0
                    (Exp.write_buffer_size (FmtChain.filter_streambuf_base f)))
          as [_|Z]; [|lia].
        eexists. split; [reflexivity|].
        unfold FmtChain.next in *.
        unfold Exp.put_here.
        cbn [FmtChain.set_base FmtChain.filter_streambuf_base Exp.pbump
               Exp.set_obuf Exp.setp Exp.next].
        exact Hn. }
  split.
  { intros f Hn. unfold FmtChain.destroy.
    pose proof (NullFacts.sync_keeps_null f Hn) as H.
    destruct (Exp.sync f) as [[f1 r]|]; [|reflexivity].
    cbn [bind]. unfold Exp.sync.
    cbn [Exp.filter_write Exp.base Exp.base_class].
    unfold Exp.base_filter_write. unfold FmtChain.next in H. rewrite H.
    reflexivity. }
  intros b Hn.
  assert (Sy : Exp.sync b = Fault).
  { unfold Exp.sync. cbn [Exp.filter_write Exp.base Exp.base_class].
    unfold Exp.base_filter_write. rewrite Hn. reflexivity. }
  split; [exact Sy|]. unfold Exp.destroy. rewrite Sy. reflexivity.
Qed.

Lemma construction_stores_the_pointer_unchecked_witness :
  Fmt.xsputn (Fmt.fresh None) (chars " A") = Fault /\
  (exists f',
      Fmt.xsputn (Fmt.fresh None) [indent_code; space; end_of_line]
      = Ok (f', 3%nat) /\ Fmt.next f' = None) /\
  exists f0,
    FmtChain.construct None = Ok f0 /\
    FmtChain.destroy f0 = Fault /\
    exists f1,
      Exp.put_chars 0 f0 (chars " A") = Some (Ok (f1, 2%nat)) /\
      FmtChain.next f1 = None /\
      Exp.waiting (FmtChain.filter_streambuf_base f1) = chars " A" /\
      Exp.sync f1 = Fault /\
      FmtChain.destroy f1 = Fault.
Proof.
  destruct construction_stores_the_pointer_unchecked
    as (_ & _ & _ & Wr & Fit & Fl & De & _).
  split; [exact (Wr (Fmt.fresh None) (chars " A") eq_refl)|].
  split;
    [exact (Wr (Fmt.fresh None) [indent_code; space; end_of_line] eq_refl)|].
  eexists. split; [reflexivity|].
  split; [apply De; reflexivity|].
  match goal with
  | |- context [Exp.put_chars 0 ?f0 _] =>
      destruct (Fit 0%nat f0 (chars " A") eq_refl) as (f1 & R & N1 & W1)
  end.
  - repeat split; vm_compute; lia.
  - vm_compute. lia.
  - exists f1. split; [exact R|]. split; [exact N1|]. split; [exact W1|].
    assert (Ok1 : put_area_ok (FmtChain.filter_streambuf_base f1)).
    { injection R as <-. repeat split; vm_compute; lia. }
    pose proof (Fl 0%nat f1 "x"%char N1 Ok1) as H.
    rewrite W1 in H.
    assert (St : FmtChain.at_start_of_line f1 = true
                 /\ FmtChain.locale f1 = isspace_classic).
    { injection R as <-. split; reflexivity. }
    destruct St as [St Lc]. rewrite St, Lc in H.
    split; [exact (proj1 H) | apply De; exact N1].
Defined.

(** ** Runs of content characters *)

(** C2 as stated fails: the blank line of [a], [EndOfLine], [EndOfLine],
    [b] is not kept.  At level 0 the specification's output is the run
    itself; the filter delivers [a], [EndOfLine], [b]. *)
Lemma blank_line_is_not_kept :
  Forall not_mark blank_line_run /\
  exists f,
    Fmt.xsputn (Fmt.fresh (Some (sink accept_all))) blank_line_run
    = Ok (f, 4%nat) /\
    output (Fmt.next f) = chars "a" ++ [end_of_line] ++ chars "b" /\
    N.to_nat (Fmt.indent_level (Fmt.fresh (Some (sink accept_all)))
              * Fmt.indent_increment (Fmt.fresh (Some (sink accept_all))))
    = 0%nat /\
    claimed_output isspace_classic 0 blank_line_run = blank_line_run /\
    output (Fmt.next f) <> claimed_output isspace_classic 0 blank_line_run.
Proof.
  split.
  { repeat constructor; discriminate. }
  eexists. split; [vm_compute; reflexivity|].
  split; [reflexivity|]. split; [reflexivity|]. split; [reflexivity|].
  discriminate.
Qed.

(** C2, amended.  A run of content characters, written at start of line to
    a buffer that takes everything by a filter whose indentation width
    [indent_level * indent_increment] is at most 16, is delivered line by
    line: a line of whitespace only disappears together with its
    [EndOfLine], every other line loses its leading whitespace and starts
    with exactly [indent_level * indent_increment] blanks.  All characters
    are reported processed and the level is unchanged. *)
Theorem content_run_is_reindented f b obuf :
  Fmt.next f = Some b -> accept b = accept_all ->
  Fmt.at_start_of_line f = true -> Fmt.pending_indent f = 0 ->
  Fmt.locale f end_of_line = true ->
  Forall not_mark obuf ->
  Fmt.indent_level f * Fmt.indent_increment f <= 16 ->
  exists f',
    Fmt.xsputn f obuf = Ok (f', length obuf) /\
    output (Fmt.next f')
    = delivered b
      ++ reindented (Fmt.locale f)
           (N.to_nat (Fmt.indent_level f * Fmt.indent_increment f)) obuf /\
    Fmt.indent_level f' = Fmt.indent_level f.
Proof.
  intros Hn Ha Hs Hp Hl Hm Hw.
  destruct (FmtFacts.content_run_accept_all f b obuf Hn Ha Hs Hp Hl Hm)
    as (f' & R & O & L).
  exists f'. split; [exact R|]. split; [|exact L].
  rewrite O. unfold reindented.
  rewrite N.mod_small by (unfold size_max; lia).
  rewrite FmtFacts.pad_blanks by lia. reflexivity.
Qed.

Lemma content_run_is_reindented_witness :
  exists f',
    Fmt.xsputn (Fmt.indent (Fmt.fresh (Some (sink accept_all))))
               (chars "  x" ++ [end_of_line; end_of_line] ++ chars " y")
    = Ok (f', 7%nat) /\
    output (Fmt.next f')
    = chars "    x" ++ [end_of_line] ++ chars "    y" /\
    Fmt.indent_level f' = 1.
Proof.
  apply (content_run_is_reindented
           (Fmt.indent (Fmt.fresh (Some (sink accept_all))))
           (sink accept_all)
           (chars "  x" ++ [end_of_line; end_of_line] ++ chars " y")).
  - reflexivity.
  - reflexivity.
  - reflexivity.
  - reflexivity.
  - reflexivity.
  - repeat constructor; discriminate.
  - vm_compute. discriminate.
Defined.

(** * Further properties *)

(** ** Levels *)

Module LevelFacts.

Lemma fmt_set_level_id (f : Fmt.basic_fmtstreambuf) l :
  l = Fmt.indent_level f -> Fmt.set_indent_level f l = f.
Proof. intros ->. destruct f; reflexivity. Qed.

Lemma fmt_iter_indent n :
  forall f,
    Fmt.indent_level f + N.of_nat n < size_max ->
    Nat.iter n Fmt.indent f
    = Fmt.set_indent_level f (Fmt.indent_level f + N.of_nat n).
Proof.
  induction n as [|n IH]; intros f H.
  - cbn. symmetry. apply fmt_set_level_id. cbn. lia.
  - rewrite Nat2N.inj_succ in *. rewrite Nat.iter_succ, IH by lia. unfold Fmt.indent.
    cbn [Fmt.indent_level Fmt.set_indent_level Fmt.indent_increment Fmt.next
           Fmt.at_start_of_line Fmt.locale Fmt.pending_indent].
    rewrite N.mod_small by lia.
    match goal with
    | |- ?s _ ?x = ?s ?f ?y =>
        change (s f x = s f y); apply (f_equal (s f)); lia
    end.
Qed.

Lemma fmt_iter_undent m :
  forall f,
    Nat.iter m Fmt.undent f
    = Fmt.set_indent_level f (Fmt.indent_level f - N.of_nat m).
Proof.
  induction m as [|m IH]; intros f.
  - cbn. symmetry. apply fmt_set_level_id. cbn. lia.
  - rewrite Nat2N.inj_succ. rewrite Nat.iter_succ, IH. unfold Fmt.undent.
    cbn [Fmt.indent_level Fmt.set_indent_level Fmt.indent_increment Fmt.next
           Fmt.at_start_of_line Fmt.locale Fmt.pending_indent].
    destruct (N.eqb_spec (Fmt.indent_level f - N.of_nat m) 0) as [E|E];
      match goal with
      | |- ?s _ ?x = ?s ?f ?y =>
          change (s f x = s f y); apply (f_equal (s f)); lia
      | |- ?s ?f ?x = ?s ?f ?y => apply (f_equal (s f)); lia
      end.
Qed.

Lemma chain_set_level_id (f : FmtChain.basic_fmtstreambuf) l :
  l = FmtChain.indent_level f -> FmtChain.set_indent_level f l = f.
Proof. intros ->. destruct f; reflexivity. Qed.

Lemma chain_iter_indent n :
  forall f,
    FmtChain.indent_level f + N.of_nat n < size_max ->
    Nat.iter n FmtChain.indent f
    = FmtChain.set_indent_level f (FmtChain.indent_level f + N.of_nat n).
Proof.
  induction n as [|n IH]; intros f H.
  - cbn. symmetry. apply chain_set_level_id. cbn. lia.
  - rewrite Nat2N.inj_succ in *. rewrite Nat.iter_succ, IH by lia. unfold FmtChain.indent.
    cbn [FmtChain.indent_level FmtChain.set_indent_level
           FmtChain.indent_increment FmtChain.filter_streambuf_base
           FmtChain.at_start_of_line FmtChain.locale].
    rewrite N.mod_small by lia.
    match goal with
    | |- ?s _ ?x = ?s ?f ?y =>
        change (s f x = s f y); apply (f_equal (s f)); lia
    end.
Qed.

Lemma chain_iter_undent m :
  forall f,
    Nat.iter m FmtChain.undent f
    = FmtChain.set_indent_level f (FmtChain.indent_level f - N.of_nat m).
Proof.
  induction m as [|m IH]; intros f.
  - cbn. symmetry. apply chain_set_level_id. cbn. lia.
  - rewrite Nat2N.inj_succ. rewrite Nat.iter_succ, IH. unfold FmtChain.undent.
    cbn [FmtChain.indent_level FmtChain.set_indent_level
           FmtChain.indent_increment FmtChain.filter_streambuf_base
           FmtChain.at_start_of_line FmtChain.locale].
    destruct (N.eqb_spec (FmtChain.indent_level f - N.of_nat m) 0) as [E|E];
      match goal with
      | |- ?s _ ?x = ?s ?f ?y =>
          change (s f x = s f y); apply (f_equal (s f)); lia
      | |- ?s ?f ?x = ?s ?f ?y => apply (f_equal (s f)); lia
      end.
Qed.

End LevelFacts.

(** X1.  As long as the level stays below [2^64], [n] calls of [indent]
    followed by [m] calls of [undent] change nothing but the level, which
    becomes [level + n - m], or 0 when [m] is larger; with [m = n] the filter
    is back in the state it started from.  For both filters. *)
Theorem indent_then_undent f g n m :
  Fmt.indent_level f + N.of_nat n < size_max ->
  FmtChain.indent_level g + N.of_nat n < size_max ->
  Nat.iter m Fmt.undent (Nat.iter n Fmt.indent f)
  = Fmt.set_indent_level f (Fmt.indent_level f + N.of_nat n - N.of_nat m) /\
  Nat.iter n Fmt.undent (Nat.iter n Fmt.indent f) = f /\
  Nat.iter m FmtChain.undent (Nat.iter n FmtChain.indent g)
  = FmtChain.set_indent_level g
      (FmtChain.indent_level g + N.of_nat n - N.of_nat m) /\
  Nat.iter n FmtChain.undent (Nat.iter n FmtChain.indent g) = g.
Proof.
  intros Hf Hg.
  assert (A : forall k,
             Nat.iter k Fmt.undent (Nat.iter n Fmt.indent f)
             = Fmt.set_indent_level f
                 (Fmt.indent_level f + N.of_nat n - N.of_nat k)).
  { intros k. rewrite LevelFacts.fmt_iter_undent,
      LevelFacts.fmt_iter_indent by exact Hf. reflexivity. }
  assert (B : forall k,
             Nat.iter k FmtChain.undent (Nat.iter n FmtChain.indent g)
             = FmtChain.set_indent_level g
                 (FmtChain.indent_level g + N.of_nat n - N.of_nat k)).
  { intros k. rewrite LevelFacts.chain_iter_undent,
      LevelFacts.chain_iter_indent by exact Hg. reflexivity. }
  split; [apply A|]. split.
  - rewrite A. apply LevelFacts.fmt_set_level_id. lia.
  - split; [apply B|]. rewrite B. apply LevelFacts.chain_set_level_id. lia.
Qed.

Lemma indent_then_undent_witness :
  Nat.iter 2 Fmt.undent (Nat.iter 2 Fmt.indent (Fmt.fresh None))
  = Fmt.fresh None.
Proof.
  assert (Hf : Fmt.indent_level (Fmt.fresh None) + N.of_nat 2 < size_max)
    by reflexivity.
  assert (Hg : FmtChain.indent_level
                 (FmtChain.set_indent_level
                    {| FmtChain.filter_streambuf_base := full_buffer;
                       FmtChain.indent_increment := 4;
                       FmtChain.at_start_of_line := true;
                       FmtChain.indent_level := 0;
                       FmtChain.locale := isspace_classic |} 0)
               + N.of_nat 2 < size_max)
    by reflexivity.
  destruct (indent_then_undent _ _ 2 2 Hf Hg) as (_ & H & _).
  exact H.
Defined.

(** X2.  The level is a [size_t]: at [2^64 - 1] a call of [indent] wraps
    it to 0, and the [undent] that follows leaves it at 0. *)
Theorem indent_wraps_at_size_max f :
  Fmt.indent_level f = size_max - 1 ->
  Fmt.indent_level (Fmt.indent f) = 0 /\
  Fmt.indent_level (Fmt.undent (Fmt.indent f)) = 0 /\
  Fmt.undent (Fmt.indent f) <> f.
Proof.
  intros E.
  assert (Z : Fmt.indent_level (Fmt.indent f) = 0).
  { unfold Fmt.indent. cbn [Fmt.indent_level Fmt.set_indent_level].
    rewrite E. reflexivity. }
  split; [exact Z|].
  assert (U : Fmt.undent (Fmt.indent f) = Fmt.indent f).
  { unfold Fmt.undent at 1. rewrite Z. reflexivity. }
  rewrite U. split; [exact Z|].
  intros C. rewrite C in Z. rewrite Z in E. discriminate.
Qed.

Lemma indent_wraps_at_size_max_witness :
  Fmt.indent_level
    (Fmt.indent (Fmt.set_indent_level (Fmt.fresh None) (size_max - 1))) = 0.
Proof.
  apply (indent_wraps_at_size_max
           (Fmt.set_indent_level (Fmt.fresh None) (size_max - 1))).
  reflexivity.
Defined.

(** ** More on [xsputn] and [do_indentation] *)

Module FmtMore.
Import Fmt.

Lemma firstn_spaces_blank n : (n <= 16)%nat -> firstn n spaces = repeat space n.
Proof. intros H. do 17 (destruct n as [|n]; [reflexivity|]). lia. Qed.

(** [do_indentation] when the buffer takes less than the first chunk. *)
Lemma do_indentation_short f b count :
  next f = Some b -> count <> 0 ->
  (accept b (calls b) (N.to_nat (N.min count 17))
   < N.to_nat (N.min count 17))%nat ->
  do_indentation f count
  = Ok (set_pending_indent
          (set_next f
             (Some {| accept := accept b; calls := S (calls b);
                      delivered :=
                        delivered b
                        ++ repeat space
                             (accept b (calls b) (N.to_nat (N.min count 17)));
                      readable := readable b |}))
          count, count).
Proof.
  intros Hn Hc Hs. unfold do_indentation.
  destruct (N.to_nat count) as [|fuel] eqn:E; [lia|].
  cbn [indentation_loop pending_indent set_pending_indent next].
  destruct (N.eqb_spec count 0) as [Z|_]; [contradiction|].
  rewrite Hn. rewrite FmtFacts.spaces_count_17.
  set (m := N.to_nat (N.min count 17)) in *.
  assert (Hm : (m <= 17)%nat) by (unfold m; lia).
  unfold sputn, streambuf_sputn.
  assert (L : length (firstn m spaces) = m).
  { rewrite length_firstn. apply Nat.min_l. exact Hm. }
  rewrite L. rewrite (Nat.min_r m) by lia. cbn [bind].
  destruct (N.eqb_spec (N.of_nat (accept b (calls b) m)) (N.min count 17))
    as [Q|_]; [unfold m in *; lia|].
  rewrite firstn_firstn, Nat.min_l by lia.
  rewrite firstn_spaces_blank by lia. reflexivity.
Qed.

(** A run of marks and whitespace, met at start of line. *)
Lemma skipped_run_loop obuf :
  forall f idx,
    at_start_of_line f = true ->
    Forall (fun c => traits_eq c indent_code = true \/
                     traits_eq c undent_code = true \/
                     locale f c = true) obuf ->
    exists f',
      xsputn_loop f idx obuf = Ok (f', (idx + length obuf)%nat) /\
      next f' = next f /\ at_start_of_line f' = true /\
      pending_indent f' = pending_indent f /\ locale f' = locale f.
Proof.
  induction obuf as [|c rest IH]; intros f idx Hs Hall;
    cbn [xsputn_loop length].
  { exists f. rewrite Nat.add_0_r. auto. }
  rewrite <- Nat.add_succ_comm.
  inversion Hall as [|c' rest' Hc Hrest]; subst.
  destruct (traits_eq c indent_code) eqn:Ei.
  { destruct (IH (indent f) (S idx) Hs Hrest) as (f' & R & H). exists f'.
    split; [exact R | exact H]. }
  destruct (traits_eq c undent_code) eqn:Eu.
  { assert (U : next (undent f) = next f /\
                at_start_of_line (undent f) = true /\
                pending_indent (undent f) = pending_indent f /\
                locale (undent f) = locale f).
    { unfold undent. destruct (indent_level f =? 0); auto. }
    destruct U as (U1 & U2 & U3 & U4).
    destruct (IH (undent f) (S idx) U2) as (f' & R & A & B & C & D).
    { rewrite U4. exact Hrest. }
    exists f'. split; [exact R|]. repeat split; congruence. }
  destruct Hc as [Hc|[Hc|Hc]]; try congruence.
  rewrite Hs, Hc. cbn [andb].
  destruct (IH f (S idx) Hs Hrest) as (f' & R & H). exists f'.
  split; [exact R | exact H].
Qed.

End FmtMore.

(** X3.  [xsputn], from any state and whatever the next buffer accepts:
    the count returned is at most the length of the run; the locale and
    [indent_increment] are as before; the next buffer keeps what it had
    received, in front of what it received now, and its readable data; a
    fault occurs only with a null [next]. *)
Theorem xsputn_frame f obuf :
  match Fmt.xsputn f obuf with
  | Ok (f', n) =>
      (n <= length obuf)%nat /\
      Fmt.locale f' = Fmt.locale f /\
      Fmt.indent_increment f' = Fmt.indent_increment f /\
      (exists new, output (Fmt.next f') = output (Fmt.next f) ++ new) /\
      option_map readable (Fmt.next f') = option_map readable (Fmt.next f) /\
      (Fmt.next f' = None <-> Fmt.next f = None)
  | Fault => Fmt.next f = None
  end.
Proof.
  assert (R : forall p q new, grows p q new ->
                option_map readable q = option_map readable p).
  { intros [x|] [y|] new; cbn; try tauto. intros (_ & _ & ->). reflexivity. }
  unfold Fmt.xsputn.
  assert (Ind :
    match (if 0 <? Fmt.pending_indent f
           then Fmt.do_indentation f (Fmt.pending_indent f)
           else Ok (f, 0)) with
    | Ok (f1, owed) =>
        (exists new, grows (Fmt.next f) (Fmt.next f1) new) /\
        Fmt.locale f1 = Fmt.locale f /\
        Fmt.indent_increment f1 = Fmt.indent_increment f
    | Fault => Fmt.next f = None
    end).
  { destruct (0 <? Fmt.pending_indent f).
    - pose proof (FmtFacts.do_indentation_spec f (Fmt.pending_indent f)) as H.
      destruct (Fmt.do_indentation _ _) as [[f1 owed]|]; [|exact H].
      destruct H as (new & G & _ & _ & _ & L & I & _). eauto.
    - split; [exists []; apply grows_refl | auto]. }
  destruct (if 0 <? Fmt.pending_indent f then _ else _) as [[f1 owed]|];
    cbn [bind]; [|exact Ind].
  destruct Ind as ((new1 & G1) & L1 & I1).
  destruct (negb (owed =? 0)).
  { split; [lia|]. split; [exact L1|]. split; [exact I1|].
    split; [exists new1; apply grows_output; exact G1|].
    split; [eapply R; exact G1 | eapply grows_null; exact G1]. }
  pose proof (FmtFacts.xsputn_loop_spec obuf f1 0%nat) as H.
  destruct (Fmt.xsputn_loop f1 0 obuf) as [[f' n]|].
  - destruct H as (new2 & G2 & _ & Rg & L2 & I2).
    pose proof (grows_trans _ _ _ _ _ G1 G2) as G.
    split; [lia|]. split; [congruence|]. split; [congruence|].
    split; [exists (new1 ++ new2); apply grows_output; exact G|].
    split; [eapply R; exact G | eapply grows_null; exact G].
  - apply (grows_null _ _ _ G1). exact H.
Qed.

(** X4.  On a buffer that takes everything [do_indentation] returns 0,
    owes nothing afterwards and delivers exactly [count] characters, of
    which number [i] (from 0) is a NUL when [i mod 17 = 16] and a blank
    otherwise: up to a count of 16 blanks only, from 17 on with the NUL that
    ends the array [spaces] in position 16. *)
Theorem do_indentation_delivers f b count :
  Fmt.next f = Some b -> accept b = accept_all ->
  exists f' new,
    Fmt.do_indentation f count = Ok (f', 0) /\
    output (Fmt.next f') = delivered b ++ new /\
    length new = N.to_nat count /\
    (forall i, (i < N.to_nat count)%nat ->
               nth i new space
               = if (i mod 17 =? 16)%nat then nul else space) /\
    (count <= 16 -> new = repeat space (N.to_nat count)) /\
    (17 <= count -> nth 16 new space = nul) /\
    Fmt.pending_indent f' = 0.
Proof.
  intros Hn Ha.
  destruct (FmtFacts.do_indentation_accept_all f b count Hn Ha)
    as (f' & b' & R & N' & D & _ & _ & _ & _ & _ & _ & P).
  exists f', (pad (N.to_nat count)). rewrite N'. cbn [output].
  assert (Nth : forall i, (i < N.to_nat count)%nat ->
                  nth i (pad (N.to_nat count)) space
                  = if (i mod 17 =? 16)%nat then nul else space).
  { intros i Hi. unfold pad.
    change space with (indentation_char 1) at 1.
    rewrite map_nth, seq_nth by exact Hi. reflexivity. }
  repeat split; auto.
  - apply FmtFacts.length_pad.
  - intros H. apply FmtFacts.pad_blanks. lia.
  - intros H. rewrite Nth by lia. reflexivity.
Qed.

Lemma do_indentation_delivers_witness :
  exists f' new,
    Fmt.do_indentation (Fmt.fresh (Some (sink accept_all))) 20 = Ok (f', 0) /\
    output (Fmt.next f') = delivered (sink accept_all) ++ new /\
    length new = N.to_nat 20 /\
    (forall i, (i < N.to_nat 20)%nat ->
               nth i new space
               = if (i mod 17 =? 16)%nat then nul else space) /\
    (20 <= 16 -> new = repeat space (N.to_nat 20)) /\
    (17 <= 20 -> nth 16 new space = nul) /\
    Fmt.pending_indent f' = 0.
Proof.
  apply (do_indentation_delivers (Fmt.fresh (Some (sink accept_all)))
           (sink accept_all) 20); reflexivity.
Defined.

(** X5.  When the next buffer takes fewer characters than the first chunk
    [do_indentation] offers ([min count 17]), [do_indentation] returns
    [count] and leaves [pending_indent = count]: the blanks the buffer did
    take are delivered and are owed again. *)
Theorem do_indentation_short_write f b count :
  Fmt.next f = Some b -> count <> 0 ->
  (accept b (calls b) (N.to_nat (N.min count 17))
   < N.to_nat (N.min count 17))%nat ->
  exists f',
    Fmt.do_indentation f count = Ok (f', count) /\
    Fmt.pending_indent f' = count /\
    output (Fmt.next f')
    = delivered b
      ++ repeat space (accept b (calls b) (N.to_nat (N.min count 17))) /\
    Fmt.at_start_of_line f' = Fmt.at_start_of_line f /\
    Fmt.indent_level f' = Fmt.indent_level f.
Proof.
  intros Hn Hc Hs. eexists. split.
  - apply FmtMore.do_indentation_short; eassumption.
  - repeat split.
Qed.

Lemma do_indentation_short_write_witness :
  exists f',
    Fmt.do_indentation (Fmt.fresh (Some (sink (accept_upto 3)))) 8
    = Ok (f', 8) /\
    Fmt.pending_indent f' = 8 /\
    output (Fmt.next f') = [] ++ repeat space 3 /\
    Fmt.at_start_of_line f' = true /\ Fmt.indent_level f' = 0.
Proof.
  apply (do_indentation_short_write (Fmt.fresh (Some (sink (accept_upto 3))))
           (sink (accept_upto 3)) 8).
  - reflexivity.
  - discriminate.
  - vm_compute. lia.
Defined.

(** X6.  A filter that owes indentation, in front of a buffer that takes
    [k] characters per call with [k] below the first chunk
    ([min pending_indent 17]), never gets further: every write of a
    non-empty run returns 0, so a caller that resubmits what was reported
    unprocessed still has the whole run after any number of tries, while the
    buffer has received [k] more blanks per try. *)
Theorem owed_indentation_stalls tries :
  forall f b k obuf,
    Fmt.next f = Some b -> accept b = accept_upto k ->
    0 < Fmt.pending_indent f ->
    (k < N.to_nat (N.min (Fmt.pending_indent f) 17))%nat ->
    obuf <> [] ->
    exists f',
      Fmt.resubmit tries f obuf = Ok (f', obuf) /\
      output (Fmt.next f') = delivered b ++ repeat space (tries * k) /\
      Fmt.pending_indent f' = Fmt.pending_indent f.
Proof.
  induction tries as [|tries IH]; intros f b k obuf Hn Ha Hp Hk Hne.
  { exists f. rewrite Hn. cbn. rewrite app_nil_r. auto. }
  cbn [Fmt.resubmit]. unfold Fmt.xsputn.
  apply N.ltb_lt in Hp. rewrite Hp. apply N.ltb_lt in Hp.
  assert (Acc : accept b (calls b)
                       (N.to_nat (N.min (Fmt.pending_indent f) 17)) = k).
  { rewrite Ha. unfold accept_upto. apply Nat.min_l. lia. }
  rewrite (FmtMore.do_indentation_short f b (Fmt.pending_indent f) Hn)
    by lia.
  rewrite Acc. cbn [bind].
  destruct (N.eqb_spec (Fmt.pending_indent f) 0) as [Z|_]; [lia|].
  cbn [negb skipn]. destruct obuf as [|c rest]; [contradiction|].
  set (b' := {| accept := accept b; calls := S (calls b);
                delivered := delivered b ++ repeat space k;
                readable := readable b |}).
  destruct (IH (Fmt.set_pending_indent (Fmt.set_next f (Some b'))
                  (Fmt.pending_indent f)) b' k (c :: rest))
    as (f' & R & O & P); auto.
  exists f'. split; [exact R|]. split; [|exact P].
  rewrite O. cbn [delivered b' Nat.mul]. rewrite <- app_assoc, repeat_app.
  reflexivity.
Qed.

Lemma owed_indentation_stalls_witness :
  exists f',
    Fmt.resubmit 5 (stalled (sink (accept_upto 1))) (chars "B")
    = Ok (f', chars "B") /\
    output (Fmt.next f')
    = delivered (sink (accept_upto 1)) ++ repeat space (5 * 1) /\
    Fmt.pending_indent f' = Fmt.pending_indent (stalled (sink (accept_upto 1))).
Proof.
  apply (owed_indentation_stalls 5 (stalled (sink (accept_upto 1)))
           (sink (accept_upto 1)) 1 (chars "B")).
  - reflexivity.
  - reflexivity.
  - reflexivity.
  - vm_compute. lia.
  - discriminate.
Defined.

(** X7.  A run of marks and whitespace only, written at start of line with
    nothing owed, is consumed whole without the next buffer being used at
    all, a null one included; the filter stays at start of line. *)
Theorem skipped_run_leaves_sink_alone f obuf :
  Fmt.at_start_of_line f = true -> Fmt.pending_indent f = 0 ->
  Forall (fun c => traits_eq c indent_code = true \/
                   traits_eq c undent_code = true \/
                   Fmt.locale f c = true) obuf ->
  exists f',
    Fmt.xsputn f obuf = Ok (f', length obuf) /\
    Fmt.next f' = Fmt.next f /\ Fmt.at_start_of_line f' = true /\
    Fmt.pending_indent f' = 0.
Proof.
  intros Hs Hp Hall. unfold Fmt.xsputn. rewrite Hp.
  cbn [N.ltb N.compare bind N.eqb negb].
  destruct (FmtMore.skipped_run_loop obuf f 0%nat Hs Hall)
    as (f' & R & A & B & C & _).
  exists f'. cbn in R. repeat split; auto. congruence.
Qed.

Lemma skipped_run_leaves_sink_alone_witness :
  exists f',
    Fmt.xsputn (Fmt.fresh None) [space; indent_code; end_of_line; undent_code]
    = Ok (f', 4%nat) /\
    Fmt.next f' = None /\ Fmt.at_start_of_line f' = true /\
    Fmt.pending_indent f' = 0.
Proof.
  apply (skipped_run_leaves_sink_alone (Fmt.fresh None)
           [space; indent_code; end_of_line; undent_code]).
  - reflexivity.
  - reflexivity.
  - apply Forall_cons; [right; right; reflexivity|].
    apply Forall_cons; [left; reflexivity|].
    apply Forall_cons; [right; right; reflexivity|].
    apply Forall_cons; [right; left; reflexivity|].
    apply Forall_nil.
Defined.

(** ** Next buffers that take every chunk *)

Module FmtChunks.
Import Fmt.

Lemma sputn_takes_chunks b s :
  takes_chunks (accept b) -> (length s <= 17)%nat ->
  exists b',
    sputn (Some b) s = Ok (Some b', length s) /\
    delivered b' = delivered b ++ s /\ accept b' = accept b /\
    readable b' = readable b.
Proof.
  intros A L. unfold sputn, streambuf_sputn.
  rewrite Nat.min_l by (apply A; exact L). rewrite firstn_all.
  eexists; split; [reflexivity|]. cbn. auto.
Qed.

Lemma indentation_loop_chunks fuel :
  forall f b,
    next f = Some b -> takes_chunks (accept b) ->
    (N.to_nat (pending_indent f) <= fuel)%nat ->
    exists f' b',
      indentation_loop fuel f = Ok (f', 0) /\
      next f' = Some b' /\
      delivered b' = delivered b ++ pad (N.to_nat (pending_indent f)) /\
      accept b' = accept b /\ readable b' = readable b /\
      at_start_of_line f' = at_start_of_line f /\
      indent_level f' = indent_level f /\
      locale f' = locale f /\
      indent_increment f' = indent_increment f /\
      pending_indent f' = 0.
Proof.
  induction fuel as [|fuel IH]; intros f b Hn Ha Hf; cbn [indentation_loop].
  - assert (E : pending_indent f = 0) by lia.
    rewrite E. exists f, b. cbn. rewrite app_nil_r. repeat split; auto.
  - destruct (N.eqb_spec (pending_indent f) 0) as [E|E].
    { exists f, b. rewrite E. cbn. rewrite app_nil_r. repeat split; auto. }
    set (m := N.min (pending_indent f) spaces_count).
    assert (Hm : 0 < m <= pending_indent f /\ m <= 17).
    { unfold m. rewrite FmtFacts.spaces_count_17. lia. }
    assert (Em : N.to_nat m = Nat.min (N.to_nat (pending_indent f)) 17).
    { unfold m. rewrite FmtFacts.spaces_count_17. lia. }
    assert (L : length (firstn (N.to_nat m) spaces) = N.to_nat m).
    { rewrite length_firstn. apply Nat.min_l.
      change (length spaces) with 17%nat. lia. }
    rewrite Hn.
    destruct (sputn_takes_chunks b (firstn (N.to_nat m) spaces) Ha)
      as (b1 & Sp & D1 & A1 & R1); [rewrite L; lia|].
    rewrite Sp. cbn [bind].
    rewrite L, N2Nat.id, N.eqb_refl.
    destruct (IH (set_pending_indent (set_next f (Some b1))
                    (pending_indent (set_next f (Some b1)) - m)) b1)
      as (f' & b' & R & N' & D' & A' & R' & X1 & X2 & X3 & X4 & X5);
      [reflexivity | rewrite A1; exact Ha | cbn; lia |].
    exists f', b'. cbn in D', X1, X2, X3, X4.
    repeat split; auto; try congruence.
    rewrite D', D1, <- app_assoc. f_equal.
    rewrite (FmtFacts.pad_chunk (N.to_nat (pending_indent f))), <- Em.
    f_equal. f_equal. lia.
Qed.

Lemma xsputn_loop_chunks l :
  forall f b idx,
    next f = Some b -> takes_chunks (accept b) ->
    exists f' b',
      xsputn_loop f idx l = Ok (f', (idx + length l)%nat) /\
      next f' = Some b' /\
      delivered b'
      = delivered b
        ++ fst (transduce pad (locale f) (indent_increment f)
                          (at_start_of_line f) (indent_level f) l) /\
      accept b' = accept b /\ readable b' = readable b /\
      (at_start_of_line f', indent_level f')
      = snd (transduce pad (locale f) (indent_increment f)
                       (at_start_of_line f) (indent_level f) l) /\
      locale f' = locale f /\
      indent_increment f' = indent_increment f.
Proof.
  induction l as [|c rest IH]; intros f b idx Hn Ha;
    cbn [xsputn_loop transduce length].
  { exists f, b. rewrite Nat.add_0_r. cbn. rewrite app_nil_r.
    repeat split; auto. }
  rewrite <- Nat.add_succ_comm.
  destruct (traits_eq c indent_code) eqn:Ei.
  { destruct (IH (indent f) b (S idx) Hn Ha) as (f' & b' & H). exists f', b'.
    exact H. }
  destruct (traits_eq c undent_code) eqn:Eu.
  { assert (U : next (undent f) = Some b /\
                locale (undent f) = locale f /\
                indent_increment (undent f) = indent_increment f /\
                at_start_of_line (undent f) = at_start_of_line f /\
                indent_level (undent f)
                = (if indent_level f =? 0 then 0 else indent_level f - 1)).
    { unfold undent. destruct (N.eqb_spec (indent_level f) 0) as [E|E];
        repeat split; auto. }
    destruct U as (U1 & U2 & U3 & U4 & U5).
    destruct (IH (undent f) b (S idx) U1 Ha) as (f' & b' & H).
    rewrite U2, U3, U4, U5 in H. exists f', b'. exact H. }
  destruct (at_start_of_line f && locale f c) eqn:Ew.
  { destruct (IH f b (S idx) Hn Ha) as (f' & b' & H). exists f', b'. exact H. }
  destruct (transduce pad (locale f) (indent_increment f)
              (traits_eq c end_of_line) (indent_level f) rest)
    as [out st] eqn:T.
  cbn [fst snd].
  assert (Ind : exists f1 b1,
             (if at_start_of_line f
              then do_indentation f
                     ((indent_level f * indent_increment f) mod size_max)
              else Ok (f, 0)) = Ok (f1, 0) /\
             next f1 = Some b1 /\
             delivered b1
             = delivered b
               ++ (if at_start_of_line f
                   then pad (N.to_nat
                          ((indent_level f * indent_increment f) mod size_max))
                   else []) /\
             accept b1 = accept b /\ readable b1 = readable b /\
             indent_level f1 = indent_level f /\
             locale f1 = locale f /\
             indent_increment f1 = indent_increment f).
  { destruct (at_start_of_line f).
    - unfold do_indentation.
      destruct (indentation_loop_chunks
                  (N.to_nat ((indent_level f * indent_increment f) mod size_max))
                  (set_pending_indent f
                     ((indent_level f * indent_increment f) mod size_max))
                  b Hn Ha)
        as (f1 & b1 & R & N1 & D1 & A1 & R1 & _ & X2 & X3 & X4 & _);
        [cbn; lia|].
      exists f1, b1. repeat split; auto.
    - exists f, b. rewrite app_nil_r. repeat split; auto. }
  destruct Ind as (f1 & b1 & R & N1 & D1 & A1 & R1 & X2 & X3 & X4).
  rewrite R. cbn [bind N.eqb negb next set_at_start_of_line]. rewrite N1.
  destruct (sputn_takes_chunks b1 [c]) as (b2 & Sp & D2 & A2 & R2);
    [rewrite A1; exact Ha | cbn; lia |].
  rewrite Sp. cbn [bind length Nat.eqb negb].
  destruct (IH (set_next (set_at_start_of_line f1 (traits_eq c end_of_line))
                         (Some b2)) b2 (S idx) eq_refl)
    as (f' & b' & L & N' & D' & A' & R' & St & Y3 & Y4);
    [rewrite A2, A1; exact Ha|].
  cbn [set_next set_at_start_of_line at_start_of_line indent_level locale
         indent_increment pending_indent] in D', St, Y3, Y4.
  rewrite X2, X3, X4, T in D', St.
  cbn [fst snd] in D', St.
  exists f', b'. repeat split; auto; try congruence.
  rewrite D', D2, D1, <- !app_assoc. reflexivity.
Qed.

Lemma xsputn_chunks f b obuf :
  next f = Some b -> takes_chunks (accept b) ->
  exists f' b',
    xsputn f obuf = Ok (f', length obuf) /\
    next f' = Some b' /\
    delivered b'
    = delivered b
      ++ pad (N.to_nat (pending_indent f))
      ++ fst (transduce pad (locale f) (indent_increment f)
                        (at_start_of_line f) (indent_level f) obuf) /\
    (at_start_of_line f', indent_level f')
    = snd (transduce pad (locale f) (indent_increment f)
                     (at_start_of_line f) (indent_level f) obuf).
Proof.
  intros Hn Ha. unfold xsputn.
  assert (Ind : exists f1 b1,
             (if 0 <? pending_indent f
              then do_indentation f (pending_indent f)
              else Ok (f, 0)) = Ok (f1, 0) /\
             next f1 = Some b1 /\
             delivered b1 = delivered b ++ pad (N.to_nat (pending_indent f)) /\
             accept b1 = accept b /\
             at_start_of_line f1 = at_start_of_line f /\
             indent_level f1 = indent_level f /\
             locale f1 = locale f /\
             indent_increment f1 = indent_increment f).
  { destruct (N.ltb_spec 0 (pending_indent f)) as [P|P].
    - unfold do_indentation.
      destruct (indentation_loop_chunks (N.to_nat (pending_indent f))
                  (set_pending_indent f (pending_indent f)) b Hn Ha)
        as (f1 & b1 & R & N1 & D1 & A1 & _ & X1 & X2 & X3 & X4 & _);
        [cbn; lia|].
      exists f1, b1. repeat split; auto.
    - assert (E : pending_indent f = 0) by lia.
      exists f, b. rewrite E. cbn. rewrite app_nil_r. repeat split; auto. }
  destruct Ind as (f1 & b1 & R & N1 & D1 & A1 & X1 & X2 & X3 & X4).
  rewrite R. cbn [bind N.eqb negb].
  destruct (xsputn_loop_chunks obuf f1 b1 0%nat N1)
    as (f' & b' & L & N' & D' & _ & _ & St & _);
    [rewrite A1; exact Ha|].
  rewrite X1, X2, X3, X4 in D', St.
  exists f', b'. cbn in L. repeat split; auto.
  rewrite D', D1, <- app_assoc. reflexivity.
Qed.

Lemma takes_chunks_accept_all : takes_chunks accept_all.
Proof. intros i n _. unfold accept_all. lia. Qed.

Lemma takes_chunks_accept_upto k : (17 <= k)%nat -> takes_chunks (accept_upto k).
Proof. intros H i n L. unfold accept_upto. lia. Qed.

End FmtChunks.

(** X8.  Partial acceptance with chunks of seventeen: behind a next
    buffer that never refuses a run of up to 17 characters (one that takes
    [k >= 17] characters per call, for instance) [xsputn] processes every
    run whole, and delivers and leaves the line state and level exactly as
    it does behind a buffer that takes everything; the caller of the retry
    protocol is done after the first write. *)
Theorem chunk_taking_sink_is_enough f b obuf :
  takes_chunks (accept b) ->
  exists f1 f2,
    Fmt.xsputn (Fmt.set_next f (Some b)) obuf = Ok (f1, length obuf) /\
    Fmt.xsputn (Fmt.set_next f (Some (with_accept b accept_all))) obuf
    = Ok (f2, length obuf) /\
    output (Fmt.next f1) = output (Fmt.next f2) /\
    Fmt.at_start_of_line f1 = Fmt.at_start_of_line f2 /\
    Fmt.indent_level f1 = Fmt.indent_level f2 /\
    Fmt.resubmit 1 (Fmt.set_next f (Some b)) obuf = Ok (f1, []).
Proof.
  intros Ha.
  destruct (FmtChunks.xsputn_chunks (Fmt.set_next f (Some b)) b obuf
              eq_refl Ha) as (f1 & b1 & R1 & N1 & D1 & St1).
  destruct (FmtChunks.xsputn_chunks
              (Fmt.set_next f (Some (with_accept b accept_all)))
              (with_accept b accept_all) obuf eq_refl
              FmtChunks.takes_chunks_accept_all)
    as (f2 & b2 & R2 & N2 & D2 & St2).
  exists f1, f2. rewrite N1, N2. cbn [output].
  cbn [Fmt.set_next Fmt.locale Fmt.indent_increment Fmt.at_start_of_line
         Fmt.indent_level Fmt.pending_indent with_accept delivered]
    in D1, D2, St1, St2.
  split; [exact R1|]. split; [exact R2|].
  split; [congruence|].
  assert (E : (Fmt.at_start_of_line f1, Fmt.indent_level f1)
              = (Fmt.at_start_of_line f2, Fmt.indent_level f2))
    by congruence.
  injection E as E1 E2.
  split; [exact E1|]. split; [exact E2|].
  cbn [Fmt.resubmit]. rewrite R1. cbn [bind]. rewrite skipn_all. reflexivity.
Qed.

Lemma chunk_taking_sink_is_enough_witness :
  exists f1 f2,
    Fmt.xsputn (Fmt.set_next (Fmt.fresh None) (Some (sink (accept_upto 17))))
               (concat scenario_runs)
    = Ok (f1, length (concat scenario_runs)) /\
    Fmt.xsputn (Fmt.set_next (Fmt.fresh None)
                  (Some (with_accept (sink (accept_upto 17)) accept_all)))
               (concat scenario_runs)
    = Ok (f2, length (concat scenario_runs)) /\
    output (Fmt.next f1) = output (Fmt.next f2) /\
    Fmt.at_start_of_line f1 = Fmt.at_start_of_line f2 /\
    Fmt.indent_level f1 = Fmt.indent_level f2 /\
    Fmt.resubmit 1 (Fmt.set_next (Fmt.fresh None)
                      (Some (sink (accept_upto 17))))
                 (concat scenario_runs) = Ok (f1, []).
Proof.
  apply (chunk_taking_sink_is_enough (Fmt.fresh None)
           (sink (accept_upto 17)) (concat scenario_runs)).
  apply FmtChunks.takes_chunks_accept_upto. apply Nat.le_refl.
Defined.

(** X9.  Successive writes compose: on a buffer that takes everything,
    writing the runs one after the other delivers what one write of their
    concatenation delivers, and leaves the same line state and level; every
    write reports its whole run processed and nothing is owed at the end. *)
Theorem successive_writes_compose f b runs :
  Fmt.next f = Some b -> accept b = accept_all -> Fmt.pending_indent f = 0 ->
  exists f1 f2,
    Fmt.write_runs f runs = Ok (f1, map (@length char_type) runs) /\
    Fmt.xsputn f (concat runs) = Ok (f2, length (concat runs)) /\
    output (Fmt.next f1) = output (Fmt.next f2) /\
    Fmt.at_start_of_line f1 = Fmt.at_start_of_line f2 /\
    Fmt.indent_level f1 = Fmt.indent_level f2 /\
    Fmt.pending_indent f1 = 0 /\ Fmt.pending_indent f2 = 0.
Proof.
  intros Hn Ha Hp.
  destruct (FmtFacts.write_runs_accept_all runs f b Hn Ha Hp)
    as (f1 & b1 & R1 & N1 & D1 & _ & _ & St1 & _ & _ & P1).
  destruct (FmtFacts.xsputn_accept_all f b (concat runs) Hn Ha)
    as (f2 & b2 & R2 & N2 & D2 & _ & _ & St2 & _ & _ & P2).
  rewrite Hp in D2. cbn [N.to_nat pad seq map app] in D2.
  exists f1, f2. rewrite N1, N2. cbn [output].
  assert (E : (Fmt.at_start_of_line f1, Fmt.indent_level f1)
              = (Fmt.at_start_of_line f2, Fmt.indent_level f2))
    by congruence.
  injection E as E1 E2.
  repeat split; auto; congruence.
Qed.

Lemma successive_writes_compose_witness :
  exists f1 f2,
    Fmt.write_runs (Fmt.fresh (Some (sink accept_all))) scenario_runs
    = Ok (f1, map (@length char_type) scenario_runs) /\
    Fmt.xsputn (Fmt.fresh (Some (sink accept_all))) (concat scenario_runs)
    = Ok (f2, length (concat scenario_runs)) /\
    output (Fmt.next f1) = output (Fmt.next f2) /\
    Fmt.at_start_of_line f1 = Fmt.at_start_of_line f2 /\
    Fmt.indent_level f1 = Fmt.indent_level f2 /\
    Fmt.pending_indent f1 = 0 /\ Fmt.pending_indent f2 = 0.
Proof.
  apply (successive_writes_compose (Fmt.fresh (Some (sink accept_all)))
           (sink accept_all) scenario_runs); reflexivity.
Defined.

(** X10.  Partial acceptance for the filter on the chaining buffer:
    [filter_write] sends single characters, so behind any next buffer that
    never refuses a single character (one that takes [k >= 1] characters per
    call, for instance) it processes the run whole and delivers and leaves
    the line state and level exactly as behind a buffer that takes
    everything. *)
Theorem filter_write_partial_acceptance f b obuf :
  accepts_one (accept b) ->
  exists f1 f2,
    FmtChain.filter_write (FmtChain.set_next f (Some b)) obuf
    = Ok (f1, Z.of_nat (length obuf)) /\
    FmtChain.filter_write
      (FmtChain.set_next f (Some (with_accept b accept_all))) obuf
    = Ok (f2, Z.of_nat (length obuf)) /\
    output (FmtChain.next f1) = output (FmtChain.next f2) /\
    FmtChain.at_start_of_line f1 = FmtChain.at_start_of_line f2 /\
    FmtChain.indent_level f1 = FmtChain.indent_level f2.
Proof.
  intros Ha.
  destruct (FmtChainFacts.filter_write_accepts_one
              (FmtChain.set_next f (Some b)) b obuf eq_refl Ha)
    as (f1 & b1 & R1 & N1 & D1 & St1).
  destruct (FmtChainFacts.filter_write_accepts_one
              (FmtChain.set_next f (Some (with_accept b accept_all)))
              (with_accept b accept_all) obuf eq_refl)
    as (f2 & b2 & R2 & N2 & D2 & St2).
  { intros i. unfold with_accept, accept_all. cbn. lia. }
  exists f1, f2. rewrite N1, N2. cbn [output].
  cbn [FmtChain.set_next FmtChain.set_base FmtChain.locale
         FmtChain.indent_increment FmtChain.at_start_of_line
         FmtChain.indent_level with_accept delivered] in D1, D2, St1, St2.
  split; [exact R1|]. split; [exact R2|].
  split; [congruence|].
  assert (E : (FmtChain.at_start_of_line f1, FmtChain.indent_level f1)
              = (FmtChain.at_start_of_line f2, FmtChain.indent_level f2))
    by congruence.
  injection E as E1 E2. auto.
Qed.

Lemma filter_write_partial_acceptance_witness :
  exists f1 f2,
    FmtChain.filter_write
      (FmtChain.set_next
         {| FmtChain.filter_streambuf_base := full_buffer;
            FmtChain.indent_increment := 4;
            FmtChain.at_start_of_line := true;
            FmtChain.indent_level := 1;
            FmtChain.locale := isspace_classic |}
         (Some (sink (accept_upto 1)))) (chars "B")
    = Ok (f1, Z.of_nat (length (chars "B"))) /\
    FmtChain.filter_write
      (FmtChain.set_next
         {| FmtChain.filter_streambuf_base := full_buffer;
            FmtChain.indent_increment := 4;
            FmtChain.at_start_of_line := true;
            FmtChain.indent_level := 1;
            FmtChain.locale := isspace_classic |}
         (Some (with_accept (sink (accept_upto 1)) accept_all))) (chars "B")
    = Ok (f2, Z.of_nat (length (chars "B"))) /\
    output (FmtChain.next f1) = output (FmtChain.next f2) /\
    FmtChain.at_start_of_line f1 = FmtChain.at_start_of_line f2 /\
    FmtChain.indent_level f1 = FmtChain.indent_level f2.
Proof.
  apply filter_write_partial_acceptance.
  intros i. cbn. apply Nat.le_refl.
Defined.

(** ** Comparing the two filters, and blocks *)

Module TransducerMore.

Lemma transduce_fill_ext fill1 fill2 isspace inc :
  (forall n, (n <= 16)%nat -> fill1 n = fill2 n) ->
  forall l start level,
    (level + indents_in l) * inc <= 16 ->
    transduce fill1 isspace inc start level l
    = transduce fill2 isspace inc start level l.
Proof.
  intros Hfill. induction l as [|c rest IH]; intros start level H;
    cbn [transduce indents_in] in *; [reflexivity|].
  destruct (traits_eq c indent_code) eqn:Ei.
  { apply IH. pose proof (N.Div0.mod_le (level + 1) size_max) as M.
    eapply N.le_trans; [|exact H]. apply N.mul_le_mono_r. lia. }
  destruct (traits_eq c undent_code) eqn:Eu.
  { apply IH. eapply N.le_trans; [|exact H]. apply N.mul_le_mono_r.
    destruct (level =? 0); lia. }
  destruct (start && isspace c); [apply IH; exact H|].
  rewrite (IH (traits_eq c end_of_line) level H).
  destruct (transduce fill2 isspace inc (traits_eq c end_of_line) level rest)
    as [out st].
  destruct start; [|reflexivity].
  rewrite Hfill; [reflexivity|].
  pose proof (N.Div0.mod_le (level * inc) size_max) as M.
  assert (level * inc <= (level + indents_in rest) * inc)
    by (apply N.mul_le_mono_r; lia).
  lia.
Qed.

Lemma transduce_level fill isspace inc l :
  forall start level,
    snd (snd (transduce fill isspace inc start level l)) = level_after level l.
Proof.
  induction l as [|c rest IH]; intros start level;
    cbn [transduce level_after]; [reflexivity|].
  destruct (traits_eq c indent_code); [apply IH|].
  destruct (traits_eq c undent_code); [apply IH|].
  destruct (start && isspace c); [apply IH|].
  specialize (IH (traits_eq c end_of_line) level).
  destruct (transduce fill isspace inc (traits_eq c end_of_line) level rest)
    as [out st].
  exact IH.
Qed.

Lemma level_after_app a :
  forall level b,
    level_after level (a ++ b) = level_after (level_after level a) b.
Proof.
  induction a as [|c a IH]; intros level b; cbn [app level_after];
    [reflexivity|].
  destruct (traits_eq c indent_code); [apply IH|].
  destruct (traits_eq c undent_code); apply IH.
Qed.

Lemma level_after_content a :
  Forall not_mark a -> forall level, level_after level a = level.
Proof.
  induction 1 as [|c a Hc Ha IH]; intros level; cbn [level_after];
    [reflexivity|].
  destruct (not_mark_eqb c Hc) as [-> ->]. apply IH.
Qed.

(** The level after a block: opening bracket, content, closing bracket. *)
Lemma level_after_block level o body tail :
  level + 1 < size_max ->
  not_mark o -> Forall not_mark body -> Forall not_mark tail ->
  level_after level
    (Fmt.basic_begin o ++ body ++ undent_code :: end_of_line :: tail)
  = level.
Proof.
  intros Hl Ho Hb Ht.
  rewrite level_after_app.
  assert (B : level_after level (Fmt.basic_begin o) = level + 1).
  { unfold Fmt.basic_begin. cbn [level_after].
    destruct (not_mark_eqb o Ho) as [-> ->].
    change (traits_eq indent_code indent_code) with true. cbn iota.
    change (traits_eq end_of_line indent_code) with false.
    change (traits_eq end_of_line undent_code) with false. cbn iota.
    apply N.mod_small. exact Hl. }
  rewrite B, level_after_app, (level_after_content body Hb).
  cbn [level_after].
  change (traits_eq undent_code indent_code) with false.
  change (traits_eq undent_code undent_code) with true. cbn iota.
  change (traits_eq end_of_line indent_code) with false.
  change (traits_eq end_of_line undent_code) with false. cbn iota.
  rewrite (level_after_content tail Ht).
  destruct (N.eqb_spec (level + 1) 0); lia.
Qed.

End TransducerMore.

(** X11.  The two indent filters agree as long as no indentation is wider
    than 16: started in the same state on buffers that take everything, with
    [(indent_level + number of IndentMarks in the run) * indent_increment]
    at most 16, [xsputn] and [filter_write] both process the run whole,
    deliver the same characters and end in the same line state and level. *)
Theorem the_two_filters_agree f g b b' obuf :
  Fmt.next f = Some b -> FmtChain.next g = Some b' ->
  accept b = accept_all -> accept b' = accept_all ->
  delivered b = delivered b' ->
  Fmt.pending_indent f = 0 ->
  Fmt.locale f = FmtChain.locale g ->
  Fmt.indent_increment f = FmtChain.indent_increment g ->
  Fmt.at_start_of_line f = FmtChain.at_start_of_line g ->
  Fmt.indent_level f = FmtChain.indent_level g ->
  (Fmt.indent_level f + indents_in obuf) * Fmt.indent_increment f <= 16 ->
  exists f' g',
    Fmt.xsputn f obuf = Ok (f', length obuf) /\
    FmtChain.filter_write g obuf = Ok (g', Z.of_nat (length obuf)) /\
    output (Fmt.next f') = output (FmtChain.next g') /\
    Fmt.at_start_of_line f' = FmtChain.at_start_of_line g' /\
    Fmt.indent_level f' = FmtChain.indent_level g'.
Proof.
  intros Hn Hn' Ha Ha' Hd Hp El Ei Es Ev Hw.
  destruct (FmtFacts.xsputn_accept_all f b obuf Hn Ha)
    as (f' & b1 & R1 & N1 & D1 & _ & _ & St1 & _).
  destruct (FmtChainFacts.filter_write_accepts_one g b' obuf Hn')
    as (g' & b2 & R2 & N2 & D2 & St2).
  { rewrite Ha'. intros i. unfold accept_all. lia. }
  rewrite Hp in D1. cbn [N.to_nat pad seq map app] in D1.
  rewrite (TransducerMore.transduce_fill_ext pad (repeat space)
             (Fmt.locale f) (Fmt.indent_increment f)
             (fun n H => FmtFacts.pad_blanks n H) obuf _ _ Hw) in D1, St1.
  rewrite El, Ei, Es, Ev in D1, St1.
  exists f', g'. rewrite N1, N2. cbn [output].
  split; [exact R1|]. split; [exact R2|]. split; [congruence|].
  assert (E : (Fmt.at_start_of_line f', Fmt.indent_level f')
              = (FmtChain.at_start_of_line g', FmtChain.indent_level g'))
    by congruence.
  injection E as E1 E2. auto.
Qed.

Lemma the_two_filters_agree_witness :
  exists f' g',
    Fmt.xsputn (Fmt.fresh (Some (sink accept_all))) (concat scenario_runs)
    = Ok (f', length (concat scenario_runs)) /\
    FmtChain.filter_write
      {| FmtChain.filter_streambuf_base :=
           Exp.set_next full_buffer (Some (sink accept_all));
         FmtChain.indent_increment := 4;
         FmtChain.at_start_of_line := true;
         FmtChain.indent_level := 0;
         FmtChain.locale := isspace_classic |}
      (concat scenario_runs)
    = Ok (g', Z.of_nat (length (concat scenario_runs))) /\
    output (Fmt.next f') = output (FmtChain.next g') /\
    Fmt.at_start_of_line f' = FmtChain.at_start_of_line g' /\
    Fmt.indent_level f' = FmtChain.indent_level g'.
Proof.
  apply (the_two_filters_agree (Fmt.fresh (Some (sink accept_all))) _
           (sink accept_all) (sink accept_all) (concat scenario_runs));
    try reflexivity.
  vm_compute. discriminate.
Defined.

(** X12.  Blocks restore the level.  On a buffer that takes everything,
    with the level below [2^64 - 1], a run made of [begin(o)], content
    without marks and [end(c)] is processed whole and leaves the filter at
    the level it had, at start of line and owing nothing; with [sft_end(c)]
    in place of [end(c)] the level is restored as well. *)
Theorem block_restores_level f b o c body :
  Fmt.next f = Some b -> accept b = accept_all ->
  Fmt.locale f end_of_line = true ->
  Fmt.indent_level f + 1 < size_max ->
  not_mark o -> not_mark c -> Forall not_mark body ->
  (exists f',
      Fmt.xsputn f (Fmt.basic_begin o ++ body ++ Fmt.basic_end c)
      = Ok (f', length (Fmt.basic_begin o ++ body ++ Fmt.basic_end c)) /\
      Fmt.indent_level f' = Fmt.indent_level f /\
      Fmt.at_start_of_line f' = true /\
      Fmt.pending_indent f' = 0) /\
  (exists f',
      Fmt.xsputn f (Fmt.basic_begin o ++ body ++ Fmt.basic_sft_end c)
      = Ok (f', length (Fmt.basic_begin o ++ body ++ Fmt.basic_sft_end c)) /\
      Fmt.indent_level f' = Fmt.indent_level f /\
      Fmt.pending_indent f' = 0).
Proof.
  intros Hn Ha Hl Hv Ho Hc Hb. split.
  - destruct (FmtFacts.xsputn_accept_all f b
                (Fmt.basic_begin o ++ body ++ Fmt.basic_end c) Hn Ha)
      as (f' & b' & R & _ & _ & _ & _ & St & _ & _ & P).
    exists f'. split; [exact R|].
    split; [|split; [|exact P]].
    + replace (Fmt.indent_level f')
        with (snd (snd (transduce pad (Fmt.locale f) (Fmt.indent_increment f)
                          (Fmt.at_start_of_line f) (Fmt.indent_level f)
                          (Fmt.basic_begin o ++ body ++ Fmt.basic_end c))))
        by (rewrite <- St; reflexivity).
      rewrite TransducerMore.transduce_level.
      apply TransducerMore.level_after_block; auto.
      repeat constructor; try apply Hc; discriminate.
    + replace (Fmt.at_start_of_line f')
        with (fst (snd (transduce pad (Fmt.locale f) (Fmt.indent_increment f)
                          (Fmt.at_start_of_line f) (Fmt.indent_level f)
                          (Fmt.basic_begin o ++ body ++ Fmt.basic_end c))))
        by (rewrite <- St; reflexivity).
      replace (Fmt.basic_begin o ++ body ++ Fmt.basic_end c)
        with ((Fmt.basic_begin o ++ body ++ [undent_code; end_of_line; c])
                ++ [end_of_line])
        by (unfold Fmt.basic_end; rewrite <- !app_assoc; reflexivity).
      apply transduce_after_eol. exact Hl.
  - destruct (FmtFacts.xsputn_accept_all f b
                (Fmt.basic_begin o ++ body ++ Fmt.basic_sft_end c) Hn Ha)
      as (f' & b' & R & _ & _ & _ & _ & St & _ & _ & P).
    exists f'. split; [exact R|]. split; [|exact P].
    replace (Fmt.indent_level f')
      with (snd (snd (transduce pad (Fmt.locale f) (Fmt.indent_increment f)
                        (Fmt.at_start_of_line f) (Fmt.indent_level f)
                        (Fmt.basic_begin o ++ body ++ Fmt.basic_sft_end c))))
      by (rewrite <- St; reflexivity).
    rewrite TransducerMore.transduce_level.
    apply TransducerMore.level_after_block; auto.
Qed.

Lemma block_restores_level_witness :
  exists f',
    Fmt.xsputn (Fmt.fresh (Some (sink accept_all)))
               (Fmt.basic_begin "{"%char ++ chars "B" ++ Fmt.basic_end "}"%char)
    = Ok (f', length (Fmt.basic_begin "{"%char ++ chars "B"
                        ++ Fmt.basic_end "}"%char)) /\
    Fmt.indent_level f' = Fmt.indent_level (Fmt.fresh (Some (sink accept_all))) /\
    Fmt.at_start_of_line f' = true /\
    Fmt.pending_indent f' = 0.
Proof.
  apply (block_restores_level (Fmt.fresh (Some (sink accept_all)))
           (sink accept_all) "{"%char "}"%char (chars "B")).
  - reflexivity.
  - reflexivity.
  - reflexivity.
  - reflexivity.
  - split; discriminate.
  - split; discriminate.
  - repeat constructor; discriminate.
Defined.

(** ** The chaining buffer at work *)

Module ExpMore.
Import Exp.

Lemma firstn_store_snoc a :
  forall p c, (p < length a)%nat ->
              firstn (S p) (store a p c) = firstn p a ++ [c].
Proof.
  induction a as [|h t IH]; intros [|p] c H; cbn [length] in H;
    try lia; cbn [store firstn app].
  - reflexivity.
  - f_equal. apply IH. lia.
Qed.

Lemma int_to_char_to_int c : int_to_char (to_int_type c) = c.
Proof.
  unfold int_to_char, to_int_type.
  pose proof (N_ascii_bounded c) as B.
  rewrite Z.mod_small by lia.
  rewrite N2Z.id. apply ascii_N_embedding.
Qed.

Lemma to_int_type_not_eof c : (to_int_type c =? eof)%Z = false.
Proof. unfold to_int_type, eof. apply Z.eqb_neq. lia. Qed.

(** [overflow]'s test passes for every character but NUL. *)
Lemma not_eof_char c : c <> nul -> (not_eof (to_int_type c) =? 0)%Z = false.
Proof.
  intros Hc. unfold not_eof. rewrite to_int_type_not_eof.
  apply Z.eqb_neq. intros E. apply Hc.
  rewrite <- (ascii_N_embedding c). unfold nul. f_equal.
  unfold to_int_type in E. lia.
Qed.

Lemma not_eof_nul : (not_eof (to_int_type nul) =? 0)%Z = true.
Proof. reflexivity. Qed.

(** A flush of which the next buffer takes all that was waiting. *)
Lemma sync_base_full (b : basic_filter_streambuf) sb :
  next b = Some sb ->
  (pptr b <= length (obuf b))%nat ->
  (pptr b <= accept sb (calls sb) (pptr b))%nat ->
  sync b
  = Ok (setp (set_next b
                (Some {| accept := accept sb; calls := S (calls sb);
                         delivered := delivered sb ++ waiting b;
                         readable := readable sb |})), 0%Z).
Proof.
  intros Hn Hl Ha.
  assert (L : length (firstn (pptr b) (obuf b)) = pptr b).
  { rewrite length_firstn. apply Nat.min_l. exact Hl. }
  unfold sync. cbn [filter_write base set_base base_class].
  unfold base_filter_write. rewrite Hn.
  unfold sputn, streambuf_sputn. rewrite L.
  rewrite Nat.min_l by exact Ha. cbn [bind].
  destruct (Z.ltb_spec (Z.of_nat (pptr b)) 0) as [Neg|_]; [lia|].
  rewrite Z.eqb_refl.
  unfold waiting. rewrite firstn_all2 by (rewrite L; apply Nat.le_refl).
  reflexivity.
Qed.

(** One character through the inherited [sputc], the next buffer taking
    everything: the character joins what is waiting, after a flush when the
    array was full. *)
Lemma put_char_base fuel (b : basic_filter_streambuf) sb c :
  c <> nul ->
  put_area_ok b -> next b = Some sb -> accept sb = accept_all ->
  exists b' sb',
    put_char (S fuel) b c = Some (Ok (b', to_int_type c)) /\
    put_area_ok b' /\ next b' = Some sb' /\ accept sb' = accept_all /\
    readable sb' = readable sb /\
    delivered sb' ++ waiting b' = delivered sb ++ waiting b ++ [c].
Proof.
  intros Hc (Hl & Hp & Hw) Hn Ha. unfold put_char.
  cbn [base base_class set_base]. unfold sizeof_obuf.
  destruct (Nat.ltb_spec (pptr b) (write_buffer_size b)) as [Room|Full].
  - exists (put_here b c), sb. split; [reflexivity|].
    unfold put_here, put_area_ok, waiting.
    cbn [obuf pptr write_buffer_size next pbump set_obuf].
    rewrite ExpFacts.length_store.
    repeat split; auto; try lia.
    replace (pptr b + 1)%nat with (S (pptr b)) by lia.
    rewrite firstn_store_snoc by lia. reflexivity.
  - assert (E : pptr b = write_buffer_size b) by lia.
    cbn [overflow].
    rewrite (sync_base_full b sb Hn) by (rewrite ?Ha; unfold accept_all; lia).
    cbn [Z.ltb Z.compare]. rewrite (not_eof_char c Hc).
    cbn [base base_class set_base]. unfold sizeof_obuf.
    cbn [setp set_next pptr write_buffer_size].
    destruct (Nat.ltb_spec 0 (write_buffer_size b)) as [_|Z]; [|lia].
    rewrite int_to_char_to_int.
    eexists. eexists. split; [reflexivity|].
    unfold put_here, put_area_ok, waiting.
    cbn [obuf pptr write_buffer_size next pbump set_obuf setp set_next
           delivered accept readable].
    rewrite ExpFacts.length_store.
    repeat split; auto; try lia.
    cbn [Nat.add]. rewrite firstn_store_snoc by lia. cbn [firstn app].
    cbn [delivered]. rewrite <- app_assoc. reflexivity.
Qed.

Lemma put_chars_base fuel l :
  forall (b : basic_filter_streambuf) sb,
    Forall (fun c => c <> nul) l ->
    put_area_ok b -> next b = Some sb -> accept sb = accept_all ->
    exists b' sb',
      put_chars (S fuel) b l = Some (Ok (b', length l)) /\
      put_area_ok b' /\ next b' = Some sb' /\ accept sb' = accept_all /\
      readable sb' = readable sb /\
      delivered sb' ++ waiting b' = delivered sb ++ waiting b ++ l.
Proof.
  induction l as [|c rest IH]; intros b sb Hnn Hok Hn Ha.
  { exists b, sb. cbn [put_chars length]. rewrite app_nil_r.
    split; [reflexivity|]. split; [exact Hok|]. auto. }
  cbn [put_chars length].
  apply Forall_cons_iff in Hnn. destruct Hnn as [Hc Hnn].
  destruct (put_char_base fuel b sb c Hc Hok Hn Ha)
    as (b1 & sb1 & R1 & Ok1 & N1 & A1 & Rd1 & D1).
  rewrite R1. rewrite to_int_type_not_eof.
  destruct (IH b1 sb1 Hnn Ok1 N1 A1)
    as (b2 & sb2 & R2 & Ok2 & N2 & A2 & Rd2 & D2).
  rewrite R2. exists b2, sb2.
  repeat split; auto; try congruence; try apply Ok2.
  rewrite D2, app_assoc, D1, <- !app_assoc. reflexivity.
Qed.

End ExpMore.

(** X13.  A flush of the chaining buffer of which the next buffer takes
    everything that was waiting returns 0, hands the waiting characters to
    the next buffer in order and leaves the buffer empty, its array as it
    was. *)
Theorem sync_empties_the_buffer (b : Exp.basic_filter_streambuf) sb :
  Exp.next b = Some sb ->
  (Exp.pptr b <= length (Exp.obuf b))%nat ->
  (Exp.pptr b <= accept sb (calls sb) (Exp.pptr b))%nat ->
  exists b',
    Exp.sync b = Ok (b', 0%Z) /\
    output (Exp.next b') = delivered sb ++ Exp.waiting b /\
    Exp.waiting b' = [] /\ Exp.pptr b' = 0%nat /\
    Exp.obuf b' = Exp.obuf b.
Proof.
  intros Hn Hl Ha. eexists. split.
  - apply ExpMore.sync_base_full; eassumption.
  - repeat split.
Qed.

Lemma sync_empties_the_buffer_witness :
  exists b',
    Exp.sync (Exp.set_next full_buffer (Some (sink accept_all)))
    = Ok (b', 0%Z) /\
    output (Exp.next b') = delivered (sink accept_all) ++ chars "abcdefgh" /\
    Exp.waiting b' = [] /\ Exp.pptr b' = 0%nat /\
    Exp.obuf b' = chars "abcdefgh".
Proof.
  apply (sync_empties_the_buffer
           (Exp.set_next full_buffer (Some (sink accept_all)))
           (sink accept_all)).
  - reflexivity.
  - vm_compute. lia.
  - vm_compute. lia.
Defined.

(** X14.  A flush of which the next buffer takes [n] characters, fewer
    than were waiting, leaves the put position at [sizeof(obuf) - n]
    whatever the number of characters waiting was, and the array from
    position [sizeof(obuf) - 2n] on as it was: only when the array was full
    is the run kept of the length of what was left, and then its last [n]
    characters are not moved. *)
Theorem sync_short_flush (b : Exp.basic_filter_streambuf) sb :
  Exp.next b = Some sb ->
  length (Exp.obuf b) = Exp.write_buffer_size b ->
  (Exp.pptr b <= Exp.write_buffer_size b)%nat ->
  (Nat.min (Exp.pptr b) (accept sb (calls sb) (Exp.pptr b)) < Exp.pptr b)%nat ->
  exists b',
    Exp.sync b = Ok (b', 0%Z) /\
    output (Exp.next b')
    = delivered sb
      ++ firstn (Nat.min (Exp.pptr b) (accept sb (calls sb) (Exp.pptr b)))
                (Exp.waiting b) /\
    Exp.pptr b'
    = (Exp.write_buffer_size b
       - Nat.min (Exp.pptr b) (accept sb (calls sb) (Exp.pptr b)))%nat /\
    (forall i,
        (Exp.write_buffer_size b
         - Nat.min (Exp.pptr b) (accept sb (calls sb) (Exp.pptr b))
         - Nat.min (Exp.pptr b) (accept sb (calls sb) (Exp.pptr b)) <= i)%nat ->
        nth i (Exp.obuf b') nul = nth i (Exp.obuf b) nul).
Proof. exact (ExpFacts.sync_short_write b sb). Qed.

Lemma sync_short_flush_witness :
  exists b',
    Exp.sync full_buffer = Ok (b', 0%Z) /\
    output (Exp.next b') = [] ++ firstn 3 (Exp.waiting full_buffer) /\
    Exp.pptr b' = 5%nat /\
    (forall i, (2 <= i)%nat ->
               nth i (Exp.obuf b') nul = nth i (Exp.obuf full_buffer) nul).
Proof.
  apply (sync_short_flush full_buffer (sink (accept_upto 3))).
  - reflexivity.
  - reflexivity.
  - vm_compute. lia.
  - vm_compute. lia.
Defined.

(** X15.  The chaining buffer passes characters through, NUL apart.
    Whatever the size of its array, the characters of a run without a NUL,
    put into the buffer one by one and then flushed, reach a next buffer
    that takes everything, after what was already waiting, complete and in
    order; every character is reported written, one level of [overflow]
    suffices, and the buffer is empty at the end. *)
Theorem chaining_buffer_passes_through fuel (b : Exp.basic_filter_streambuf)
    sb l :
  Forall (fun c => c <> nul) l ->
  put_area_ok b -> Exp.next b = Some sb -> accept sb = accept_all ->
  exists b1 b2,
    Exp.put_chars (S fuel) b l = Some (Ok (b1, length l)) /\
    Exp.sync b1 = Ok (b2, 0%Z) /\
    output (Exp.next b2) = delivered sb ++ Exp.waiting b ++ l /\
    Exp.waiting b2 = [] /\ put_area_ok b2.
Proof.
  intros Hnn Hok Hn Ha.
  destruct (ExpMore.put_chars_base fuel l b sb Hnn Hok Hn Ha)
    as (b1 & sb1 & R1 & (Hl & Hp & Hw) & N1 & A1 & _ & D1).
  exists b1. eexists. split; [exact R1|]. split.
  - apply (ExpMore.sync_base_full b1 sb1 N1).
    + rewrite Hl. exact Hp.
    + rewrite A1. unfold accept_all. apply Nat.le_refl.
  - cbn [Exp.next Exp.setp Exp.set_next output delivered].
    split; [exact D1|]. split; [reflexivity|].
    unfold put_area_ok. cbn. repeat split; auto; lia.
Qed.

Lemma chaining_buffer_passes_through_witness :
  exists b1 b2,
    Exp.put_chars 1 (Exp.set_next full_buffer (Some (sink accept_all)))
                  (chars "0123456789abcdefghij")
    = Some (Ok (b1, length (chars "0123456789abcdefghij"))) /\
    Exp.sync b1 = Ok (b2, 0%Z) /\
    output (Exp.next b2)
    = delivered (sink accept_all)
      ++ Exp.waiting (Exp.set_next full_buffer (Some (sink accept_all)))
      ++ chars "0123456789abcdefghij" /\
    Exp.waiting b2 = [] /\ put_area_ok b2.
Proof.
  apply (chaining_buffer_passes_through 0
           (Exp.set_next full_buffer (Some (sink accept_all)))
           (sink accept_all) (chars "0123456789abcdefghij")).
  - repeat (apply Forall_cons; [discriminate|]). apply Forall_nil.
  - repeat split; vm_compute; lia.
  - reflexivity.
  - reflexivity.
Defined.

(** ** The indent filter behind its buffer *)

Module ChainMore.
Import FmtChain.

(** [filter_write] changes nothing of the base object but [next]. *)
Lemma filter_write_loop_base l :
  forall f idx f' n,
    filter_write_loop f idx l = Ok (f', n) ->
    Exp.set_next (filter_streambuf_base f') None
    = Exp.set_next (filter_streambuf_base f) None.
Proof.
  induction l as [|c rest IH]; intros f idx f' n; cbn [filter_write_loop].
  { intros E; injection E as <- _. reflexivity. }
  destruct (traits_eq c indent_code).
  { intros E. apply IH in E. exact E. }
  destruct (traits_eq c undent_code).
  { intros E. apply IH in E. rewrite E. unfold undent.
    destruct (indent_level f =? 0); reflexivity. }
  destruct (at_start_of_line f && locale f c); [apply IH|].
  destruct (if at_start_of_line f then _ else _) as [[p1 ok]|];
    cbn [bind]; [|discriminate].
  destruct (negb ok).
  { intros E; injection E as <- _. reflexivity. }
  destruct (sputc _ c) as [[p2 sent]|]; cbn [bind]; [|discriminate].
  destruct (negb sent).
  { intros E; injection E as <- _. reflexivity. }
  intros E. apply IH in E. rewrite E. reflexivity.
Qed.

Lemma base_fields b b' :
  Exp.set_next b' None = Exp.set_next b None ->
  Exp.obuf b' = Exp.obuf b /\ Exp.pptr b' = Exp.pptr b /\
  Exp.write_buffer_size b' = Exp.write_buffer_size b /\
  Exp.ibuf b' = Exp.ibuf b /\
  Exp.read_buffer_size b' = Exp.read_buffer_size b.
Proof.
  intros E.
  pose proof (f_equal Exp.obuf E). pose proof (f_equal Exp.pptr E).
  pose proof (f_equal Exp.write_buffer_size E).
  pose proof (f_equal Exp.ibuf E).
  pose proof (f_equal Exp.read_buffer_size E). auto.
Qed.

(** A flush of the filter, the next buffer never refusing a character. *)
Lemma sync_fmt_full f sb :
  next f = Some sb -> accepts_one (accept sb) ->
  (Exp.pptr (filter_streambuf_base f)
   <= length (Exp.obuf (filter_streambuf_base f)))%nat ->
  exists f1 sb1,
    Exp.sync f = Ok (set_base f1 (Exp.setp (filter_streambuf_base f1)), 0%Z) /\
    next f1 = Some sb1 /\
    delivered sb1
    = delivered sb
      ++ fst (transduce (repeat space) (locale f) (indent_increment f)
                (at_start_of_line f) (indent_level f)
                (Exp.waiting (filter_streambuf_base f))) /\
    accept sb1 = accept sb /\ readable sb1 = readable sb /\
    (at_start_of_line f1, indent_level f1)
    = snd (transduce (repeat space) (locale f) (indent_increment f)
             (at_start_of_line f) (indent_level f)
             (Exp.waiting (filter_streambuf_base f))) /\
    locale f1 = locale f /\ indent_increment f1 = indent_increment f /\
    Exp.obuf (filter_streambuf_base f1) = Exp.obuf (filter_streambuf_base f) /\
    Exp.write_buffer_size (filter_streambuf_base f1)
    = Exp.write_buffer_size (filter_streambuf_base f).
Proof.
  intros Hn Ha Hl.
  destruct (FmtChainFacts.filter_write_loop_accepts_one
              (Exp.waiting (filter_streambuf_base f)) f sb 0%nat Hn Ha)
    as (f1 & sb1 & R & N1 & D1 & A1 & R1 & St & L1 & I1).
  assert (L : length (Exp.waiting (filter_streambuf_base f))
              = Exp.pptr (filter_streambuf_base f)).
  { unfold Exp.waiting. rewrite length_firstn. apply Nat.min_l. exact Hl. }
  rewrite L in R. cbn [Nat.add] in R.
  destruct (base_fields _ _ (filter_write_loop_base _ _ _ _ _ R))
    as (Bo & _ & Bw & _).
  exists f1, sb1.
  split.
  - unfold Exp.sync. cbn [Exp.filter_write Exp.base Exp.set_base fmt_class].
    unfold filter_write. fold (Exp.waiting (filter_streambuf_base f)).
    rewrite R. cbn [bind].
    destruct (Z.ltb_spec (Z.of_nat (Exp.pptr (filter_streambuf_base f))) 0)
      as [Neg|_]; [lia|].
    rewrite Z.eqb_refl. reflexivity.
  - repeat split; auto.
Qed.

Lemma fst_snd_pair {A B} (p : A * B) : p = (fst p, snd p).
Proof. destruct p; reflexivity. Qed.

(** One character through the inherited [sputc] of the filter. *)
Lemma put_char_fmt fuel f0 sb0 fed f sb c :
  c <> nul ->
  accepts_one (accept sb0) ->
  put_area_ok (filter_streambuf_base f) -> next f = Some sb ->
  fed_so_far f0 f sb0 sb fed ->
  exists f' sb',
    Exp.put_char (S fuel) f c = Some (Ok (f', Exp.to_int_type c)) /\
    put_area_ok (filter_streambuf_base f') /\ next f' = Some sb' /\
    fed_so_far f0 f' sb0 sb' (fed ++ [c]).
Proof.
  intros Hc Ha0 (Hl & Hp & Hw) Hn (over & Ov & D & St & Lc & Ic & Ac).
  unfold Exp.put_char. cbn [Exp.base Exp.set_base fmt_class].
  unfold Exp.sizeof_obuf.
  destruct (Nat.ltb_spec (Exp.pptr (filter_streambuf_base f))
              (Exp.write_buffer_size (filter_streambuf_base f)))
    as [Room|Full].
  - exists (set_base f (Exp.put_here (filter_streambuf_base f) c)), sb.
    split; [reflexivity|]. split.
    { unfold put_area_ok, Exp.put_here.
      cbn [set_base filter_streambuf_base Exp.obuf Exp.pptr
             Exp.write_buffer_size Exp.pbump Exp.set_obuf].
      rewrite ExpFacts.length_store. repeat split; auto; lia. }
    split; [exact Hn|].
    exists over. repeat split; auto.
    unfold Exp.put_here, Exp.waiting.
    cbn [set_base filter_streambuf_base Exp.obuf Exp.pptr Exp.pbump
           Exp.set_obuf].
    replace (Exp.pptr (filter_streambuf_base f) + 1)%nat
      with (S (Exp.pptr (filter_streambuf_base f))) by lia.
    rewrite ExpMore.firstn_store_snoc by lia.
    rewrite !app_assoc. f_equal. exact Ov.
  - cbn [Exp.overflow].
    destruct (sync_fmt_full f sb Hn) as
      (f1 & sb1 & Sy & N1 & D1 & A1 & R1 & St1 & L1 & I1 & Bo & Bw);
      [rewrite Ac; exact Ha0 | rewrite Hl; exact Hp |].
    rewrite Sy. cbn [Z.ltb Z.compare]. rewrite (ExpMore.not_eof_char c Hc).
    cbn [Exp.base Exp.set_base fmt_class set_base filter_streambuf_base].
    unfold Exp.sizeof_obuf. cbn [Exp.setp Exp.pptr Exp.write_buffer_size].
    rewrite Bw.
    destruct (Nat.ltb_spec 0 (Exp.write_buffer_size (filter_streambuf_base f)))
      as [_|Z]; [|lia].
    rewrite ExpMore.int_to_char_to_int.
    eexists. exists sb1. split; [reflexivity|]. split.
    { unfold put_area_ok, Exp.put_here.
      cbn [set_base filter_streambuf_base Exp.obuf Exp.pptr
             Exp.write_buffer_size Exp.pbump Exp.set_obuf Exp.setp].
      rewrite ExpFacts.length_store, Bo, Bw. repeat split; auto; lia. }
    split; [exact N1|].
    exists (over ++ Exp.waiting (filter_streambuf_base f)).
    pose proof (transduce_app (repeat space) (locale f0) (indent_increment f0)
                  over (at_start_of_line f0) (indent_level f0)
                  (Exp.waiting (filter_streambuf_base f))) as TA.
    assert (E1 : at_start_of_line f
                 = fst (snd (transduce (repeat space) (locale f0)
                               (indent_increment f0) (at_start_of_line f0)
                               (indent_level f0) over)))
      by (rewrite <- St; reflexivity).
    assert (E2 : indent_level f
                 = snd (snd (transduce (repeat space) (locale f0)
                               (indent_increment f0) (at_start_of_line f0)
                               (indent_level f0) over)))
      by (rewrite <- St; reflexivity).
    rewrite Lc, Ic, E1, E2 in D1, St1.
    rewrite TA. cbn [fst snd].
    split.
    { unfold Exp.put_here, Exp.waiting.
      cbn [set_base filter_streambuf_base Exp.obuf Exp.pptr Exp.pbump
             Exp.set_obuf Exp.setp Nat.add].
      rewrite ExpMore.firstn_store_snoc by (rewrite Bo; lia).
      cbn [firstn app]. fold (Exp.waiting (filter_streambuf_base f)).
      rewrite Ov, <- app_assoc. reflexivity. }
    split; [rewrite D1, D, <- app_assoc; reflexivity|].
    split; [exact St1|].
    cbn [set_base locale indent_increment].
    repeat split; congruence.
Qed.

Lemma put_chars_fmt fuel f0 sb0 l :
  accepts_one (accept sb0) ->
  Forall (fun c => c <> nul) l ->
  forall fed f sb,
    put_area_ok (filter_streambuf_base f) -> next f = Some sb ->
    fed_so_far f0 f sb0 sb fed ->
    exists f' sb',
      Exp.put_chars (S fuel) f l = Some (Ok (f', length l)) /\
      put_area_ok (filter_streambuf_base f') /\ next f' = Some sb' /\
      fed_so_far f0 f' sb0 sb' (fed ++ l).
Proof.
  intros Ha0. induction l as [|c rest IH]; intros Hnn fed f sb Hok Hn Hfed.
  { exists f, sb. cbn [Exp.put_chars length]. rewrite app_nil_r. auto. }
  cbn [Exp.put_chars length].
  apply Forall_cons_iff in Hnn. destruct Hnn as [Hc Hnn].
  destruct (put_char_fmt fuel f0 sb0 fed f sb c Hc Ha0 Hok Hn Hfed)
    as (f1 & sb1 & R1 & Ok1 & N1 & F1).
  rewrite R1, ExpMore.to_int_type_not_eof.
  destruct (IH Hnn (fed ++ [c]) f1 sb1 Ok1 N1 F1)
    as (f2 & sb2 & R2 & Ok2 & N2 & F2).
  rewrite R2. exists f2, sb2. rewrite <- app_assoc in F2. auto.
Qed.

End ChainMore.

(** X16.  The indent filter behind its buffer does what [filter_write]
    does, NUL apart.  Whatever the size of the array, the characters of a
    run without a NUL, put into the filter one by one and then flushed,
    have the effect of one call of [filter_write] on what was waiting
    followed by those characters: the next buffer, if it never refuses a
    single character, has received the same, and the line state and the
    level are the same; all characters are reported written and the array is
    empty at the end. *)
Theorem buffered_filter_is_filter_write fuel f sb l :
  Forall (fun c => c <> nul) l ->
  put_area_ok (FmtChain.filter_streambuf_base f) ->
  FmtChain.next f = Some sb -> accepts_one (accept sb) ->
  exists f1 f2 g,
    Exp.put_chars (S fuel) f l = Some (Ok (f1, length l)) /\
    Exp.sync f1 = Ok (f2, 0%Z) /\
    FmtChain.filter_write f
      (Exp.waiting (FmtChain.filter_streambuf_base f) ++ l)
    = Ok (g, Z.of_nat
               (length (Exp.waiting (FmtChain.filter_streambuf_base f) ++ l))) /\
    output (FmtChain.next f2) = output (FmtChain.next g) /\
    FmtChain.at_start_of_line f2 = FmtChain.at_start_of_line g /\
    FmtChain.indent_level f2 = FmtChain.indent_level g /\
    Exp.waiting (FmtChain.filter_streambuf_base f2) = [].
Proof.
  intros Hnn Hok Hn Ha.
  assert (F0 : fed_so_far f f sb sb []).
  { exists []. cbn. rewrite !app_nil_r. repeat split; auto. }
  destruct (ChainMore.put_chars_fmt fuel f sb l Ha Hnn [] f sb Hok Hn F0)
    as (f1 & sb1 & R1 & (Hl & Hp & Hw) & N1 & (over & Ov & D & St & Lc & Ic & Ac)).
  cbn [app] in Ov.
  destruct (ChainMore.sync_fmt_full f1 sb1 N1) as
    (f2 & sb2 & Sy & N2 & D2 & _ & _ & St2 & _);
    [rewrite Ac; exact Ha | rewrite Hl; exact Hp |].
  destruct (FmtChainFacts.filter_write_accepts_one f sb
              (Exp.waiting (FmtChain.filter_streambuf_base f) ++ l) Hn Ha)
    as (g & sbg & Rg & Ng & Dg & Stg).
  exists f1. eexists. exists g.
  split; [exact R1|]. split; [exact Sy|]. split; [exact Rg|].
  pose proof (transduce_app (repeat space) (FmtChain.locale f)
                (FmtChain.indent_increment f) over
                (FmtChain.at_start_of_line f) (FmtChain.indent_level f)
                (Exp.waiting (FmtChain.filter_streambuf_base f1))) as TA.
  rewrite Ov in TA.
  assert (E1 : FmtChain.at_start_of_line f1
               = fst (snd (transduce (repeat space) (FmtChain.locale f)
                             (FmtChain.indent_increment f)
                             (FmtChain.at_start_of_line f)
                             (FmtChain.indent_level f) over)))
    by (rewrite <- St; reflexivity).
  assert (E2 : FmtChain.indent_level f1
               = snd (snd (transduce (repeat space) (FmtChain.locale f)
                             (FmtChain.indent_increment f)
                             (FmtChain.at_start_of_line f)
                             (FmtChain.indent_level f) over)))
    by (rewrite <- St; reflexivity).
  rewrite Lc, Ic, E1, E2 in D2, St2.
  rewrite TA in Dg, Stg. cbn [fst snd] in Dg, Stg.
  change (FmtChain.next (FmtChain.set_base f2
            (Exp.setp (FmtChain.filter_streambuf_base f2))))
    with (FmtChain.next f2).
  rewrite N2, Ng. cbn [output].
  split; [rewrite D2, D, Dg, <- app_assoc; reflexivity|].
  assert (E : (FmtChain.at_start_of_line f2, FmtChain.indent_level f2)
              = (FmtChain.at_start_of_line g, FmtChain.indent_level g))
    by congruence.
  injection E as E3 E4.
  split; [exact E3|]. split; [exact E4|]. reflexivity.
Qed.

Lemma buffered_filter_is_filter_write_witness :
  exists f1 f2 g,
    Exp.put_chars 1
      {| FmtChain.filter_streambuf_base :=
           Exp.set_next full_buffer (Some (sink (accept_upto 1)));
         FmtChain.indent_increment := 4;
         FmtChain.at_start_of_line := true;
         FmtChain.indent_level := 0;
         FmtChain.locale := isspace_classic |}
      (concat scenario_runs)
    = Some (Ok (f1, length (concat scenario_runs))) /\
    Exp.sync f1 = Ok (f2, 0%Z) /\
    FmtChain.filter_write
      {| FmtChain.filter_streambuf_base :=
           Exp.set_next full_buffer (Some (sink (accept_upto 1)));
         FmtChain.indent_increment := 4;
         FmtChain.at_start_of_line := true;
         FmtChain.indent_level := 0;
         FmtChain.locale := isspace_classic |}
      (Exp.waiting (Exp.set_next full_buffer (Some (sink (accept_upto 1))))
         ++ concat scenario_runs)
    = Ok (g, Z.of_nat
               (length
                  (Exp.waiting
                     (Exp.set_next full_buffer (Some (sink (accept_upto 1))))
                     ++ concat scenario_runs))) /\
    output (FmtChain.next f2) = output (FmtChain.next g) /\
    FmtChain.at_start_of_line f2 = FmtChain.at_start_of_line g /\
    FmtChain.indent_level f2 = FmtChain.indent_level g /\
    Exp.waiting (FmtChain.filter_streambuf_base f2) = [].
Proof.
  apply (buffered_filter_is_filter_write 0
           {| FmtChain.filter_streambuf_base :=
                Exp.set_next full_buffer (Some (sink (accept_upto 1)));
              FmtChain.indent_increment := 4;
              FmtChain.at_start_of_line := true;
              FmtChain.indent_level := 0;
              FmtChain.locale := isspace_classic |}
           (sink (accept_upto 1)) (concat scenario_runs)).
  - repeat (apply Forall_cons; [discriminate|]). apply Forall_nil.
  - repeat split; vm_compute; lia.
  - reflexivity.
  - intros i. cbn. apply Nat.le_refl.
Defined.

(** ** [overflow] behind a buffer that takes nothing *)

(** X17.  With the array full and a next buffer that takes nothing,
    [overflow] does not return for a character other than NUL: the flush
    leaves the array full, the character finds no room and goes to
    [overflow] again, at every depth.  The same holds for the [sputc] that
    finds the array full.  For NUL [overflow] returns after the one flush:
    the NUL is reported written and is stored nowhere, the array being as
    the flush left it. *)
Theorem overflow_never_returns fuel :
  forall (b : Exp.basic_filter_streambuf) sb c,
    Exp.next b = Some sb -> accept sb = accept_upto 0 ->
    Exp.pptr b = Exp.write_buffer_size b ->
    (1 <= Exp.write_buffer_size b)%nat ->
    (c <> nul ->
     Exp.overflow fuel b (Exp.to_int_type c) = None /\
     Exp.put_char fuel b c = None) /\
    (exists b',
        Exp.sync b = Ok (b', 0%Z) /\
        Exp.overflow (S fuel) b (Exp.to_int_type nul) = Some (Ok (b', 0%Z)) /\
        Exp.put_char (S fuel) b nul = Some (Ok (b', 0%Z)) /\
        output (Exp.next b') = delivered sb).
Proof.
  assert (Sy : forall (b : Exp.basic_filter_streambuf) sb,
             Exp.next b = Some sb -> accept sb = accept_upto 0 ->
             Exp.pptr b = Exp.write_buffer_size b ->
             (1 <= Exp.write_buffer_size b)%nat ->
             exists b' sb',
               Exp.sync b = Ok (b', 0%Z) /\
               Exp.next b' = Some sb' /\ accept sb' = accept_upto 0 /\
               Exp.pptr b' = Exp.write_buffer_size b' /\
               Exp.write_buffer_size b' = Exp.write_buffer_size b /\
               delivered sb' = delivered sb).
  { intros b sb Hn Ha Hp Hw. destruct sb as [a cl d r].
    cbn [accept] in Ha. subst a.
    unfold Exp.sync.
    cbn [Exp.filter_write Exp.base Exp.set_base Exp.base_class].
    unfold Exp.base_filter_write. rewrite Hn.
    unfold sputn, streambuf_sputn. cbn [accept calls delivered readable].
    replace (Nat.min (length (firstn (Exp.pptr b) (Exp.obuf b)))
               (accept_upto 0 cl (length (firstn (Exp.pptr b) (Exp.obuf b)))))
      with 0%nat by (unfold accept_upto; cbn [Nat.min]; lia).
    cbn [bind Z.of_nat Z.ltb Z.compare].
    destruct (Z.eqb_spec 0 (Z.of_nat (Exp.pptr b))) as [E|_]; [lia|].
    cbn [Z.to_nat]. unfold Exp.sizeof_obuf.
    cbn [Exp.set_next Exp.write_buffer_size].
    destruct (Nat.ltb_spec (Exp.write_buffer_size b) 0) as [L|_]; [lia|].
    eexists. eexists. split; [reflexivity|].
    cbn [Exp.pbump Exp.setp Exp.set_obuf Exp.set_next Exp.pptr Exp.next
           Exp.write_buffer_size accept delivered firstn].
    rewrite app_nil_r.
    repeat split. lia. }
  assert (O : forall fuel (b : Exp.basic_filter_streambuf) sb c,
             c <> nul ->
             Exp.next b = Some sb -> accept sb = accept_upto 0 ->
             Exp.pptr b = Exp.write_buffer_size b ->
             (1 <= Exp.write_buffer_size b)%nat ->
             Exp.overflow fuel b (Exp.to_int_type c) = None).
  { clear fuel. induction fuel as [|fuel IH]; intros b sb c Hc Hn Ha Hp Hw;
      [reflexivity|].
    cbn [Exp.overflow].
    destruct (Sy b sb Hn Ha Hp Hw) as (b' & sb' & R & N' & A' & P' & W' & _).
    rewrite R. cbn [Z.ltb Z.compare]. rewrite (ExpMore.not_eof_char c Hc).
    cbn [Exp.base Exp.base_class]. unfold Exp.sizeof_obuf.
    destruct (Nat.ltb_spec (Exp.pptr b') (Exp.write_buffer_size b'))
      as [L|_]; [lia|].
    rewrite ExpMore.int_to_char_to_int.
    rewrite (IH b' sb'); auto. lia. }
  intros b sb c Hn Ha Hp Hw. split.
  - intros Hc. split; [eapply O; eassumption|].
    unfold Exp.put_char. cbn [Exp.base Exp.base_class]. unfold Exp.sizeof_obuf.
    destruct (Nat.ltb_spec (Exp.pptr b) (Exp.write_buffer_size b)) as [L|_];
      [lia|].
    eapply O; eassumption.
  - destruct (Sy b sb Hn Ha Hp Hw) as (b' & sb' & R & N' & _ & _ & _ & D').
    exists b'. split; [exact R|].
    assert (Ov : Exp.overflow (S fuel) b (Exp.to_int_type nul)
                 = Some (Ok (b', 0%Z))).
    { cbn [Exp.overflow]. rewrite R. reflexivity. }
    split; [exact Ov|]. split.
    + unfold Exp.put_char. cbn [Exp.base Exp.base_class].
      unfold Exp.sizeof_obuf.
      destruct (Nat.ltb_spec (Exp.pptr b) (Exp.write_buffer_size b))
        as [L|_]; [lia|].
      exact Ov.
    + rewrite N'. exact D'.
Qed.

Lemma overflow_never_returns_witness :
  (Exp.overflow 1000 (Exp.set_next full_buffer (Some (sink (accept_upto 0))))
                (Exp.to_int_type "x"%char) = None /\
   Exp.put_char 1000 (Exp.set_next full_buffer (Some (sink (accept_upto 0))))
                "x"%char = None) /\
  (exists b',
      Exp.sync (Exp.set_next full_buffer (Some (sink (accept_upto 0))))
      = Ok (b', 0%Z) /\
      Exp.overflow 1001
        (Exp.set_next full_buffer (Some (sink (accept_upto 0))))
        (Exp.to_int_type nul) = Some (Ok (b', 0%Z)) /\
      Exp.put_char 1001
        (Exp.set_next full_buffer (Some (sink (accept_upto 0)))) nul
      = Some (Ok (b', 0%Z)) /\
      output (Exp.next b') = delivered (sink (accept_upto 0))).
Proof.
  destruct (overflow_never_returns 1000
              (Exp.set_next full_buffer (Some (sink (accept_upto 0))))
              (sink (accept_upto 0)) "x"%char) as [Never Nul].
  - reflexivity.
  - reflexivity.
  - reflexivity.
  - vm_compute. lia.
  - split; [apply Never; discriminate | exact Nul].
Defined.

(** ** The read side of the chaining buffer *)

Module ReadMore.
Import Exp.

Lemma sgetn_nothing sb : streambuf_sgetn sb 0 = (sb, []).
Proof. destruct sb; reflexivity. Qed.

(** The base class's [filter_read] asks the next buffer for no character
    at all. *)
Lemma filter_read_base (b : basic_filter_streambuf) sb dest count :
  next b = Some sb -> filter_read b dest count = Ok (b, 0%Z).
Proof.
  intros Hn. unfold filter_read, sgetn, sizeof_pointer. rewrite Hn.
  cbn [Nat.sub]. rewrite sgetn_nothing. cbn [bind app length Z.of_nat].
  rewrite Nat.add_0_r, firstn_skipn.
  destruct b. cbn [next] in Hn. subst. reflexivity.
Qed.

End ReadMore.

(** X18.  The read side of the chaining buffer itself delivers nothing.
    The parameter [ibuf] of the base class's [filter_read] hides the array
    of that name, so the next buffer is asked for the size of a pointer
    less 8 characters, none: [filter_read] returns 0 whatever its arguments
    are and leaves the buffer as it was, and [underflow] returns [eof] with
    an empty get area at position 8, whatever the next buffer has to offer;
    the array and the next buffer, what it offers included, are
    untouched. *)
Theorem underflow_never_delivers (b : Exp.basic_filter_streambuf) sb :
  Exp.next b = Some sb ->
  (forall dest count, Exp.filter_read b dest count = Ok (b, 0%Z)) /\
  exists b',
    Exp.base_underflow b = Ok (b', Exp.eof) /\
    b' = Exp.setg b 8 8 /\
    Exp.gptr b' = 8%nat /\ Exp.egptr b' = 8%nat /\
    Exp.ibuf b' = Exp.ibuf b /\
    Exp.next b' = Some sb.
Proof.
  intros Hn. split.
  - intros dest count. apply ReadMore.filter_read_base with (sb := sb).
    exact Hn.
  - exists (Exp.setg b 8 8). split.
    + unfold Exp.base_underflow, Exp.underflow.
      rewrite (ReadMore.filter_read_base b sb _ _ Hn). reflexivity.
    + repeat split. exact Hn.
Qed.

Lemma underflow_never_delivers_witness :
  exists b0,
    Exp.construct 8 4 (Some {| accept := accept_all; calls := 0;
                               delivered := []; readable := chars "xyzuvw" |})
    = Ok b0 /\
    Exp.filter_read b0 8 4 = Ok (b0, 0%Z) /\
    exists b',
      Exp.base_underflow b0 = Ok (b', Exp.eof) /\
      Exp.gptr b' = 8%nat /\ Exp.egptr b' = 8%nat /\
      Exp.ibuf b' = repeat nul 12 /\
      option_map readable (Exp.next b') = Some (chars "xyzuvw").
Proof.
  eexists. split; [reflexivity|].
  destruct (underflow_never_delivers
              {| Exp.write_buffer_size := 8; Exp.read_buffer_size := 4;
                 Exp.next := Some {| accept := accept_all; calls := 0;
                                     delivered := [];
                                     readable := chars "xyzuvw" |};
                 Exp.obuf := repeat nul 8; Exp.pptr := 0;
                 Exp.ibuf := repeat nul 12; Exp.gptr := 8; Exp.egptr := 8 |}
              {| accept := accept_all; calls := 0; delivered := [];
                 readable := chars "xyzuvw" |} eq_refl)
    as (R & b' & U & _ & G & E & I & N).
  split; [apply R|].
  exists b'. split; [exact U|]. split; [exact G|]. split; [exact E|].
  split; [exact I|]. rewrite N. reflexivity.
Defined.

(** X19.  [underflow] of the indent filter never reports the end of the
    input and never reads: with a read buffer of at least one character it
    returns the character that happens to be in position 8 of the array,
    declares the whole array from position 8 on readable, and leaves the
    array and the next buffer, a null one included, untouched. *)
Theorem indent_filter_underflow_never_ends f :
  (1 <= Exp.read_buffer_size (FmtChain.filter_streambuf_base f))%nat ->
  length (Exp.ibuf (FmtChain.filter_streambuf_base f)) =
  (Exp.read_buffer_size (FmtChain.filter_streambuf_base f) + 8)%nat ->
  exists f',
    FmtChain.underflow f
    = Ok (f', Exp.to_int_type
                (nth 8 (Exp.ibuf (FmtChain.filter_streambuf_base f)) nul)) /\
    Exp.to_int_type (nth 8 (Exp.ibuf (FmtChain.filter_streambuf_base f)) nul)
    <> Exp.eof /\
    FmtChain.next f' = FmtChain.next f /\
    Exp.ibuf (FmtChain.filter_streambuf_base f')
    = Exp.ibuf (FmtChain.filter_streambuf_base f) /\
    Exp.gptr (FmtChain.filter_streambuf_base f') = 8%nat /\
    Exp.egptr (FmtChain.filter_streambuf_base f')
    = (8 + Exp.read_buffer_size (FmtChain.filter_streambuf_base f))%nat.
Proof.
  intros Hr Hl.
  unfold FmtChain.underflow, Exp.underflow, FmtChain.filter_read.
  cbn [bind]. unfold Exp.sizeof_ibuf.
  set (R := Exp.read_buffer_size (FmtChain.filter_streambuf_base f)) in *.
  replace (R + 8 - 8)%nat with R by lia.
  destruct (Z.ltb_spec (Z.of_nat R) 0) as [Neg|_]; [lia|].
  destruct (Z.eqb_spec (Z.of_nat R) 0) as [Z|_]; [lia|].
  rewrite Nat2Z.id.
  cbn [Exp.base Exp.set_base FmtChain.fmt_class FmtChain.set_base
         FmtChain.filter_streambuf_base Exp.setg Exp.ibuf Exp.set_ibuf].
  rewrite firstn_skipn.
  eexists. split; [reflexivity|].
  split.
  { pose proof (ExpMore.to_int_type_not_eof
                  (nth 8 (Exp.ibuf (FmtChain.filter_streambuf_base f)) nul))
      as H. apply Z.eqb_neq in H. exact H. }
  repeat split.
Qed.

Lemma indent_filter_underflow_never_ends_witness :
  exists f0,
    FmtChain.construct None = Ok f0 /\
    exists f',
      FmtChain.underflow f0 = Ok (f', Exp.to_int_type nul) /\
      FmtChain.next f' = None.
Proof.
  eexists. split; [reflexivity|].
  destruct (indent_filter_underflow_never_ends
              {| FmtChain.filter_streambuf_base :=
                   {| Exp.write_buffer_size := 64; Exp.read_buffer_size := 8;
                      Exp.next := None; Exp.obuf := repeat nul 64;
                      Exp.pptr := 0; Exp.ibuf := repeat nul (8 + 8);
                      Exp.gptr := 8; Exp.egptr := 8 |};
                 FmtChain.indent_increment := 4;
                 FmtChain.at_start_of_line := true;
                 FmtChain.indent_level := 0;
                 FmtChain.locale := isspace_classic |})
    as (f' & R & _ & N & _).
  - vm_compute. lia.
  - reflexivity.
  - exists f'. split; [exact R | exact N].
Defined.

(** ** Destruction *)

(** X20.  Destroying the indent filter flushes it: if the next buffer
    never refuses a single character, what is waiting goes through
    [filter_write], the array is empty afterwards, and the second flush, the
    one of the base class's destructor, adds nothing. *)
Theorem destruction_flushes_the_filter f sb :
  FmtChain.next f = Some sb -> accepts_one (accept sb) ->
  (Exp.pptr (FmtChain.filter_streambuf_base f)
   <= length (Exp.obuf (FmtChain.filter_streambuf_base f)))%nat ->
  exists f' g,
    FmtChain.destroy f = Ok f' /\
    FmtChain.filter_write f (Exp.waiting (FmtChain.filter_streambuf_base f))
    = Ok (g, Z.of_nat
               (length (Exp.waiting (FmtChain.filter_streambuf_base f)))) /\
    output (FmtChain.next f') = output (FmtChain.next g) /\
    Exp.waiting (FmtChain.filter_streambuf_base f') = [] /\
    FmtChain.at_start_of_line f' = FmtChain.at_start_of_line g /\
    FmtChain.indent_level f' = FmtChain.indent_level g.
Proof.
  intros Hn Ha Hl.
  destruct (ChainMore.sync_fmt_full f sb Hn Ha Hl)
    as (f1 & sb1 & Sy & N1 & D1 & A1 & _ & St1 & _).
  destruct (FmtChainFacts.filter_write_accepts_one f sb
              (Exp.waiting (FmtChain.filter_streambuf_base f)) Hn Ha)
    as (g & sbg & Rg & Ng & Dg & Stg).
  unfold FmtChain.destroy. rewrite Sy. cbn [bind].
  cbn [FmtChain.set_base FmtChain.filter_streambuf_base].
  assert (N1' : Exp.next (Exp.setp (FmtChain.filter_streambuf_base f1))
                = Some sb1) by exact N1.
  rewrite (ExpMore.sync_base_full
             (Exp.setp (FmtChain.filter_streambuf_base f1)) sb1 N1')
    by (cbn; lia).
  cbn [bind]. eexists. exists g. split; [reflexivity|].
  split; [exact Rg|].
  unfold FmtChain.next.
  cbn [FmtChain.set_base FmtChain.filter_streambuf_base Exp.next Exp.setp
         Exp.set_next output delivered FmtChain.at_start_of_line
         FmtChain.indent_level].
  unfold FmtChain.next in Ng. rewrite Ng. cbn [output].
  unfold Exp.waiting at 1. cbn [Exp.pptr Exp.setp firstn].
  rewrite app_nil_r.
  assert (E : (FmtChain.at_start_of_line f1, FmtChain.indent_level f1)
              = (FmtChain.at_start_of_line g, FmtChain.indent_level g))
    by congruence.
  injection E as E1 E2.
  repeat split; auto. congruence.
Qed.

Lemma destruction_flushes_the_filter_witness :
  exists f' g,
    FmtChain.destroy
      {| FmtChain.filter_streambuf_base :=
           Exp.set_next full_buffer (Some (sink (accept_upto 1)));
         FmtChain.indent_increment := 4;
         FmtChain.at_start_of_line := true;
         FmtChain.indent_level := 1;
         FmtChain.locale := isspace_classic |} = Ok f' /\
    FmtChain.filter_write
      {| FmtChain.filter_streambuf_base :=
           Exp.set_next full_buffer (Some (sink (accept_upto 1)));
         FmtChain.indent_increment := 4;
         FmtChain.at_start_of_line := true;
         FmtChain.indent_level := 1;
         FmtChain.locale := isspace_classic |}
      (Exp.waiting (Exp.set_next full_buffer (Some (sink (accept_upto 1)))))
    = Ok (g, Z.of_nat
               (length
                  (Exp.waiting
                     (Exp.set_next full_buffer
                        (Some (sink (accept_upto 1))))))) /\
    output (FmtChain.next f') = output (FmtChain.next g) /\
    Exp.waiting (FmtChain.filter_streambuf_base f') = [] /\
    FmtChain.at_start_of_line f' = FmtChain.at_start_of_line g /\
    FmtChain.indent_level f' = FmtChain.indent_level g.
Proof.
  apply (destruction_flushes_the_filter
           {| FmtChain.filter_streambuf_base :=
                Exp.set_next full_buffer (Some (sink (accept_upto 1)));
              FmtChain.indent_increment := 4;
              FmtChain.at_start_of_line := true;
              FmtChain.indent_level := 1;
              FmtChain.locale := isspace_classic |}
           (sink (accept_upto 1))).
  - reflexivity.
  - intros i. cbn. apply Nat.le_refl.
  - vm_compute. lia.
Defined.

(** ** Runs of content characters, at any width *)

(** X21.  The filter on the chaining buffer re-indents with blanks at any
    width.  A run of content characters, written at start of line to a next
    buffer that never refuses a single character, is processed whole and
    delivered line by line: a line of whitespace only disappears with its
    [EndOfLine], every other line loses its leading whitespace and starts
    with exactly [indent_level * indent_increment] (modulo [2^64]) blanks;
    the level is unchanged. *)
Theorem filter_write_reindents f b obuf :
  FmtChain.next f = Some b -> accepts_one (accept b) ->
  FmtChain.at_start_of_line f = true ->
  FmtChain.locale f end_of_line = true ->
  Forall not_mark obuf ->
  exists f',
    FmtChain.filter_write f obuf = Ok (f', Z.of_nat (length obuf)) /\
    output (FmtChain.next f')
    = delivered b
      ++ reindented (FmtChain.locale f)
           (N.to_nat ((FmtChain.indent_level f * FmtChain.indent_increment f)
                        mod size_max)) obuf /\
    FmtChain.indent_level f' = FmtChain.indent_level f.
Proof.
  intros Hn Ha Hs Hl Hm.
  destruct (FmtChainFacts.filter_write_accepts_one f b obuf Hn Ha)
    as (f' & b' & R & N' & D' & St).
  destruct (transduce_lines (repeat space) (FmtChain.locale f)
              (FmtChain.indent_increment f) obuf Hl Hm
              (FmtChain.at_start_of_line f) (FmtChain.indent_level f))
    as [T1 T2].
  exists f'. rewrite N'. cbn [output].
  split; [exact R|]. split.
  - rewrite D', T1, Hs. reflexivity.
  - rewrite <- T2, <- St. reflexivity.
Qed.

Lemma filter_write_reindents_witness :
  exists f',
    FmtChain.filter_write
      {| FmtChain.filter_streambuf_base :=
           Exp.set_next full_buffer (Some (sink (accept_upto 1)));
         FmtChain.indent_increment := 4;
         FmtChain.at_start_of_line := true;
         FmtChain.indent_level := 5;
         FmtChain.locale := isspace_classic |}
      (chars "  x")
    = Ok (f', Z.of_nat (length (chars "  x"))) /\
    output (FmtChain.next f')
    = delivered (sink (accept_upto 1))
      ++ reindented isspace_classic (N.to_nat ((5 * 4) mod size_max))
           (chars "  x") /\
    FmtChain.indent_level f' = 5.
Proof.
  apply (filter_write_reindents
           {| FmtChain.filter_streambuf_base :=
                Exp.set_next full_buffer (Some (sink (accept_upto 1)));
              FmtChain.indent_increment := 4;
              FmtChain.at_start_of_line := true;
              FmtChain.indent_level := 5;
              FmtChain.locale := isspace_classic |}
           (sink (accept_upto 1)) (chars "  x")).
  - reflexivity.
  - intros i. cbn. apply Nat.le_refl.
  - reflexivity.
  - reflexivity.
  - repeat constructor; discriminate.
Defined.

(** X22.  [xsputn] re-indents at any width with what [do_indentation]
    sends.  A run of content characters, written at start of line with
    nothing owed to a buffer that takes everything, is processed whole and
    delivered line by line as by the other filter, except that every kept
    line starts with the [indent_level * indent_increment] (modulo [2^64])
    characters of [do_indentation]: blanks, with a NUL in every seventeenth
    place. *)
Theorem xsputn_reindents_with_padding f b obuf :
  Fmt.next f = Some b -> accept b = accept_all ->
  Fmt.at_start_of_line f = true -> Fmt.pending_indent f = 0 ->
  Fmt.locale f end_of_line = true ->
  Forall not_mark obuf ->
  exists f',
    Fmt.xsputn f obuf = Ok (f', length obuf) /\
    output (Fmt.next f')
    = delivered b
      ++ render_lines
           (pad (N.to_nat ((Fmt.indent_level f * Fmt.indent_increment f)
                             mod size_max)))
           (Fmt.locale f) true (split_lines obuf) /\
    (forall n i, (i < n)%nat ->
                 nth i (pad n) space
                 = if (i mod 17 =? 16)%nat then nul else space) /\
    Fmt.indent_level f' = Fmt.indent_level f.
Proof.
  intros Hn Ha Hs Hp Hl Hm.
  destruct (FmtFacts.content_run_accept_all f b obuf Hn Ha Hs Hp Hl Hm)
    as (f' & R & O & L).
  exists f'. split; [exact R|]. split; [exact O|]. split; [|exact L].
  intros n i Hi. unfold pad.
  change space with (indentation_char 1) at 1.
  rewrite map_nth, seq_nth by exact Hi. reflexivity.
Qed.

Lemma xsputn_reindents_with_padding_witness :
  exists f',
    Fmt.xsputn (Fmt.set_indent_level (Fmt.fresh (Some (sink accept_all))) 5)
               (chars "  x")
    = Ok (f', length (chars "  x")) /\
    output (Fmt.next f')
    = delivered (sink accept_all)
      ++ render_lines (pad (N.to_nat ((5 * 4) mod size_max)))
           isspace_classic true (split_lines (chars "  x")) /\
    (forall n i, (i < n)%nat ->
                 nth i (pad n) space
                 = if (i mod 17 =? 16)%nat then nul else space) /\
    Fmt.indent_level f' = 5.
Proof.
  apply (xsputn_reindents_with_padding
           (Fmt.set_indent_level (Fmt.fresh (Some (sink accept_all))) 5)
           (sink accept_all) (chars "  x")).
  - reflexivity.
  - reflexivity.
  - reflexivity.
  - reflexivity.
  - reflexivity.
  - repeat constructor; discriminate.
Defined.

(** ** Control marks in a single write *)

(** X24.  One call of [xsputn], and one call of [filter_write] of the
    filter on the chaining buffer, never hands a control mark to the next
    buffer.  Whatever the state of the filter, whatever the buffer behind it
    accepts and however marks and content are interleaved in the run, the
    characters the call delivers contain neither [IndentMark] nor
    [UndentMark] (the call faults only on a null [next]); and a mark met in
    the run changes the level only: the line state and the next buffer are
    as before. *)
Theorem single_write_delivers_no_mark :
  (forall f obuf,
      match Fmt.xsputn f obuf with
      | Ok (f', n) =>
          exists new,
            output (Fmt.next f') = output (Fmt.next f) ++ new /\
            ~ In indent_code new /\ ~ In undent_code new
      | Fault => Fmt.next f = None
      end) /\
  (forall f idx rest,
      Fmt.xsputn_loop f idx (indent_code :: rest)
      = Fmt.xsputn_loop (Fmt.indent f) (S idx) rest /\
      Fmt.at_start_of_line (Fmt.indent f) = Fmt.at_start_of_line f /\
      Fmt.next (Fmt.indent f) = Fmt.next f /\
      Fmt.xsputn_loop f idx (undent_code :: rest)
      = Fmt.xsputn_loop (Fmt.undent f) (S idx) rest /\
      Fmt.at_start_of_line (Fmt.undent f) = Fmt.at_start_of_line f /\
      Fmt.next (Fmt.undent f) = Fmt.next f) /\
  (forall f obuf,
      match FmtChain.filter_write f obuf with
      | Ok (f', n) =>
          exists new,
            output (FmtChain.next f') = output (FmtChain.next f) ++ new /\
            ~ In indent_code new /\ ~ In undent_code new
      | Fault => FmtChain.next f = None
      end) /\
  (forall f idx rest,
      FmtChain.filter_write_loop f idx (indent_code :: rest)
      = FmtChain.filter_write_loop (FmtChain.indent f) (S idx) rest /\
      FmtChain.at_start_of_line (FmtChain.indent f)
      = FmtChain.at_start_of_line f /\
      FmtChain.next (FmtChain.indent f) = FmtChain.next f /\
      FmtChain.filter_write_loop f idx (undent_code :: rest)
      = FmtChain.filter_write_loop (FmtChain.undent f) (S idx) rest /\
      FmtChain.at_start_of_line (FmtChain.undent f)
      = FmtChain.at_start_of_line f /\
      FmtChain.next (FmtChain.undent f) = FmtChain.next f).
Proof.
  assert (NM : forall new, Forall not_mark new ->
                           ~ In indent_code new /\ ~ In undent_code new).
  { intros new F. rewrite Forall_forall in F.
    split; intros H; destruct (F _ H) as [A B]; congruence. }
  split; [|split; [|split]].
  - intros f obuf. pose proof (FmtFacts.xsputn_spec f obuf) as H.
    destruct (Fmt.xsputn f obuf) as [[f' n]|]; [|exact H].
    destruct H as (new & G & F & _). exists new.
    split; [apply grows_output; exact G | apply NM; exact F].
  - intros f idx rest.
    destruct (FmtFacts.indent_keeps_line_state f) as [A B].
    destruct (FmtFacts.undent_keeps_line_state f) as [C D].
    repeat split; auto.
  - intros f obuf. unfold FmtChain.filter_write.
    pose proof (FmtChainFacts.filter_write_loop_spec obuf f 0%nat) as H.
    destruct (FmtChain.filter_write_loop f 0 obuf) as [[f' n]|]; [|exact H].
    destruct H as (new & G & F & _). exists new.
    split; [apply grows_output; exact G | apply NM; exact F].
  - intros f idx rest.
    destruct (FmtChainFacts.chain_indent_keeps_line_state f) as [A B].
    destruct (FmtChainFacts.chain_undent_keeps_line_state f) as [C D].
    repeat split; auto.
Qed.

(** ** A NUL in the chaining buffer *)

(** X23.  A NUL written to the chaining buffer is reported written, and is
    lost when it finds the array full.  [sputc] of a NUL returns 0, not
    [eof].  With room in the array the NUL is stored like any character.
    With the array full [overflow] flushes and then drops the NUL, its test
    [not_eof(c)] being false for 0: behind a next buffer that takes
    everything, what was waiting is delivered and the NUL is nowhere. *)
Theorem nul_is_lost_at_a_full_array fuel (b : Exp.basic_filter_streambuf) sb :
  put_area_ok b -> Exp.next b = Some sb -> accept sb = accept_all ->
  exists b',
    Exp.put_char (S fuel) b nul = Some (Ok (b', 0%Z)) /\
    output (Exp.next b') ++ Exp.waiting b'
    = if (Exp.pptr b <? Exp.write_buffer_size b)%nat
      then delivered sb ++ Exp.waiting b ++ [nul]
      else delivered sb ++ Exp.waiting b.
Proof.
  intros (Hl & Hp & Hw) Hn Ha. unfold Exp.put_char.
  cbn [Exp.base Exp.base_class Exp.set_base]. unfold Exp.sizeof_obuf.
  destruct (Nat.ltb_spec (Exp.pptr b) (Exp.write_buffer_size b))
    as [Room|Full].
  - exists (Exp.put_here b nul). split; [reflexivity|].
    unfold Exp.put_here, Exp.waiting.
    cbn [Exp.obuf Exp.pptr Exp.next Exp.pbump Exp.set_obuf].
    rewrite Hn. cbn [output].
    replace (Exp.pptr b + 1)%nat with (S (Exp.pptr b)) by lia.
    rewrite ExpMore.firstn_store_snoc by lia. reflexivity.
  - cbn [Exp.overflow].
    rewrite (ExpMore.sync_base_full b sb Hn)
      by (rewrite ?Ha; unfold accept_all; lia).
    cbn [Z.ltb Z.compare]. rewrite ExpMore.not_eof_nul.
    eexists. split; [reflexivity|].
    unfold Exp.waiting.
    cbn [Exp.setp Exp.set_next Exp.next Exp.pptr Exp.obuf output delivered
           firstn].
    rewrite app_nil_r. reflexivity.
Qed.

Lemma nul_is_lost_at_a_full_array_witness :
  exists b',
    Exp.put_char 1 (Exp.set_next full_buffer (Some (sink accept_all))) nul
    = Some (Ok (b', 0%Z)) /\
    output (Exp.next b') ++ Exp.waiting b' = chars "abcdefgh".
Proof.
  apply (nul_is_lost_at_a_full_array 0
           (Exp.set_next full_buffer (Some (sink accept_all)))
           (sink accept_all)).
  - repeat split; vm_compute; lia.
  - reflexivity.
  - reflexivity.
Defined.

(** ** Destruction after a flush that was cut short *)

(** X25.  What the filter's own flush leaves waiting goes to the next
    buffer unfiltered.  Destruction is the filter's [sync], through
    [filter_write], followed by the [sync] of the base class's destructor,
    through [next->sputn]: whenever the first leaves characters in the put
    area and the next buffer takes them, they are delivered as they stand in
    the array, in one run, control marks and leading whitespace included. *)
Theorem base_destructor_flushes_unfiltered f f1 r sb1 :
  Exp.sync f = Ok (f1, r) ->
  FmtChain.next f1 = Some sb1 ->
  (Exp.pptr (FmtChain.filter_streambuf_base f1)
   <= length (Exp.obuf (FmtChain.filter_streambuf_base f1)))%nat ->
  (Exp.pptr (FmtChain.filter_streambuf_base f1)
   <= accept sb1 (calls sb1) (Exp.pptr (FmtChain.filter_streambuf_base f1)))%nat ->
  exists f2,
    FmtChain.destroy f = Ok f2 /\
    output (FmtChain.next f2)
    = delivered sb1 ++ Exp.waiting (FmtChain.filter_streambuf_base f1) /\
    Exp.waiting (FmtChain.filter_streambuf_base f2) = [] /\
    FmtChain.at_start_of_line f2 = FmtChain.at_start_of_line f1 /\
    FmtChain.indent_level f2 = FmtChain.indent_level f1.
Proof.
  intros Sy Hn Hl Ha. unfold FmtChain.destroy. rewrite Sy. cbn [bind].
  rewrite (ExpMore.sync_base_full (FmtChain.filter_streambuf_base f1) sb1 Hn Hl Ha).
  cbn [bind]. eexists. split; [reflexivity|].
  repeat split.
Qed.

Lemma base_destructor_flushes_unfiltered_witness :
  exists f2,
    FmtChain.destroy (holding refuse_first marked_run) = Ok f2 /\
    output (FmtChain.next f2) = marked_run ++ repeat nul 61.
Proof.
  let t := eval vm_compute in (Exp.sync (holding refuse_first marked_run)) in
  match t with
  | Ok (?f1, ?r) =>
      let n := eval vm_compute in (FmtChain.next f1) in
      match n with
      | Some ?sb1 =>
          destruct (base_destructor_flushes_unfiltered
                      (holding refuse_first marked_run) f1 r sb1)
            as (f2 & D & O & _)
      end
  end.
  - vm_compute. reflexivity.
  - vm_compute. reflexivity.
  - vm_compute. lia.
  - vm_compute. lia.
  - exists f2. split; [exact D | exact O].
Defined.

(** ** A write that finds indentation owed *)


